(** * Options-Pricer-Library: a shallow embedding of the pricing core

    The Python sources under [core/] are embedded as Rocq functions:

    - [core/utils.py]          -> [normal_pdf], [normal_cdf], [d1], [d2]
    - [core/black_scholes.py]  -> [black_scholes_price], [black_scholes_greeks],
                                  [implied_volatility]
    - [core/binomial_tree.py]  -> [binomial_tree_price]
    - [core/monte_carlo.py]    -> [monte_carlo_european]
    - [core/vol_surface.py]    -> [VolSurface_init], [VolSurface_iv],
                                  [VolSurface_shock_parallel], [price_from_surface]

    Conventions of the embedding.

    - A Python [float] is a real number ([R]); arithmetic is exact.  Rounding,
      overflow and underflow of IEEE doubles are outside the model.  Where the
      code can produce a not-a-number (the mean of an empty sample, a gap of
      the pivot table) the value is a [float], an [option R] whose [None]
      is NaN, and arithmetic propagates it.
    - A Python exception is an [exn]; a computation that can raise has type
      [result A].  The messages of the [ValueError]s are those of the source.
    - [math.exp], [math.sqrt], [math.log] are the functions of the standard
      library of reals, with the domain errors of the [math] module written
      out; [math.erf] is defined by its Maclaurin series.
    - Lists are immutable values that the loops thread through; the in-place
      updates of [binomial_tree_price] become list updates at an index, and
      an index out of range raises [IndexError] as in Python.
    - Objects that the code copies and mutates (the data frame of a
      volatility surface) live in an explicit store.
    - The functions of NumPy, pandas and SciPy that the code calls
      ([np.random.randn], [np.sort], [unique], [pivot_table], [mean],
      [RegularGridInterpolator]) are written out after their documented
      behaviour, for the arguments the code passes. *)

From Stdlib Require Import Reals Lra Lia ZArith String Ascii.
From Stdlib Require Import Arith.Factorial.
From stdpp Require Import base decidable option list sorting strings gmap.

#[local] Open Scope R_scope.

(** ** Python exceptions and the error monad *)

Inductive exn : Type :=
| ValueError (msg : string)
| ZeroDivisionError
| IndexError
| AttributeError.

Inductive result (A : Type) : Type :=
| OK (a : A)
| Raise (e : exn).
Arguments OK {A} a.
Arguments Raise {A} e.

Definition bind {A B : Type} (m : result A) (k : A -> result B) : result B :=
  match m with
  | OK a => k a
  | Raise e => Raise e
  end.

Declare Scope py_scope.
Delimit Scope py_scope with py.
Notation "'let!' x ':=' m 'in' k" := (bind m (fun x => k))
  (at level 10, x name, m at level 100, k at level 200) : py_scope.
#[local] Open Scope py_scope.

(** The error taxonomy of the library: every one is a [ValueError]. *)
Definition InvalidSpotStrike : exn := ValueError "S and K must be positive.".
Definition InvalidMaturity : exn := ValueError "T must be positive.".
Definition InvalidVolatility : exn := ValueError "sigma must be positive.".
Definition InvalidOptionType : exn := ValueError "option_type must be 'call' or 'put'.".
Definition InvalidTargetPrice : exn := ValueError "target_price must be positive.".
Definition BracketingError : exn :=
  ValueError "Implied vol not bracketed: try expanding lower/upper bounds.".
Definition ConvergenceError : exn :=
  ValueError "Implied volatility did not converge within max_iter.".
Definition MathDomainError : exn := ValueError "math domain error".

(** [InvalidInput] of the specification: one of the validation errors. *)
Definition InvalidInput (e : exn) : Prop :=
  e = InvalidSpotStrike \/ e = InvalidMaturity \/ e = InvalidVolatility \/
  e = InvalidOptionType.

(** ** Decidable comparisons on floats *)

#[global] Instance Rle_decision : RelDecision Rle := Rle_dec.
#[global] Instance Rlt_decision : RelDecision Rlt := Rlt_dec.
#[global] Instance Rgt_decision : RelDecision Rgt := Rgt_dec.
#[global] Instance Rge_decision : RelDecision Rge := Rge_dec.
#[global] Instance Req_decision : EqDecision R := Req_dec_T.

(** ** Partial operations of Python and of the [math] module *)

(** [x / y] on floats. *)
Definition py_div (x y : R) : result R :=
  if decide (y = 0) then Raise ZeroDivisionError else OK (x / y).

(** [math.sqrt(x)]. *)
Definition math_sqrt (x : R) : result R :=
  if decide (x < 0) then Raise MathDomainError else OK (sqrt x).

(** [math.log(x)]. *)
Definition math_log (x : R) : result R :=
  if decide (x <= 0) then Raise MathDomainError else OK (ln x).

(** [l[j]] and [l[j] = v] for a non-negative index. *)
Definition py_get {A : Type} (l : list A) (j : nat) : result A :=
  match l !! j with
  | Some a => OK a
  | None => Raise IndexError
  end.

Definition py_set {A : Type} (l : list A) (j : nat) (v : A) : result (list A) :=
  if decide (j < length l)%nat then OK (<[j := v]> l) else Raise IndexError.

(** [for x in xs: st = body(x, st)], stopping at the first exception. *)
Fixpoint for_each {A St : Type} (xs : list A) (body : A -> St -> result St)
    (st : St) : result St :=
  match xs with
  | [] => OK st
  | x :: xs' => let! st' := body x st in for_each xs' body st'
  end.

(** [str.lower()] on ASCII letters. *)
Definition str_lower_ascii (c : ascii) : ascii :=
  let n := nat_of_ascii c in
  if (65 <=? n)%nat && (n <=? 90)%nat then ascii_of_nat (n + 32) else c.

Fixpoint str_lower (s : string) : string :=
  match s with
  | EmptyString => EmptyString
  | String c s' => String (str_lower_ascii c) (str_lower s')
  end.

(** ** [math.erf]

    The error function is the sum of its Maclaurin series,
    [erf x = 2/sqrt(pi) * sum_n (-1)^n x^(2n+1) / (n! (2n+1))]; the series
    in [y = x*x] converges for every [y] by the ratio test. *)

Definition erf_coef (n : nat) : R := (-1) ^ n / (INR (fact n) * INR (2 * n + 1)).

Lemma erf_den_pos (n : nat) : 0 < INR (fact n) * INR (2 * n + 1).
Proof.
  apply Rmult_lt_0_compat.
  - apply INR_fact_lt_0.
  - apply lt_0_INR. lia.
Qed.

Lemma erf_coef_neq_0 (n : nat) : erf_coef n <> 0.
Proof.
  unfold erf_coef, Rdiv. apply Rmult_integral_contrapositive_currified.
  - apply pow_nonzero. lra.
  - apply Rinv_neq_0_compat. pose proof (erf_den_pos n). lra.
Qed.

Lemma inv_INR_cv_0 : Un_cv (fun n : nat => / INR (S n)) 0.
Proof.
  intros eps Heps.
  destruct (archimed_cor1 eps Heps) as [N [HN HN0]].
  exists N. intros n Hn.
  unfold Rdist. rewrite Rminus_0_r.
  assert (0 < INR N) by (apply lt_0_INR; lia).
  assert (INR N <= INR n) by (apply le_INR; lia).
  assert (0 < / INR (S n)) by (apply Rinv_0_lt_compat; rewrite S_INR; lra).
  rewrite Rabs_pos_eq by lra.
  apply Rle_lt_trans with (/ INR N); [|exact HN].
  apply Rinv_le_contravar; [lra | rewrite S_INR; lra].
Qed.

Lemma erf_coef_ratio (n : nat) :
  Rabs (erf_coef (S n) / erf_coef n) = INR (2 * n + 1) / (INR (S n) * INR (2 * n + 3)).
Proof.
  unfold erf_coef.
  replace (2 * S n + 1)%nat with (2 * n + 3)%nat by lia.
  rewrite fact_simpl, mult_INR.
  pose proof (INR_fact_lt_0 n) as Hf.
  assert (H1 : 0 < INR (2 * n + 1)) by (apply lt_0_INR; lia).
  assert (H3 : 0 < INR (2 * n + 3)) by (apply lt_0_INR; lia).
  assert (HS : 0 < INR (S n)) by (apply lt_0_INR; lia).
  assert (Hp : (-1) ^ n <> 0) by (apply pow_nonzero; lra).
  replace ((-1) ^ S n / (INR (S n) * INR (fact n) * INR (2 * n + 3)) /
           ((-1) ^ n / (INR (fact n) * INR (2 * n + 1))))
    with (- (INR (2 * n + 1) / (INR (S n) * INR (2 * n + 3)))).
  2:{ simpl pow. field. repeat split; lra. }
  rewrite Rabs_Ropp. apply Rabs_pos_eq.
  apply Rlt_le, Rdiv_lt_0_compat; [lra|]. apply Rmult_lt_0_compat; lra.
Qed.

Lemma Alembert_erf : Un_cv (fun n : nat => Rabs (erf_coef (S n) / erf_coef n)) 0.
Proof.
  intros eps Heps.
  destruct (inv_INR_cv_0 eps Heps) as [N HN].
  exists N. intros n Hn. specialize (HN n Hn).
  unfold Rdist in *. rewrite Rminus_0_r in *.
  rewrite Rabs_Rabsolu, erf_coef_ratio.
  assert (H1 : 0 < INR (2 * n + 1)) by (apply lt_0_INR; lia).
  assert (H3 : 0 < INR (2 * n + 3)) by (apply lt_0_INR; lia).
  assert (HS : 0 < INR (S n)) by (apply lt_0_INR; lia).
  assert (H13 : INR (2 * n + 1) <= INR (2 * n + 3)) by (apply le_INR; lia).
  assert (Hi : 0 < / INR (S n)) by (apply Rinv_0_lt_compat; lra).
  rewrite Rabs_pos_eq in HN by lra.
  assert (Hq : 0 <= INR (2 * n + 1) / (INR (S n) * INR (2 * n + 3))).
  { apply Rlt_le, Rdiv_lt_0_compat; [lra|]. apply Rmult_lt_0_compat; lra. }
  apply Rle_lt_trans with (/ INR (S n)); [|exact HN].
  replace (INR (2 * n + 1) / (INR (S n) * INR (2 * n + 3)))
    with (/ INR (S n) * (INR (2 * n + 1) / INR (2 * n + 3))) by (field; lra).
  rewrite <- (Rmult_1_r (/ INR (S n))) at 2.
  apply Rmult_le_compat_l; [lra|].
  apply Rmult_le_reg_r with (INR (2 * n + 3)); [lra|].
  unfold Rdiv. rewrite Rmult_assoc, Rinv_l by lra. lra.
Qed.

Definition erf_series (y : R) : {l : R | Pser erf_coef y l} :=
  Alembert_C3 erf_coef y erf_coef_neq_0 Alembert_erf.

Definition erf (x : R) : R :=
  2 / sqrt PI * (x * proj1_sig (erf_series (x * x))).

Lemma erf_odd (x : R) : erf (- x) = - erf x.
Proof.
  unfold erf. replace (- x * - x) with (x * x) by ring. ring.
Qed.


(** ** core/utils.py *)

(** [normal_pdf]: standard normal density. *)
Definition normal_pdf (x : R) : R :=
  (1 / sqrt (2 * PI)) * exp (- 0.5 * x * x).

(** [normal_cdf]: standard normal distribution function, through [math.erf]. *)
Definition normal_cdf (x : R) : R :=
  0.5 * (1 + erf (x / sqrt 2)).

(** [d1]: validates [T] and [sigma], then
    [(log(S / K) + (r + 0.5 sigma^2) T) / (sigma sqrt(T))]. *)
Definition d1 (S K T r sigma : R) : result R :=
  if decide (T <= 0) then Raise InvalidMaturity
  else if decide (sigma <= 0) then Raise InvalidVolatility
  else
    let! q := py_div S K in
    let! l := math_log q in
    let! sq := math_sqrt T in
    py_div (l + (r + 0.5 * sigma * sigma) * T) (sigma * sq).

(** [d2 = d1 - sigma sqrt(T)]. *)
Definition d2 (S K T r sigma : R) : result R :=
  let! d_1 := d1 S K T r sigma in
  let! sq := math_sqrt T in
  OK (d_1 - sigma * sq).

(** ** core/black_scholes.py *)

(** [black_scholes_price]: the four validations, then the closed form for
    the lower-cased option type. *)
Definition black_scholes_price (S K T r sigma : R) (option_type : string)
    : result R :=
  if decide (S <= 0 \/ K <= 0) then Raise InvalidSpotStrike
  else if decide (T <= 0) then Raise InvalidMaturity
  else if decide (sigma <= 0) then Raise InvalidVolatility
  else
    let option_type := str_lower option_type in
    let! d_1 := d1 S K T r sigma in
    let! d_2 := d2 S K T r sigma in
    if decide (option_type = "call") then
      OK (S * normal_cdf d_1 - K * exp (- r * T) * normal_cdf d_2)
    else if decide (option_type = "put") then
      OK (K * exp (- r * T) * normal_cdf (- d_2) - S * normal_cdf (- d_1))
    else Raise InvalidOptionType.

(** The loop of [implied_volatility]: [n] is the number of iterations of
    [range(max_iter)] still to run, [(a, b)] the bracket and
    [f_lower], [f_upper] the values the code keeps for its ends. *)
Fixpoint bisection (f : R -> result R) (tol : R) (n : nat)
    (a b f_lower f_upper : R) : result R :=
  match n with
  | O => Raise ConvergenceError
  | S n' =>
      let mid := 0.5 * (a + b) in
      let! f_mid := f mid in
      if decide (Rabs f_mid < tol) then OK mid
      else if decide (f_lower * f_mid < 0) then bisection f tol n' a mid f_lower f_mid
      else bisection f tol n' mid b f_mid f_upper
  end.

(** The objective [f] of [implied_volatility]. *)
Definition iv_objective (target_price S K T r : R) (option_type : string)
    (sigma_val : R) : result R :=
  let! price := black_scholes_price S K T r sigma_val option_type in
  OK (price - target_price).

(** [implied_volatility]: bisection on [sigma] between [lower] and [upper]. *)
Definition implied_volatility (target_price S K T r : R) (option_type : string)
    (tol : R) (max_iter : Z) (lower upper : R) : result R :=
  if decide (target_price <= 0) then Raise InvalidTargetPrice
  else
    let option_type := str_lower option_type in
    let f := iv_objective target_price S K T r option_type in
    let! f_lower := f lower in
    let! f_upper := f upper in
    if decide (f_lower * f_upper > 0) then Raise BracketingError
    else bisection f tol (Z.to_nat max_iter) lower upper f_lower f_upper.

(** The defaults of [implied_volatility]. *)
Definition default_tol : R := 1e-6.
Definition default_lower : R := 1e-6.
Definition default_upper : R := 5.

(** [x ** y] on floats, for a positive base [x]: the only case the code
    reaches, [T ** 0.5] being evaluated after the validation of [T]. *)
Definition py_pow (x y : R) : R := Rpower x y.

(** The dictionary [black_scholes_greeks] returns. *)
Definition greeks_dict (delta gamma vega theta rho : R) : gmap string R :=
  <["delta" := delta]> (<["gamma" := gamma]> (<["vega" := vega]>
    (<["theta" := theta]> (<["rho" := rho]> ∅)))).

(** [black_scholes_greeks]: the validations of [black_scholes_price], then
    the five sensitivities; the option type is checked after [gamma] and
    [vega] are computed. *)
Definition black_scholes_greeks (S K T r sigma : R) (option_type : string)
    : result (gmap string R) :=
  if decide (S <= 0 \/ K <= 0) then Raise InvalidSpotStrike
  else if decide (T <= 0) then Raise InvalidMaturity
  else if decide (sigma <= 0) then Raise InvalidVolatility
  else
    let option_type := str_lower option_type in
    let! d_1 := d1 S K T r sigma in
    let! d_2 := d2 S K T r sigma in
    let pdf_d1 := normal_pdf d_1 in
    let cdf_d1 := normal_cdf d_1 in
    let cdf_minus_d1 := normal_cdf (- d_1) in
    let cdf_d2 := normal_cdf d_2 in
    let cdf_minus_d2 := normal_cdf (- d_2) in
    let discount := exp (- r * T) in
    let! gamma := py_div pdf_d1 (S * sigma * py_pow T 0.5) in
    let vega := S * pdf_d1 * py_pow T 0.5 in
    if decide (option_type = "call") then
      let delta := cdf_d1 in
      let! decay := py_div (- (S * pdf_d1 * sigma)) (2 * py_pow T 0.5) in
      let theta := decay - r * K * discount * cdf_d2 in
      let rho := K * T * discount * cdf_d2 in
      OK (greeks_dict delta gamma vega theta rho)
    else if decide (option_type = "put") then
      let delta := cdf_d1 - 1 in
      let! decay := py_div (- (S * pdf_d1 * sigma)) (2 * py_pow T 0.5) in
      let theta := decay + r * K * discount * cdf_minus_d2 in
      let rho := - K * T * discount * cdf_minus_d2 in
      OK (greeks_dict delta gamma vega theta rho)
    else Raise InvalidOptionType.

(** ** core/binomial_tree.py *)

(** The body of the inner loop, [for j in range(i + 1)]: one node of the
    current level.  The state is the pair of arrays [(prices, values)],
    both updated in place at index [j]. *)
Definition induction_step (K u p disc : R) (option_type exercise : string)
    (j : nat) (st : list R * list R) : result (list R * list R) :=
  let '(prices, values) := st in
  let! v_up := py_get values (j + 1) in
  let! v_down := py_get values j in
  let continuation := disc * (p * v_up + (1 - p) * v_down) in
  let! values :=
    (if decide (str_lower exercise = "american") then
       let! price_j := py_get prices j in
       let! back := py_div price_j u in
       let intrinsic :=
         if decide (option_type = "call") then Rmax (back - K) 0
         else Rmax (K - back) 0 in
       py_set values j (Rmax continuation intrinsic)
     else py_set values j continuation) in
  let! price_j := py_get prices j in
  let! back := py_div price_j u in
  let! prices := py_set prices j back in
  OK (prices, values).

(** One level of the backward induction, [i] being the level. *)
Definition induction_level (K u p disc : R) (option_type exercise : string)
    (i : nat) (st : list R * list R) : result (list R * list R) :=
  for_each (seq 0 (i + 1)) (induction_step K u p disc option_type exercise) st.

(** Terminal spots, [S * u**j * d**(steps - j) for j in range(steps + 1)]. *)
Definition terminal_prices (S u d : R) (steps : Z) : list R :=
  (fun j : nat => S * u ^ j * d ^ Z.to_nat (steps - Z.of_nat j))
    <$> seq 0 (Z.to_nat (steps + 1)).

(** Terminal payoffs; every type other than ["call"] is priced as a put. *)
Definition terminal_values (K : R) (option_type : string) (prices : list R)
    : list R :=
  if decide (option_type = "call") then (fun price => Rmax (price - K) 0) <$> prices
  else (fun price => Rmax (K - price) 0) <$> prices.

(** [binomial_tree_price]: the Cox-Ross-Rubinstein lattice.  [steps] is a
    Python integer; [range(steps - 1, -1, -1)] is the reversed [range(steps)]. *)
Definition binomial_tree_price (S K T r sigma : R) (option_type : string)
    (steps : Z) (exercise : string) : result R :=
  let! dt := py_div T (IZR steps) in
  let! sq := math_sqrt dt in
  let u := exp (sigma * sq) in
  let! d := py_div 1 u in
  let! p := py_div (exp (r * dt) - d) (u - d) in
  let disc := exp (- r * dt) in
  let prices := terminal_prices S u d steps in
  let option_type := str_lower option_type in
  let values := terminal_values K option_type prices in
  let! st := for_each (rev (seq 0 (Z.to_nat steps)))
               (induction_level K u p disc option_type exercise)
               (prices, values) in
  py_get (snd st) 0.

(** ** core/monte_carlo.py *)

(** A float that may be NaN. *)
Abbreviation float := (option R).
Abbreviation NaN := (@None R).

(** The state of NumPy's global generator, as far as [randn] shows it: the
    sequence of standard-normal variates it is going to return. *)
Definition rng_state : Type := nat -> R.

(** [np.random.randn(n)]: returns the next [n] variates and advances the
    global generator by [n]. *)
Definition np_random_randn (n : Z) (g : rng_state)
    : result (list R) * rng_state :=
  if decide (n < 0)%Z then
    (Raise (ValueError "negative dimensions are not allowed"), g)
  else
    (OK (g <$> seq 0 (Z.to_nat n)), fun i => g (i + Z.to_nat n)%nat).

Definition Rsum (xs : list R) : R := foldr Rplus 0 xs.

(** [ndarray.mean()]: NaN on an empty array. *)
Definition np_mean (xs : list R) : float :=
  match xs with
  | [] => NaN
  | _ => Some (Rsum xs / INR (length xs))
  end.

(** [monte_carlo_european]: a computation on the global generator. *)
Definition monte_carlo_european (S0 K T r sigma : R) (option_type : string)
    (n_paths : Z) (antithetic : bool) (g : rng_state)
    : result float * rng_state :=
  let '(draws, g') := np_random_randn n_paths g in
  (let! Z := draws in
   let Z := if antithetic then Z ++ (Ropp <$> Z) else Z in
   let! sq := math_sqrt T in
   let ST := (fun z => S0 * exp ((r - 0.5 * sigma ^ 2) * T + sigma * sq * z)) <$> Z in
   let payoff :=
     if decide (str_lower option_type = "call") then (fun st => Rmax (st - K) 0) <$> ST
     else (fun st => Rmax (K - st) 0) <$> ST in
   OK (Rmult (exp (- r * T)) <$> np_mean payoff),
   g').

(** ** core/vol_surface.py *)

(** A row of the input table: the columns [maturity], [strike] and [iv].
    A frame of the model always has the three columns, so the column check
    of [VolSurface.__init__] passes. *)
Record row : Type := Row { maturity : R; strike : R; iv : R }.

(** *** pandas and NumPy *)

(** [np.sort(column.unique())].  [unique] keeps one copy of every value; the
    sort makes the order of the copies irrelevant. *)
Definition sorted_unique (xs : list R) : list R :=
  merge_sort Rle (remove_dups xs).

(** [df.pivot_table(index="maturity", columns="strike", values="iv").values]:
    one line per maturity and one column per strike, both ascending; a cell
    is the mean (the default [aggfunc]) of the [iv] of the rows with that
    maturity and strike, and NaN when there is none. *)
Definition pivot_table (rows : list row) : list (list float) :=
  (fun m =>
     (fun k =>
        np_mean (iv <$> filter (fun rw => maturity rw = m /\ strike rw = k) rows))
       <$> sorted_unique (strike <$> rows))
    <$> sorted_unique (maturity <$> rows).

(** [a[i]] on an array: a negative index counts from the end. *)
Definition np_index {A : Type} (l : list A) (i : Z) : option A :=
  if decide (i < 0)%Z then
    if decide (Z.of_nat (length l) + i < 0)%Z then None
    else l !! Z.to_nat (Z.of_nat (length l) + i)
  else l !! Z.to_nat i.

(** *** scipy.interpolate.RegularGridInterpolator

    The interpolator of the code: method "linear" (the default), with
    [bounds_error=False] and [fill_value=None], for which a point outside
    the grid is not an error and is not replaced by a fill value: the
    multilinear formula of the nearest cell is evaluated there. *)

(** [find_interval_ascending] with extrapolation: the interval [i] with
    [x[i] <= xval < x[i+1]], the first interval below the axis, the last
    one above it and at its last point. *)
Definition find_interval (x : list R) (xval : R) : Z :=
  let nx := Z.of_nat (length x) in
  let a := default 0 (head x) in
  let b := default 0 (last x) in
  if decide (a <= xval /\ xval <= b) then
    if decide (xval = b) then (nx - 2)%Z
    else (Z.of_nat (length (filter (fun g : R => (g <= xval)%R) x)) - 1)%Z
  else if decide (xval < a) then 0%Z
  else (nx - 2)%Z.

(** [find_indices] on one axis: the index of the cell and the distance of
    the point to its lower edge in units of the cell.  Nothing is clipped to
    [[0, 1]]: outside the axis the distance is negative or above one.  An
    axis of one point gives index [-1] and distance [0]. *)
Definition find_indices (grid : list R) (value : R) : Z * R :=
  if decide (length grid = 1%nat) then ((-1)%Z, 0)
  else
    let index := find_interval grid value in
    let lo := default 0 (np_index grid index) in
    let hi := default 0 (np_index grid (index + 1)) in
    (index, (value - lo) / (hi - lo)).

Definition nan_mul (v : float) (w : R) : float := (fun x => x * w) <$> v.

Definition nan_add (v w : float) : float :=
  match v, w with
  | Some x, Some y => Some (x + y)
  | _, _ => NaN
  end.

Definition value_at (values : list (list float)) (i0 i1 : Z) : float :=
  match np_index values i0 with
  | Some line => default NaN (np_index line i1)
  | None => NaN
  end.

(** The multilinear formula on the four corners of the cell. *)
Definition evaluate_linear (values : list (list float)) (i0 i1 : Z) (y0 y1 : R)
    : float :=
  nan_add
    (nan_add
       (nan_add (nan_mul (value_at values i0 i1) ((1 - y0) * (1 - y1)))
                (nan_mul (value_at values i0 (i1 + 1)) ((1 - y0) * y1)))
       (nan_mul (value_at values (i0 + 1) i1) (y0 * (1 - y1))))
    (nan_mul (value_at values (i0 + 1) (i1 + 1)) (y0 * y1)).

(** [interpolator([[T, K]])[0]]. *)
Definition interpolate (maturities strikes : list R) (values : list (list float))
    (T K : R) : float :=
  let '(i0, y0) := find_indices maturities T in
  let '(i1, y1) := find_indices strikes K in
  evaluate_linear values i0 i1 y0 y1.

(** *** The store of objects *)

(** Addresses of the store. *)
Abbreviation loc := positive.

(** A [VolSurface] object: the attribute [df] refers to a frame of the
    store; the axes and the grid are the arrays handed to the interpolator. *)
Record VolSurface : Type := MkVolSurface {
  df : loc;
  maturities : list R;
  strikes : list R;
  iv_grid : list (list float)
}.

Inductive object : Type :=
| DataFrame (rows : list row)
| Surface (s : VolSurface).

Abbreviation heap := (gmap loc object).

(** Computations on the store that may raise. *)
Definition M (A : Type) : Type := heap -> result (A * heap).

Definition ret {A : Type} (a : A) : M A := fun h => OK (a, h).

Definition bindM {A B : Type} (m : M A) (k : A -> M B) : M B :=
  fun h =>
    match m h with
    | OK (a, h') => k a h'
    | Raise e => Raise e
    end.

Notation "'let*' x ':=' m 'in' k" := (bindM m (fun x => k))
  (at level 10, x name, m at level 100, k at level 200) : py_scope.

(** A new object, at an address that is not in use. *)
Definition new (o : object) : M loc :=
  fun h => let l := fresh (dom h) in OK (l, <[l := o]> h).

Definition get_frame (d : loc) : M (list row) :=
  fun h =>
    match h !! d with
    | Some (DataFrame rows) => OK (rows, h)
    | _ => Raise AttributeError
    end.

Definition get_surface (self : loc) : M VolSurface :=
  fun h =>
    match h !! self with
    | Some (Surface s) => OK (s, h)
    | _ => Raise AttributeError
    end.

(** [df.copy()]: a new frame with the same rows. *)
Definition DataFrame_copy (d : loc) : M loc :=
  let* rows := get_frame d in new (DataFrame rows).

Definition bump_row (bump : R) (rw : row) : row :=
  Row (maturity rw) (strike rw) (iv rw + bump).

(** [df["iv"] += bump]: the frame at [d] is updated in place. *)
Definition DataFrame_iadd_iv (d : loc) (bump : R) : M unit :=
  let* rows := get_frame d in
  fun h => OK (tt, <[d := DataFrame (bump_row bump <$> rows)]> h).

(** [VolSurface.__init__]. *)
Definition VolSurface_init (d : loc) : M loc :=
  let* rows := get_frame d in
  let* self_df := DataFrame_copy d in
  new (Surface {| df := self_df;
                  maturities := sorted_unique (maturity <$> rows);
                  strikes := sorted_unique (strike <$> rows);
                  iv_grid := pivot_table rows |}).

(** [VolSurface.iv]. *)
Definition VolSurface_iv (self : loc) (K T : R) : M float :=
  let* s := get_surface self in
  ret (interpolate (maturities s) (strikes s) (iv_grid s) T K).

(** [VolSurface.shock_parallel]. *)
Definition VolSurface_shock_parallel (self : loc) (bump : R) : M loc :=
  let* s := get_surface self in
  let* bumped_df := DataFrame_copy (df s) in
  let* _ := DataFrame_iadd_iv bumped_df bump in
  VolSurface_init bumped_df.

(** *** Pricing off the surface *)

(** The keyword arguments [price_from_surface] hands to the pricer it
    selects: each optional parameter of the three pricers is given or not.
    The positional parameters cannot be given this way. *)
Record kwargs : Type := Kwargs {
  kw_option_type : option string;
  kw_steps : option Z;
  kw_exercise : option string;
  kw_n_paths : option Z;
  kw_antithetic : option bool
}.

(** What a call of [price_from_surface] comes to: a price, an exception of
    the core, or the [TypeError] of a call with a keyword argument that the
    selected pricer does not have. *)
Inductive priced : Type :=
| Price (v : float)
| Failed (e : exn)
| TypeError.

Definition InvalidSurfaceVol : exn :=
  ValueError "Vol surface returned invalid vol: out of interpolation range?".
Definition InvalidMethod : exn :=
  ValueError "method must be 'bsm', 'binomial', or 'mc'".

Definition priced_of (res : result R) : priced :=
  match res with
  | OK v => Price (Some v)
  | Raise e => Failed e
  end.

(** [price_from_surface]: reads the volatility off the surface, rejects a
    NaN, then calls the pricer [method] names with the keyword arguments.
    The store is read, not written; the generator is the Monte Carlo
    pricer's. *)
Definition price_from_surface (S K T r : R) (vol_surface : loc) (method : string)
    (kw : kwargs) (h : heap) (g : rng_state) : priced * rng_state :=
  match VolSurface_iv vol_surface K T h with
  | Raise e => (Failed e, g)
  | OK (None, _) => (Failed InvalidSurfaceVol, g)
  | OK (Some sigma, _) =>
      let method := str_lower method in
      if decide (method = "bsm") then
        match kw with
        | Kwargs option_type None None None None =>
            (priced_of (black_scholes_price S K T r sigma
                          (default "call"%string option_type)), g)
        | _ => (TypeError, g)
        end
      else if decide (method = "binomial") then
        match kw with
        | Kwargs option_type steps exercise None None =>
            (priced_of (binomial_tree_price S K T r sigma
                          (default "call"%string option_type) (default 200%Z steps)
                          (default "european"%string exercise)), g)
        | _ => (TypeError, g)
        end
      else if decide (method = "mc") then
        match kw with
        | Kwargs option_type None None n_paths antithetic =>
            let '(res, g') :=
              monte_carlo_european S K T r sigma
                (default "call"%string option_type) (default 50000%Z n_paths)
                (default true antithetic) g in
            (match res with OK v => Price v | Raise e => Failed e end, g')
        | _ => (TypeError, g)
        end
      else (Failed InvalidMethod, g)
  end.

(** * Definitions for the statements

    The closed forms, the specification-side functions and the predicates
    the properties below are stated with. *)

(** The value of [d1] when no validation fails. *)
Definition d1_value (S K T r sigma : R) : R :=
  (ln (S / K) + (r + 0.5 * sigma * sigma) * T) / (sigma * sqrt T).

(** The closed form as a function of the volatility, for a recognised
    option type. *)
Definition bs_value (S K T r : R) (option_type : string) (sigma : R) : R :=
  let d_1 := d1_value S K T r sigma in
  let d_2 := d_1 - sigma * sqrt T in
  if decide (str_lower option_type = "call") then
    S * normal_cdf d_1 - K * exp (- r * T) * normal_cdf d_2
  else K * exp (- r * T) * normal_cdf (- d_2) - S * normal_cdf (- d_1).

Definition recognised (option_type : string) : Prop :=
  str_lower option_type = "call" \/ str_lower option_type = "put".





(** The terms of the series of [erf], without their signs. *)
Definition erf_term (y : R) (n : nat) : R := y ^ n / (INR (fact n) * INR (2 * n + 1)).

(** The parameters of the lattice, when [T / steps > 0] and [sigma > 0]. *)
Record lattice : Type := MkLattice {
  lat_dt : R; lat_u : R; lat_d : R; lat_p : R; lat_disc : R
}.

Definition lattice_of (T r sigma : R) (steps : Z) : lattice :=
  let dt := T / IZR steps in
  let u := exp (sigma * sqrt dt) in
  let d := 1 / u in
  {| lat_dt := dt; lat_u := u; lat_d := d;
     lat_p := (exp (r * dt) - d) / (u - d); lat_disc := exp (- r * dt) |}.

(** The value a node receives: the continuation value, or under American
    exercise the larger of it and the intrinsic value at the spot the code
    has for the node. *)
Definition node_value (K u p disc : R) (option_type exercise : string)
    (price_j v_up v_down : R) : R :=
  let continuation := disc * (p * v_up + (1 - p) * v_down) in
  if decide (str_lower exercise = "american") then
    Rmax continuation
      (if decide (option_type = "call") then Rmax (price_j / u - K) 0
       else Rmax (K - price_j / u) 0)
  else continuation.

(** Both arrays have [n + 1] cells. *)
Definition arrays_ok (n : nat) (st : list R * list R) : Prop :=
  length (fst st) = S n /\ length (snd st) = S n.

(** The European run [eu] and the American run [am] at the same point of
    the loops: same spots, and every European value below the American one. *)
Definition dominated (n : nat) (eu am : list R * list R) : Prop :=
  fst eu = fst am /\ length (fst am) = S n /\ length (snd am) = S n /\
  Forall2 Rle (snd eu) (snd am).

(** The result of a call and the generator it leaves behind. *)
Definition mc_price (S0 K T r sigma : R) (option_type : string) (n_paths : Z)
    (antithetic : bool) (g : rng_state) : result float :=
  fst (monte_carlo_european S0 K T r sigma option_type n_paths antithetic g).

Definition mc_generator (S0 K T r sigma : R) (option_type : string)
    (n_paths : Z) (antithetic : bool) (g : rng_state) : rng_state :=
  snd (monte_carlo_european S0 K T r sigma option_type n_paths antithetic g).

(** A generator whose next variates are [0, 1, 2, ...]. *)
Definition counting_generator : rng_state := INR.

(** The value a computation returns, without the store it leaves. *)
Definition returns {A : Type} (m : M A) (h : heap) : result A :=
  match m h with
  | OK (a, _) => OK a
  | Raise e => Raise e
  end.

(** The surface [VolSurface.__init__] builds from the rows [rows], its frame
    being at [self_df]. *)
Definition surface_of (self_df : loc) (rows : list row) : VolSurface :=
  {| df := self_df;
     maturities := sorted_unique (maturity <$> rows);
     strikes := sorted_unique (strike <$> rows);
     iv_grid := pivot_table rows |}.

(** A table on a grid of two maturities and two strikes, and a store with
    a surface built from it. *)
Definition example_rows : list row :=
  [Row 1 100 0.2; Row 1 110 0.3; Row 2 100 0.25; Row 2 110 0.35].

Definition example_heap : heap :=
  <[2%positive := Surface (surface_of 1%positive example_rows)]>
    {[1%positive := DataFrame example_rows]}.

(** Strictly ascending lists: the axes of a surface. *)
Definition ascending (l : list R) : Prop := StronglySorted Rlt l.

(** The multilinear form on the four corner values. *)
Definition bilinear (v00 v01 v10 v11 y0 y1 : R) : R :=
  v00 * ((1 - y0) * (1 - y1)) + v01 * ((1 - y0) * y1) +
  v10 * (y0 * (1 - y1)) + v11 * (y0 * y1).

(** The cell [(i, j)] of the grid. *)
Definition cell (values : list (list float)) (i j : nat) : float :=
  value_at values (Z.of_nat i) (Z.of_nat j).

(** A grid without gaps. *)
Definition gapless (ms ks : list R) (values : list (list float)) : Prop :=
  forall i j : nat, (i < length ms)%nat -> (j < length ks)%nat ->
    is_Some (cell values i j).

(** What [iv(K, T)] returns on the surface built from [rows]. *)
Definition surface_iv (rows : list row) (K T : R) : float :=
  interpolate (sorted_unique (maturity <$> rows)) (sorted_unique (strike <$> rows))
    (pivot_table rows) T K.

(** No two rows for the same maturity and strike. *)
Definition unique_pairs (rows : list row) : Prop :=
  NoDup ((fun rw => (maturity rw, strike rw)) <$> rows).

(** Every maturity of the table has a row at every strike of the table. *)
Definition full_grid (rows : list row) : Prop :=
  forall r1 r2 : row, r1 ∈ rows -> r2 ∈ rows ->
    exists rw : row, rw ∈ rows /\ maturity rw = maturity r1 /\ strike rw = strike r2.

(** The column has two different values. *)
Definition two_values (xs : list R) : Prop :=
  exists x y : R, x ∈ xs /\ y ∈ xs /\ x <> y.



(** The difference between the call and the put value of the node [t] of
    the level [i] of a lattice of [n] steps, under European exercise. *)
Definition forward_value (S K u d disc : R) (n i t : nat) : R :=
  S * u ^ t * d ^ (i - t) - K * disc ^ (n - i).

(** The call run [c] and the put run [p] when the level [i] is complete. *)
Definition parity_level (S K u d disc : R) (n i : nat) (c p : list R * list R)
    : Prop :=
  arrays_ok n c /\ arrays_ok n p /\
  forall (t : nat) (x y : R), (t <= i)%nat ->
    snd c !! t = Some x -> snd p !! t = Some y ->
    x - y = forward_value S K u d disc n i t.

(** The two runs inside the level [i], before the node [j]. *)
Definition parity_node (S K u d disc : R) (n i j : nat) (c p : list R * list R)
    : Prop :=
  arrays_ok n c /\ arrays_ok n p /\
  (forall (t : nat) (x y : R), (t < j)%nat ->
     snd c !! t = Some x -> snd p !! t = Some y ->
     x - y = forward_value S K u d disc n i t) /\
  (forall (t : nat) (x y : R), (j <= t <= Datatypes.S i)%nat ->
     snd c !! t = Some x -> snd p !! t = Some y ->
     x - y = forward_value S K u d disc n (Datatypes.S i) t).

(** The node [0] of an American put run when the level [i] is complete: the
    spot the code keeps for it, [spot0] divided [n - i] times by [u], and a
    value that is at least the exercise value at that spot. *)
Definition put_floor (K u spot0 : R) (n i : nat) (st : list R * list R) : Prop :=
  arrays_ok n st /\
  exists x y : R,
    fst st !! 0%nat = Some x /\ snd st !! 0%nat = Some y /\
    x = spot0 / u ^ (n - i) /\ K - x <= y.

(** The same inside the level [i], before the node [j]. *)
Definition put_floor_node (K u spot0 : R) (n i j : nat) (st : list R * list R)
    : Prop :=
  arrays_ok n st /\
  exists x y : R,
    fst st !! 0%nat = Some x /\ snd st !! 0%nat = Some y /\
    (j = 0%nat -> x = spot0 / u ^ (n - Datatypes.S i)) /\
    (j <> 0%nat -> x = spot0 / u ^ (n - i) /\ K - x <= y).

(** The payoff of one path, as a function of its variate. *)
Definition path_payoff (S0 K T r sigma : R) (option_type : string) (z : R) : R :=
  let st := S0 * exp ((r - 0.5 * sigma ^ 2) * T + sigma * sqrt T * z) in
  if decide (str_lower option_type = "call") then Rmax (st - K) 0
  else Rmax (K - st) 0.

(** The generator that returns the opposite variates. *)
Definition mirrored (g : rng_state) : rng_state := fun i => - g i.

(** [x] lies between two values of the column. *)
Definition within (xs : list R) (x : R) : Prop :=
  exists a b : R, a ∈ xs /\ b ∈ xs /\ a <= x <= b.

(** The keyword arguments that give the option type only. *)
Definition only_option_type (option_type : option string) : kwargs :=
  Kwargs option_type None None None None.

(** A table with a quote missing: the maturities [1] and [2] and the
    strikes [100] and [110], without a row for [(2, 110)]. *)
Definition sparse_rows : list row :=
  [Row 1 100 0.2; Row 1 110 0.3; Row 2 100 0.25].

(** The terminal spot of one path. *)
Definition path_spot (S0 T r sigma z : R) : R :=
  S0 * exp ((r - 0.5 * sigma ^ 2) * T + sigma * sqrt T * z).

(** The variates a call draws, mirrored or not. *)
Definition draws (n_paths : Z) (antithetic : bool) (g : rng_state) : list R :=
  let Z := g <$> seq 0 (Z.to_nat n_paths) in
  if antithetic then Z ++ (Ropp <$> Z) else Z.

(** Both runs at the same point of the loops, every spot and every value of
    the second being [c] times that of the first. *)
Definition scaled (c : R) (n : nat) (s1 s2 : list R * list R) : Prop :=
  arrays_ok n s1 /\
  Forall2 (fun x y => y = c * x) (fst s1) (fst s2) /\
  Forall2 (fun x y => y = c * x) (snd s1) (snd s2).

(** * Properties *)

(** ** The closed form on valid inputs *)

Lemma sqrt_2_pos : 0 < sqrt 2.
Proof. apply sqrt_lt_R0. lra. Qed.

Lemma normal_cdf_reflect (x : R) : normal_cdf x + normal_cdf (- x) = 1.
Proof.
  unfold normal_cdf.
  replace (- x / sqrt 2) with (- (x / sqrt 2)).
  - rewrite erf_odd. lra.
  - pose proof sqrt_2_pos. field. lra.
Qed.

Lemma d1_valid (S K T r sigma : R) :
  0 < S -> 0 < K -> 0 < T -> 0 < sigma ->
  d1 S K T r sigma = OK (d1_value S K T r sigma).
Proof.
  intros HS HK HT Hsig. unfold d1, py_div, math_log, math_sqrt.
  rewrite (decide_False (P := T <= 0)) by lra.
  rewrite (decide_False (P := sigma <= 0)) by lra.
  rewrite (decide_False (P := K = 0)) by lra. simpl.
  assert (0 < S / K) by (apply Rdiv_lt_0_compat; lra).
  rewrite (decide_False (P := S / K <= 0)) by lra. simpl.
  rewrite (decide_False (P := T < 0)) by lra. simpl.
  assert (0 < sqrt T) by (apply sqrt_lt_R0; lra).
  assert (0 < sigma * sqrt T) by (apply Rmult_lt_0_compat; lra).
  rewrite (decide_False (P := sigma * sqrt T = 0)) by lra.
  reflexivity.
Qed.

Lemma d2_valid (S K T r sigma : R) :
  0 < S -> 0 < K -> 0 < T -> 0 < sigma ->
  d2 S K T r sigma = OK (d1_value S K T r sigma - sigma * sqrt T).
Proof.
  intros HS HK HT Hsig. unfold d2. rewrite d1_valid by assumption. simpl.
  unfold math_sqrt. rewrite (decide_False (P := T < 0)) by lra. reflexivity.
Qed.

Lemma black_scholes_price_valid (S K T r sigma : R) (option_type : string) :
  0 < S -> 0 < K -> 0 < T -> 0 < sigma ->
  black_scholes_price S K T r sigma option_type =
    let d_1 := d1_value S K T r sigma in
    let d_2 := d_1 - sigma * sqrt T in
    if decide (str_lower option_type = "call") then
      OK (S * normal_cdf d_1 - K * exp (- r * T) * normal_cdf d_2)
    else if decide (str_lower option_type = "put") then
      OK (K * exp (- r * T) * normal_cdf (- d_2) - S * normal_cdf (- d_1))
    else Raise InvalidOptionType.
Proof.
  intros HS HK HT Hsig. unfold black_scholes_price.
  rewrite (decide_False (P := S <= 0 \/ K <= 0)) by lra.
  rewrite (decide_False (P := T <= 0)) by lra.
  rewrite (decide_False (P := sigma <= 0)) by lra.
  rewrite d1_valid, d2_valid by assumption. reflexivity.
Qed.



(** ** The implied-volatility solver *)

Lemma str_lower_ascii_idemp (c : ascii) : str_lower_ascii (str_lower_ascii c) = str_lower_ascii c.
Proof.
  destruct c as [[] [] [] [] [] [] [] []]; reflexivity.
Qed.

Lemma str_lower_idemp (s : string) : str_lower (str_lower s) = str_lower s.
Proof.
  induction s as [|c s IH]; simpl; [reflexivity|].
  rewrite str_lower_ascii_idemp, IH. reflexivity.
Qed.

Lemma black_scholes_price_value (S K T r sigma : R) (option_type : string) :
  0 < S -> 0 < K -> 0 < T -> 0 < sigma -> recognised option_type ->
  black_scholes_price S K T r sigma option_type =
    OK (bs_value S K T r option_type sigma).
Proof.
  intros HS HK HT Hsig Hty.
  rewrite black_scholes_price_valid by assumption. unfold bs_value. cbn zeta.
  destruct (decide (str_lower option_type = "call")) as [Hc|Hc]; [reflexivity|].
  destruct Hty as [Hty|Hty]; [contradiction|].
  rewrite (decide_True (P := str_lower option_type = "put")) by assumption.
  reflexivity.
Qed.



Section Bisection.
Variable f : R -> result R.
Variable fr : R -> R.
Variable tol : R.
Hypothesis f_defined : forall x : R, 0 < x -> f x = OK (fr x).




End Bisection.

Lemma bs_value_str_lower (S K T r : R) (option_type : string) (sigma : R) :
  bs_value S K T r (str_lower option_type) sigma = bs_value S K T r option_type sigma.
Proof. unfold bs_value. rewrite str_lower_idemp. reflexivity. Qed.

Lemma iv_objective_value (target S K T r : R) (option_type : string) (sigma : R) :
  0 < S -> 0 < K -> 0 < T -> recognised option_type -> 0 < sigma ->
  iv_objective target S K T r (str_lower option_type) sigma =
    OK (bs_value S K T r option_type sigma - target).
Proof.
  intros HS HK HT Hty Hsig. unfold iv_objective.
  rewrite black_scholes_price_value; try assumption.
  - simpl. rewrite bs_value_str_lower. reflexivity.
  - unfold recognised. rewrite str_lower_idemp. exact Hty.
Qed.



(** ** Bounds on [math.erf]

    On [[0, 1]] the terms of the series decrease, so its sum lies between
    two consecutive partial sums. *)

Lemma erf_term_pos (y : R) (n : nat) : 0 <= y -> 0 <= erf_term y n.
Proof.
  intros Hy. unfold erf_term. pose proof (erf_den_pos n). pose proof (pow_le y n Hy).
  apply Rmult_le_pos; [assumption|]. apply Rlt_le, Rinv_0_lt_compat; assumption.
Qed.

Lemma erf_term_decreasing (y : R) : 0 <= y <= 1 -> Un_decreasing (erf_term y).
Proof.
  intros [Hy0 Hy1] n. unfold erf_term.
  replace (2 * S n + 1)%nat with (2 * n + 3)%nat by lia.
  rewrite fact_simpl, mult_INR.
  pose proof (INR_fact_lt_0 n) as Hf.
  assert (H1 : 0 < INR (2 * n + 1)) by (apply lt_0_INR; lia).
  assert (H3 : INR (2 * n + 1) <= INR (2 * n + 3)) by (apply le_INR; lia).
  assert (HS : 1 <= INR (S n)) by (replace 1 with (INR 1) by reflexivity; apply le_INR; lia).
  pose proof (pow_le y n Hy0) as Hp.
  simpl pow.
  apply Rmult_le_reg_r with (INR (S n) * INR (fact n) * INR (2 * n + 3) * (INR (fact n) * INR (2 * n + 1))).
  { repeat apply Rmult_lt_0_compat; lra. }
  replace (y * y ^ n / (INR (S n) * INR (fact n) * INR (2 * n + 3)) *
           (INR (S n) * INR (fact n) * INR (2 * n + 3) * (INR (fact n) * INR (2 * n + 1))))
    with (y ^ n * INR (fact n) * (y * INR (2 * n + 1))) by (field; lra).
  replace (y ^ n / (INR (fact n) * INR (2 * n + 1)) *
           (INR (S n) * INR (fact n) * INR (2 * n + 3) * (INR (fact n) * INR (2 * n + 1))))
    with (y ^ n * INR (fact n) * (INR (S n) * INR (2 * n + 3))) by (field; lra).
  apply Rmult_le_compat_l; [apply Rmult_le_pos; lra|].
  apply Rle_trans with (1 * INR (2 * n + 3)).
  - apply Rle_trans with (1 * INR (2 * n + 1)); [apply Rmult_le_compat_r; lra | lra].
  - apply Rmult_le_compat_r; lra.
Qed.

Lemma erf_term_cv_0 (y : R) : 0 <= y <= 1 -> Un_cv (erf_term y) 0.
Proof.
  intros [Hy0 Hy1] eps Heps.
  destruct (inv_INR_cv_0 eps Heps) as [N HN].
  exists N. intros n Hn. specialize (HN n Hn).
  unfold Rdist in *. rewrite Rminus_0_r in *.
  assert (HS : 0 < INR (S n)) by (apply lt_0_INR; lia).
  assert (Hi : 0 < / INR (S n)) by (apply Rinv_0_lt_compat; lra).
  rewrite Rabs_pos_eq in HN by lra.
  rewrite Rabs_pos_eq by (apply erf_term_pos; assumption).
  apply Rle_lt_trans with (/ INR (S n)); [|exact HN].
  unfold erf_term.
  pose proof (INR_fact_lt_0 n) as Hf.
  assert (Hf1 : 1 <= INR (fact n)).
  { replace 1 with (INR 1) by reflexivity. apply le_INR. pose proof (lt_O_fact n). lia. }
  assert (H1 : INR (S n) <= INR (2 * n + 1)) by (apply le_INR; lia).
  assert (Hp : 0 <= y ^ n <= 1).
  { split; [apply pow_le; lra|]. rewrite <- (pow1 n). apply pow_incr. lra. }
  apply Rle_trans with (1 / (INR (fact n) * INR (2 * n + 1))).
  - apply Rmult_le_compat_r; [|lra].
    apply Rlt_le, Rinv_0_lt_compat, Rmult_lt_0_compat; lra.
  - unfold Rdiv. rewrite Rmult_1_l. apply Rinv_le_contravar; [lra|].
    apply Rle_trans with (1 * INR (2 * n + 1)); [lra|].
    apply Rmult_le_compat_r; lra.
Qed.

Lemma erf_series_bounds (y : R) :
  0 <= y <= 1 -> 1 - y / 3 <= proj1_sig (erf_series y) <= 1.
Proof.
  intros Hy.
  destruct (erf_series y) as [l Hl]. simpl.
  assert (Hcv : Un_cv (fun N : nat => sum_f_R0 (tg_alt (erf_term y)) N) l).
  { intros eps Heps. destruct (Hl eps Heps) as [N HN]. exists N. intros n Hn.
    specialize (HN n Hn).
    replace (sum_f_R0 (tg_alt (erf_term y)) n)
      with (sum_f_R0 (fun n0 : nat => erf_coef n0 * y ^ n0) n); [exact HN|].
    apply sum_eq. intros i _. unfold tg_alt, erf_term, erf_coef. field.
    pose proof (erf_den_pos i).
    split; apply Rgt_not_eq; [apply lt_0_INR; lia | apply INR_fact_lt_0]. }
  pose proof (alternated_series_ineq (erf_term y) l 0
                (erf_term_decreasing y Hy) (erf_term_cv_0 y Hy) Hcv) as [Hlo Hhi].
  simpl in Hlo, Hhi. unfold tg_alt, erf_term in Hlo, Hhi. simpl in Hlo, Hhi.
  lra.
Qed.

Lemma erf_scale_bounds : 0 < 2 / sqrt PI <= 2.
Proof.
  assert (H1 : 1 <= sqrt PI).
  { rewrite <- sqrt_1. apply sqrt_le_1; pose proof PI2_1; lra. }
  split.
  - apply Rdiv_lt_0_compat; lra.
  - apply Rmult_le_reg_r with (sqrt PI); [lra|].
    unfold Rdiv. rewrite Rmult_assoc, Rinv_l by lra. lra.
Qed.

(** For [0 <= x <= 1]:
    [2/sqrt(pi) * x * (1 - x^2/3) <= erf x <= 2/sqrt(pi) * x]. *)
Lemma erf_bounds (x : R) :
  0 <= x <= 1 ->
  2 / sqrt PI * (x * (1 - x * x / 3)) <= erf x <= 2 / sqrt PI * x.
Proof.
  intros [Hx0 Hx1]. unfold erf.
  assert (Hy : 0 <= x * x <= 1) by nra.
  pose proof (erf_series_bounds (x * x) Hy) as [Hlo Hhi].
  pose proof erf_scale_bounds as [Hc _].
  set (h := proj1_sig (erf_series (x * x))) in *.
  split; apply Rmult_le_compat_l; try lra; nra.
Qed.

(** The argument of [erf] in an at-the-money price is [a / sqrt 2]. *)
Lemma erf_over_sqrt2_bounds (a : R) :
  0 <= a <= 1 ->
  2 / sqrt PI * (a / sqrt 2 * (1 - a * a / 6)) <= erf (a / sqrt 2)
    <= 2 / sqrt PI * (a / sqrt 2).
Proof.
  intros [Ha0 Ha1].
  pose proof sqrt_2_pos as Hs.
  assert (Hss : sqrt 2 * sqrt 2 = 2) by (apply sqrt_sqrt; lra).
  assert (Hs1 : 1 <= sqrt 2) by nra.
  assert (Hx : 0 <= a / sqrt 2 <= 1).
  { split.
    - apply Rmult_le_pos; [lra|]. apply Rlt_le, Rinv_0_lt_compat; lra.
    - apply Rmult_le_reg_r with (sqrt 2); [lra|].
      unfold Rdiv. rewrite Rmult_assoc, Rinv_l by lra. lra. }
  pose proof (erf_bounds (a / sqrt 2) Hx) as [Hlo Hhi].
  replace (a / sqrt 2 * (a / sqrt 2) / 3) with (a * a / 6) in Hlo; [lra|].
  replace 6 with (sqrt 2 * sqrt 2 * 3) by lra. field. lra.
Qed.

(** ** At-the-money calls at a zero rate

    With [K = S] and [r = 0] the call is worth
    [S * erf (sigma sqrt(T) / (2 sqrt 2))]. *)
Lemma bs_value_atm (S T sigma : R) :
  0 < S -> 0 < T -> 0 < sigma ->
  bs_value S S T 0 "call" sigma = S * erf (0.5 * sigma * sqrt T / sqrt 2).
Proof.
  intros HS HT Hsig.
  assert (Hq : 0 < sqrt T) by (apply sqrt_lt_R0; lra).
  assert (Hqq : sqrt T * sqrt T = T) by (apply sqrt_sqrt; lra).
  pose proof sqrt_2_pos as Hs.
  assert (Hd1 : d1_value S S T 0 sigma = 0.5 * sigma * sqrt T).
  { unfold d1_value. replace (S / S) with 1 by (field; lra). rewrite ln_1.
    rewrite <- Hqq at 1. field. split; lra. }
  unfold bs_value. rewrite Hd1. simpl str_lower.
  rewrite (decide_True (P := "call"%string = "call"%string)) by reflexivity.
  replace (- 0 * T) with 0 by ring. rewrite exp_0.
  unfold normal_cdf.
  assert (He : (0.5 * sigma * sqrt T - sigma * sqrt T) / sqrt 2 =
               - (0.5 * sigma * sqrt T / sqrt 2)).
  { unfold Rdiv. lra. }
  rewrite He, erf_odd. lra.
Qed.

Lemma sqrt_hundredth : sqrt 0.01 = 0.1.
Proof. replace 0.01 with (0.1 * 0.1) by lra. apply sqrt_square. lra. Qed.

(** At [T = 0.01] the argument is [0.05 sigma / sqrt 2]. *)
Lemma bs_value_atm_short (S sigma : R) :
  0 < S -> 0 < sigma ->
  bs_value S S 0.01 0 "call" sigma = S * erf (0.05 * sigma / sqrt 2).
Proof.
  intros HS Hsig. rewrite bs_value_atm by lra. rewrite sqrt_hundredth.
  f_equal. f_equal. unfold Rdiv. lra.
Qed.

Lemma erf_over_sqrt2_pos (a : R) : 0 < a <= 1 -> 0 < erf (a / sqrt 2).
Proof.
  intros [Ha0 Ha1].
  pose proof (erf_over_sqrt2_bounds a (conj (Rlt_le _ _ Ha0) Ha1)) as [Hlo _].
  pose proof erf_scale_bounds as [Hc _]. pose proof sqrt_2_pos as Hs.
  assert (0 < a / sqrt 2) by (apply Rdiv_lt_0_compat; lra).
  assert (0 < a / sqrt 2 * (1 - a * a / 6)) by (apply Rmult_lt_0_compat; nra).
  assert (0 < 2 / sqrt PI * (a / sqrt 2 * (1 - a * a / 6)))
    by (apply Rmult_lt_0_compat; lra).
  lra.
Qed.
















(** ** The binomial lattice *)

(** Loops that keep an invariant run to their end. *)
Lemma for_each_inv {A St : Type} (Inv : St -> Prop) (P : A -> Prop)
    (body : A -> St -> result St) (xs : list A) :
  (forall x st, P x -> Inv st -> exists st', body x st = OK st' /\ Inv st') ->
  Forall P xs ->
  forall st, Inv st -> exists st', for_each xs body st = OK st' /\ Inv st'.
Proof.
  intros Hbody HP. induction HP as [|x xs Hx _ IH]; intros st Hst.
  - exists st. split; [reflexivity | exact Hst].
  - destruct (Hbody x st Hx Hst) as (st1 & Hb & Hst1).
    destruct (IH st1 Hst1) as (st2 & Hf & Hst2).
    exists st2. simpl. rewrite Hb. simpl. split; assumption.
Qed.

(** Two loops over the same range whose states stay related. *)
Lemma for_each_rel {A St : Type} (Rel : St -> St -> Prop) (P : A -> Prop)
    (body1 body2 : A -> St -> result St) (xs : list A) :
  (forall x s1 s2, P x -> Rel s1 s2 ->
     exists s1' s2', body1 x s1 = OK s1' /\ body2 x s2 = OK s2' /\ Rel s1' s2') ->
  Forall P xs ->
  forall s1 s2, Rel s1 s2 ->
    exists s1' s2',
      for_each xs body1 s1 = OK s1' /\ for_each xs body2 s2 = OK s2' /\ Rel s1' s2'.
Proof.
  intros Hbody HP. induction HP as [|x xs Hx _ IH]; intros s1 s2 Hrel.
  - exists s1, s2. split; [reflexivity|]. split; [reflexivity | exact Hrel].
  - destruct (Hbody x s1 s2 Hx Hrel) as (t1 & t2 & Hb1 & Hb2 & Hrel').
    destruct (IH t1 t2 Hrel') as (w1 & w2 & Hf1 & Hf2 & Hrel'').
    exists w1, w2. simpl. rewrite Hb1, Hb2. simpl.
    split; [assumption|]. split; assumption.
Qed.

Lemma py_get_lt {A : Type} (l : list A) (j : nat) :
  (j < length l)%nat -> exists a, l !! j = Some a /\ py_get l j = OK a.
Proof.
  intros Hj. destruct (lookup_lt_is_Some_2 l j Hj) as [a Ha].
  exists a. unfold py_get. rewrite Ha. split; reflexivity.
Qed.

Lemma py_set_lt {A : Type} (l : list A) (j : nat) (v : A) :
  (j < length l)%nat -> py_set l j v = OK (<[j := v]> l).
Proof. intros Hj. unfold py_set. rewrite decide_True by exact Hj. reflexivity. Qed.

Lemma py_div_nonzero (x y : R) : y <> 0 -> py_div x y = OK (x / y).
Proof. intros Hy. unfold py_div. rewrite decide_False by exact Hy. reflexivity. Qed.

Lemma lattice_dt_pos (T : R) (steps : Z) :
  (1 <= steps)%Z -> 0 < T -> 0 < T / IZR steps.
Proof.
  intros Hs HT. apply Rdiv_lt_0_compat; [exact HT|].
  apply IZR_lt. lia.
Qed.

Lemma lattice_u_gt_1 (T r sigma : R) (steps : Z) :
  (1 <= steps)%Z -> 0 < T -> 0 < sigma -> 1 < lat_u (lattice_of T r sigma steps).
Proof.
  intros Hs HT Hsig. simpl.
  pose proof (lattice_dt_pos T steps Hs HT) as Hdt.
  assert (0 < sqrt (T / IZR steps)) by (apply sqrt_lt_R0; exact Hdt).
  assert (0 < sigma * sqrt (T / IZR steps)) by (apply Rmult_lt_0_compat; assumption).
  rewrite <- exp_0. apply exp_increasing. assumption.
Qed.

Lemma inv_lt_self (u : R) : 1 < u -> 0 < 1 / u < 1.
Proof.
  intros Hu. assert (0 < / u) by (apply Rinv_0_lt_compat; lra).
  assert (u * / u = 1) by (apply Rinv_r; lra).
  unfold Rdiv. rewrite Rmult_1_l. split; [assumption|nra].
Qed.

Lemma binomial_tree_price_unfold (S K T r sigma : R) (option_type : string)
    (steps : Z) (exercise : string) :
  (1 <= steps)%Z -> 0 < T -> 0 < sigma ->
  binomial_tree_price S K T r sigma option_type steps exercise =
    let lat := lattice_of T r sigma steps in
    let prices := terminal_prices S (lat_u lat) (lat_d lat) steps in
    let! st := for_each (rev (seq 0 (Z.to_nat steps)))
                 (induction_level K (lat_u lat) (lat_p lat) (lat_disc lat)
                    (str_lower option_type) exercise)
                 (prices, terminal_values K (str_lower option_type) prices) in
    py_get (snd st) 0.
Proof.
  intros Hs HT Hsig. unfold binomial_tree_price.
  pose proof (lattice_dt_pos T steps Hs HT) as Hdt.
  pose proof (lattice_u_gt_1 T r sigma steps Hs HT Hsig) as Hu. simpl in Hu.
  pose proof (inv_lt_self _ Hu) as Hd.
  assert (Hz : IZR steps <> 0) by (apply not_0_IZR; lia).
  rewrite (py_div_nonzero T) by exact Hz. simpl bind.
  unfold math_sqrt. rewrite (decide_False (P := T / IZR steps < 0)) by lra.
  simpl bind. rewrite (py_div_nonzero 1) by lra. simpl bind.
  rewrite py_div_nonzero by lra. reflexivity.
Qed.

Lemma induction_step_value (K u p disc : R) (option_type exercise : string)
    (j : nat) (prices values : list R) (price_j v_up v_down : R) :
  u <> 0 ->
  prices !! j = Some price_j ->
  values !! (j + 1)%nat = Some v_up ->
  values !! j = Some v_down ->
  induction_step K u p disc option_type exercise j (prices, values) =
    OK (<[j := price_j / u]> prices,
        <[j := node_value K u p disc option_type exercise price_j v_up v_down]> values).
Proof.
  intros Hu Hp Hup Hdown. unfold induction_step, node_value, py_get.
  rewrite Hup, Hdown, Hp. simpl bind.
  pose proof (lookup_lt_Some _ _ _ Hp) as Hlp.
  pose proof (lookup_lt_Some _ _ _ Hdown) as Hlv.
  rewrite (py_div_nonzero _ u Hu).
  destruct (decide (str_lower exercise = "american")); simpl bind;
    rewrite !py_set_lt by assumption; reflexivity.
Qed.

Lemma induction_step_ok (K u p disc : R) (option_type exercise : string)
    (n j : nat) (st : list R * list R) :
  u <> 0 -> (j < n)%nat -> arrays_ok n st ->
  exists st',
    induction_step K u p disc option_type exercise j st = OK st' /\
    arrays_ok n st'.
Proof.
  intros Hu Hj [Hlp Hlv]. destruct st as [prices values]. simpl in Hlp, Hlv.
  destruct (py_get_lt prices j) as (pj & Hpj & _); [lia|].
  destruct (py_get_lt values (j + 1)) as (vu & Hvu & _); [lia|].
  destruct (py_get_lt values j) as (vd & Hvd & _); [lia|].
  eexists. split; [apply induction_step_value; eassumption|].
  split; simpl; rewrite length_insert; assumption.
Qed.

Lemma seq_below (i n : nat) :
  (i < n)%nat -> Forall (fun j : nat => (j < n)%nat) (seq 0 (i + 1)).
Proof.
  intros Hi. apply Forall_forall. intros j Hj.
  apply list_elem_of_In, in_seq in Hj. lia.
Qed.

Lemma rev_seq_below (n : nat) :
  Forall (fun i : nat => (i < n)%nat) (rev (seq 0 n)).
Proof.
  apply Forall_forall. intros i Hi.
  apply list_elem_of_In, in_rev, in_seq in Hi. lia.
Qed.

Lemma backward_induction_ok (K u p disc : R) (option_type exercise : string)
    (n : nat) (st : list R * list R) :
  u <> 0 -> arrays_ok n st ->
  exists st',
    for_each (rev (seq 0 n)) (induction_level K u p disc option_type exercise) st
      = OK st' /\ arrays_ok n st'.
Proof.
  intros Hu Hst.
  apply (for_each_inv (arrays_ok n) (fun i : nat => (i < n)%nat));
    [|apply rev_seq_below|exact Hst].
  intros i st1 Hi Hst1. unfold induction_level.
  apply (for_each_inv (arrays_ok n) (fun j : nat => (j < n)%nat));
    [|apply seq_below; exact Hi|exact Hst1].
  intros j st2 Hj Hst2. apply induction_step_ok; assumption.
Qed.

Lemma length_terminal_prices (S u d : R) (steps : Z) :
  (0 <= steps)%Z -> length (terminal_prices S u d steps) = Datatypes.S (Z.to_nat steps).
Proof.
  intros Hs. unfold terminal_prices. rewrite length_fmap, length_seq.
  rewrite Z2Nat.inj_add by lia. simpl. lia.
Qed.

Lemma length_terminal_values (K : R) (option_type : string) (prices : list R) :
  length (terminal_values K option_type prices) = length prices.
Proof.
  unfold terminal_values.
  destruct (decide (option_type = "call")); apply length_fmap.
Qed.

(** The lattice pricer returns whenever [T / steps] and [sigma] are
    positive, whatever the spot and the strike. *)
Lemma binomial_tree_price_returns (S K T r sigma : R) (option_type : string)
    (steps : Z) (exercise : string) :
  (1 <= steps)%Z -> 0 < T -> 0 < sigma ->
  exists price : R,
    binomial_tree_price S K T r sigma option_type steps exercise = OK price.
Proof.
  intros Hs HT Hsig.
  rewrite binomial_tree_price_unfold by assumption. cbn zeta.
  pose proof (lattice_u_gt_1 T r sigma steps Hs HT Hsig) as Hu.
  set (lat := lattice_of T r sigma steps) in *.
  set (prices := terminal_prices S (lat_u lat) (lat_d lat) steps).
  destruct (backward_induction_ok K (lat_u lat) (lat_p lat) (lat_disc lat)
              (str_lower option_type) exercise (Z.to_nat steps)
              (prices, terminal_values K (str_lower option_type) prices))
    as (st & Hrun & Hok).
  - lra.
  - split; simpl; [|rewrite length_terminal_values];
      apply length_terminal_prices; lia.
  - rewrite Hrun. simpl bind. destruct Hok as [_ Hlv].
    destruct (py_get_lt (snd st) 0) as (v & _ & Hv); [lia|].
    exists v. exact Hv.
Qed.



(** A lattice of two steps, run on arrays of three cells. *)
Lemma two_step_run (K u p disc : R) (option_type exercise : string)
    (a0 a1 a2 v0 v1 v2 : R) :
  u <> 0 ->
  for_each (rev (seq 0 2)) (induction_level K u p disc option_type exercise)
    ([a0; a1; a2], [v0; v1; v2]) =
    let w0 := node_value K u p disc option_type exercise a0 v1 v0 in
    let w1 := node_value K u p disc option_type exercise a1 v2 v1 in
    let z0 := node_value K u p disc option_type exercise (a0 / u) w1 w0 in
    OK ([a0 / u / u; a1 / u; a2], [z0; w1; v2]).
Proof.
  intros Hu. cbn zeta.
  change (rev (seq 0 2)) with [1%nat; 0%nat].
  unfold for_each at 1, induction_level.
  change (seq 0 (1 + 1)) with [0%nat; 1%nat].
  change (seq 0 (0 + 1)) with [0%nat].
  unfold for_each.
  rewrite (induction_step_value K u p disc option_type exercise 0
             [a0; a1; a2] [v0; v1; v2] a0 v1 v0) by (assumption || reflexivity).
  cbn [bind].
  erewrite induction_step_value by (assumption || reflexivity).
  cbn [bind].
  erewrite induction_step_value by (assumption || reflexivity).
  reflexivity.
Qed.

Lemma terminal_prices_2 (S u d : R) :
  terminal_prices S u d 2 = [S * u ^ 0 * d ^ 2; S * u ^ 1 * d ^ 1; S * u ^ 2 * d ^ 0].
Proof. reflexivity. Qed.

(** The risk-neutral weight leaves [[0, 1]] when the rate is large against
    the volatility: here below [0]. *)
Lemma lattice_p_neg (T r sigma : R) (steps : Z) :
  (1 <= steps)%Z -> 0 < T -> 0 < sigma ->
  r * sqrt (T / IZR steps) < - sigma ->
  lat_p (lattice_of T r sigma steps) < 0.
Proof.
  intros Hs HT Hsig Hr.
  pose proof (lattice_dt_pos T steps Hs HT) as Hdt.
  pose proof (lattice_u_gt_1 T r sigma steps Hs HT Hsig) as Hu.
  pose proof (inv_lt_self _ Hu) as Hd. simpl in Hu, Hd. simpl.
  set (dt := T / IZR steps) in *.
  assert (Hq : 0 < sqrt dt) by (apply sqrt_lt_R0; exact Hdt).
  assert (Hqq : sqrt dt * sqrt dt = dt) by (apply sqrt_sqrt; lra).
  assert (Hlt : exp (r * dt) < 1 / exp (sigma * sqrt dt)).
  { unfold Rdiv. rewrite Rmult_1_l, <- exp_Ropp. apply exp_increasing.
    rewrite <- Hqq at 1. nra. }
  set (u := exp (sigma * sqrt dt)) in *.
  assert (Hinv : 0 < / (u - 1 / u)) by (apply Rinv_0_lt_compat; lra).
  unfold Rdiv at 1. nra.
Qed.

Lemma Rmax_nonpos (x : R) : x <= 0 -> Rmax x 0 = 0.
Proof. intros Hx. apply Rmax_right. exact Hx. Qed.

(** A call struck at the spot on a lattice of two steps with a negative
    risk-neutral weight: the European price is positive, the American one
    is zero. *)
Lemma two_step_call_values (u p disc : R) (exercise : string) :
  1 < u -> p < 0 -> 0 < disc ->
  (let! st := for_each (rev (seq 0 2))
                (induction_level 100 u p disc "call" exercise)
                (terminal_prices 100 u (1 / u) 2,
                 terminal_values 100 "call" (terminal_prices 100 u (1 / u) 2)) in
   py_get (snd st) 0) =
  OK (if decide (str_lower exercise = "american") then 0
      else disc * disc * (p * p) * (100 * (u * u) - 100)).
Proof.
  intros Hu Hp Hdisc.
  pose proof (inv_lt_self u Hu) as [Hd0 Hd1].
  assert (Hud : u * (1 / u) = 1) by (field; lra).
  set (d := 1 / u) in *.
  rewrite terminal_prices_2. unfold terminal_values.
  rewrite decide_True by reflexivity. cbn [fmap list_fmap].
  rewrite two_step_run by lra. cbn zeta. cbn [bind snd py_get lookup list_lookup].
  f_equal.
  assert (Hv0 : Rmax (100 * u ^ 0 * d ^ 2 - 100) 0 = 0)
    by (apply Rmax_nonpos; simpl; nra).
  assert (Hv1 : Rmax (100 * u ^ 1 * d ^ 1 - 100) 0 = 0)
    by (apply Rmax_nonpos; simpl; nra).
  assert (Hv2 : Rmax (100 * u ^ 2 * d ^ 0 - 100) 0 = 100 * (u * u) - 100)
    by (rewrite Rmax_left; simpl; nra).
  rewrite Hv0, Hv1, Hv2.
  assert (Ha0 : 100 * u ^ 0 * d ^ 2 / u = 100 * (d * d * d))
    by (unfold d; simpl; field; lra).
  assert (Ha1 : 100 * u ^ 1 * d ^ 1 / u = 100 * d)
    by (unfold d; simpl; field; lra).
  unfold node_value. rewrite Ha0, Ha1.
  rewrite !(decide_True (P := "call"%string = "call"%string)) by reflexivity.
  assert (Hi0 : Rmax (100 * (d * d * d) - 100) 0 = 0) by (apply Rmax_nonpos; nra).
  assert (Hi1 : Rmax (100 * d - 100) 0 = 0) by (apply Rmax_nonpos; nra).
  assert (Hi2 : Rmax (100 * (d * d * d) / u - 100) 0 = 0).
  { apply Rmax_nonpos. replace (100 * (d * d * d) / u) with (100 * (d * d * d * d))
      by (unfold d; field; lra). nra. }
  rewrite Hi0, Hi1, Hi2.
  destruct (decide (str_lower exercise = "american")).
  - replace (disc * (p * 0 + (1 - p) * 0)) with 0 by ring.
    rewrite (Rmax_nonpos 0) by lra.
    assert (HV : 0 < 100 * (u * u) - 100) by nra.
    assert (HpV : p * (100 * (u * u) - 100) < 0) by nra.
    rewrite (Rmax_nonpos (disc * (p * (100 * (u * u) - 100) + (1 - p) * 0))) by nra.
    replace (disc * (p * 0 + (1 - p) * 0)) with 0 by ring.
    apply Rmax_nonpos. lra.
  - ring.
Qed.

(** C6, counterexample.  A rate of -2% against a volatility of 1% over two
    steps of one year makes the risk-neutral weight negative; the American
    call is then priced at zero, below the European call. *)
Lemma american_below_european_counterexample :
  exists am eu : R,
    binomial_tree_price 100 100 2 (-0.02) 0.01 "call" 2 "american" = OK am /\
    binomial_tree_price 100 100 2 (-0.02) 0.01 "call" 2 "european" = OK eu /\
    am < eu.
Proof.
  assert (Hq : sqrt (2 / IZR 2) = 1).
  { replace (2 / IZR 2) with 1 by lra. exact sqrt_1. }
  pose proof (lattice_u_gt_1 2 (-0.02) 0.01 2 ltac:(lia) ltac:(lra) ltac:(lra)) as Hu.
  assert (Hp : lat_p (lattice_of 2 (-0.02) 0.01 2) < 0).
  { apply lattice_p_neg; [lia | lra | lra |]. rewrite Hq. lra. }
  assert (Hdisc : 0 < lat_disc (lattice_of 2 (-0.02) 0.01 2)) by apply exp_pos.
  set (lat := lattice_of 2 (-0.02) 0.01 2) in *.
  exists 0, (lat_disc lat * lat_disc lat * (lat_p lat * lat_p lat) *
             (100 * (lat_u lat * lat_u lat) - 100)).
  rewrite !binomial_tree_price_unfold by (lia || lra). cbn zeta. fold lat.
  change (Z.to_nat 2) with 2%nat. change (str_lower "call") with "call"%string.
  change (lat_d lat) with (1 / lat_u lat).
  rewrite !two_step_call_values by assumption.
  split; [reflexivity|]. split; [reflexivity|].
  assert (0 < lat_p lat * lat_p lat) by nra.
  assert (0 < lat_disc lat * lat_disc lat) by nra.
  assert (0 < 100 * (lat_u lat * lat_u lat) - 100) by nra.
  apply Rmult_lt_0_compat; [apply Rmult_lt_0_compat|]; assumption.
Qed.

(** The risk-neutral weight is a probability when [|r| sqrt(dt) <= sigma]. *)
Lemma lattice_p_bounds (T r sigma : R) (steps : Z) :
  (1 <= steps)%Z -> 0 < T -> 0 < sigma ->
  Rabs r * sqrt (T / IZR steps) <= sigma ->
  0 <= lat_p (lattice_of T r sigma steps) <= 1.
Proof.
  intros Hs HT Hsig Hr.
  pose proof (lattice_dt_pos T steps Hs HT) as Hdt.
  pose proof (lattice_u_gt_1 T r sigma steps Hs HT Hsig) as Hu.
  pose proof (inv_lt_self _ Hu) as Hd. simpl in Hu, Hd. simpl.
  set (dt := T / IZR steps) in *.
  assert (Hq : 0 < sqrt dt) by (apply sqrt_lt_R0; exact Hdt).
  assert (Hqq : sqrt dt * sqrt dt = dt) by (apply sqrt_sqrt; lra).
  assert (Hy : - (sigma * sqrt dt) <= r * dt <= sigma * sqrt dt).
  { pose proof (Rle_abs r) as H1. pose proof (Rle_abs (- r)) as H2.
    rewrite Rabs_Ropp in H2.
    assert (H3 : Rabs r * sqrt dt * sqrt dt <= sigma * sqrt dt)
      by (apply Rmult_le_compat_r; lra).
    assert (H4 : r * (sqrt dt * sqrt dt) <= Rabs r * (sqrt dt * sqrt dt))
      by (apply Rmult_le_compat_r; nra).
    assert (H5 : - r * (sqrt dt * sqrt dt) <= Rabs r * (sqrt dt * sqrt dt))
      by (apply Rmult_le_compat_r; nra).
    rewrite Hqq in H4, H5. rewrite Rmult_assoc, Hqq in H3. lra. }
  assert (Hlo : 1 / exp (sigma * sqrt dt) <= exp (r * dt)).
  { unfold Rdiv. rewrite Rmult_1_l, <- exp_Ropp.
    destruct (proj1 Hy) as [Hlt|Heq]; [left; apply exp_increasing; exact Hlt|].
    right. rewrite Heq. reflexivity. }
  assert (Hhi : exp (r * dt) <= exp (sigma * sqrt dt)).
  { destruct (proj2 Hy) as [Hlt|Heq]; [left; apply exp_increasing; exact Hlt|].
    right. rewrite Heq. reflexivity. }
  set (u := exp (sigma * sqrt dt)) in *.
  assert (Hinv : 0 < / (u - 1 / u)) by (apply Rinv_0_lt_compat; lra).
  assert (Hone : (u - 1 / u) * / (u - 1 / u) = 1) by (apply Rinv_r; lra).
  unfold Rdiv at 1 3. split; nra.
Qed.

Lemma node_value_dominated (K u p disc : R) (option_type ex_eu ex_am : string)
    (price_j e_up e_down a_up a_down : R) :
  0 <= p <= 1 -> 0 <= disc ->
  str_lower ex_am = "american" -> str_lower ex_eu <> "american" ->
  e_up <= a_up -> e_down <= a_down ->
  node_value K u p disc option_type ex_eu price_j e_up e_down <=
  node_value K u p disc option_type ex_am price_j a_up a_down.
Proof.
  intros Hp Hdisc Ham Heu Hup Hdown. unfold node_value.
  rewrite (decide_True (P := str_lower ex_am = "american")) by exact Ham.
  rewrite (decide_False (P := str_lower ex_eu = "american")) by exact Heu.
  eapply Rle_trans; [|apply Rmax_l].
  apply Rmult_le_compat_l; [exact Hdisc|].
  apply Rplus_le_compat; apply Rmult_le_compat_l; lra.
Qed.

Lemma induction_step_dominated (K u p disc : R)
    (option_type ex_eu ex_am : string) (n j : nat) (eu am : list R * list R) :
  u <> 0 -> 0 <= p <= 1 -> 0 <= disc ->
  str_lower ex_am = "american" -> str_lower ex_eu <> "american" ->
  (j < n)%nat -> dominated n eu am ->
  exists eu' am',
    induction_step K u p disc option_type ex_eu j eu = OK eu' /\
    induction_step K u p disc option_type ex_am j am = OK am' /\
    dominated n eu' am'.
Proof.
  intros Hu Hp Hdisc Ham Heu Hj (Hsame & Hlp & Hlv & Hle).
  destruct eu as [prices ve], am as [prices' va]. simpl in *. subst prices'.
  pose proof (Forall2_length _ _ _ Hle) as Hlen.
  destruct (py_get_lt prices j) as (pj & Hpj & _); [lia|].
  destruct (py_get_lt va (j + 1)) as (au & Hau & _); [lia|].
  destruct (py_get_lt va j) as (ad & Had & _); [lia|].
  destruct (py_get_lt ve (j + 1)) as (eu_ & Heu_ & _); [lia|].
  destruct (py_get_lt ve j) as (ed & Hed & _); [lia|].
  do 2 eexists.
  split; [apply induction_step_value; eassumption|].
  split; [apply induction_step_value; eassumption|].
  split; [reflexivity|]. simpl. rewrite !length_insert.
  split; [assumption|]. split; [assumption|].
  apply Forall2_insert; [exact Hle|].
  apply node_value_dominated; try assumption.
  - exact (Forall2_lookup_lr _ _ _ _ _ _ Hle Heu_ Hau).
  - exact (Forall2_lookup_lr _ _ _ _ _ _ Hle Hed Had).
Qed.

Lemma backward_induction_dominated (K u p disc : R)
    (option_type ex_eu ex_am : string) (n : nat) (eu am : list R * list R) :
  u <> 0 -> 0 <= p <= 1 -> 0 <= disc ->
  str_lower ex_am = "american" -> str_lower ex_eu <> "american" ->
  dominated n eu am ->
  exists eu' am',
    for_each (rev (seq 0 n)) (induction_level K u p disc option_type ex_eu) eu
      = OK eu' /\
    for_each (rev (seq 0 n)) (induction_level K u p disc option_type ex_am) am
      = OK am' /\
    dominated n eu' am'.
Proof.
  intros Hu Hp Hdisc Ham Heu Hst.
  apply (for_each_rel (dominated n) (fun i : nat => (i < n)%nat));
    [|apply rev_seq_below|exact Hst].
  intros i s1 s2 Hi Hs. unfold induction_level.
  apply (for_each_rel (dominated n) (fun j : nat => (j < n)%nat));
    [|apply seq_below; exact Hi|exact Hs].
  intros j t1 t2 Hj Ht. apply induction_step_dominated; assumption.
Qed.

(** C6, amended.  When the risk-neutral weight is a probability, that is
    when [|r| sqrt(T / steps) <= sigma], the American lattice price is at
    least the European one, for either option type. *)
Theorem american_dominates_european (S K T r sigma : R) (option_type : string)
    (steps : Z) (ex_am ex_eu : string) :
  (1 <= steps)%Z -> 0 < T -> 0 < sigma ->
  Rabs r * sqrt (T / IZR steps) <= sigma ->
  str_lower ex_am = "american" -> str_lower ex_eu <> "american" ->
  exists am eu : R,
    binomial_tree_price S K T r sigma option_type steps ex_am = OK am /\
    binomial_tree_price S K T r sigma option_type steps ex_eu = OK eu /\
    eu <= am.
Proof.
  intros Hs HT Hsig Hr Ham Heu.
  rewrite !binomial_tree_price_unfold by assumption. cbn zeta.
  pose proof (lattice_u_gt_1 T r sigma steps Hs HT Hsig) as Hu.
  pose proof (lattice_p_bounds T r sigma steps Hs HT Hsig Hr) as Hp.
  assert (Hdisc : 0 <= lat_disc (lattice_of T r sigma steps))
    by (apply Rlt_le, exp_pos).
  set (lat := lattice_of T r sigma steps) in *.
  set (prices := terminal_prices S (lat_u lat) (lat_d lat) steps).
  set (values := terminal_values K (str_lower option_type) prices).
  destruct (backward_induction_dominated K (lat_u lat) (lat_p lat) (lat_disc lat)
              (str_lower option_type) ex_eu ex_am (Z.to_nat steps)
              (prices, values) (prices, values))
    as (eu' & am' & Hrun_eu & Hrun_am & _ & _ & Hlv & Hle);
    try assumption; [lra| |].
  - split; [reflexivity|]. simpl.
    split; [apply length_terminal_prices; lia|].
    split; [unfold values; rewrite length_terminal_values;
            apply length_terminal_prices; lia|].
    apply Forall2_same_length_lookup_2; [reflexivity|].
    intros i x y Hx Hy. rewrite Hx in Hy. injection Hy as <-. apply Rle_refl.
  - rewrite Hrun_eu, Hrun_am. simpl bind.
    destruct (py_get_lt (snd am') 0) as (a & Ha & Hga); [lia|].
    pose proof (Forall2_length _ _ _ Hle) as Hlen.
    destruct (py_get_lt (snd eu') 0) as (e & He & Hge); [lia|].
    exists a, e. split; [exact Hga|]. split; [exact Hge|].
    exact (Forall2_lookup_lr _ _ _ _ _ _ Hle He Ha).
Qed.

Lemma american_dominates_european_witness :
  exists am eu : R,
    binomial_tree_price 100 100 1 0.05 0.2 "put" 200 "american" = OK am /\
    binomial_tree_price 100 100 1 0.05 0.2 "put" 200 "european" = OK eu /\
    eu <= am.
Proof.
  apply (american_dominates_european 100 100 1 0.05 0.2 "put" 200
           "american" "european"); try lia; try lra.
  - rewrite Rabs_pos_eq by lra.
    assert (H : sqrt (1 / IZR 200) <= 1).
    { apply Rle_trans with (sqrt 1); [apply sqrt_le_1; lra | rewrite sqrt_1; lra]. }
    pose proof (sqrt_pos (1 / IZR 200)). lra.
  - reflexivity.
  - discriminate.
Defined.

(** ** Validation of the inputs *)

(** The analytic pricer rejects every non-positive spot, strike, maturity
    or volatility with one of its validation errors, before it computes
    anything. *)
Lemma black_scholes_price_validates (S K T r sigma : R) (option_type : string) :
  S <= 0 \/ K <= 0 \/ T <= 0 \/ sigma <= 0 ->
  exists e : exn,
    black_scholes_price S K T r sigma option_type = Raise e /\ InvalidInput e.
Proof.
  intros H. unfold black_scholes_price, InvalidInput.
  destruct (decide (S <= 0 \/ K <= 0)); [eexists; split; [reflexivity|tauto]|].
  destruct (decide (T <= 0)); [eexists; split; [reflexivity|tauto]|].
  destruct (decide (sigma <= 0)); [eexists; split; [reflexivity|tauto]|].
  exfalso. tauto.
Qed.

Lemma monte_carlo_european_returns (S0 K T r sigma : R) (option_type : string)
    (n_paths : Z) (antithetic : bool) (g : rng_state) :
  (0 <= n_paths)%Z -> 0 <= T ->
  exists price : float,
    fst (monte_carlo_european S0 K T r sigma option_type n_paths antithetic g)
      = OK price.
Proof.
  intros Hn HT. unfold monte_carlo_european, np_random_randn.
  rewrite (decide_False (P := (n_paths < 0)%Z)) by lia.
  cbn [fst bind]. unfold math_sqrt.
  rewrite (decide_False (P := T < 0)) by lra. cbn [bind].
  eexists. reflexivity.
Qed.

(** C1, the failing input.  A spot of [-100] with otherwise ordinary inputs:
    the analytic pricer raises its validation error, while the lattice
    pricer and the Monte Carlo pricer, which have no validation, return a
    price. *)
Theorem negative_spot_is_priced :
  black_scholes_price (-100) 100 1 0.05 0.2 "call" = Raise InvalidSpotStrike /\
  (exists price : R,
     binomial_tree_price (-100) 100 1 0.05 0.2 "call" 200 "european" = OK price) /\
  (forall g : rng_state, exists price : float,
     fst (monte_carlo_european (-100) 100 1 0.05 0.2 "call" 50000 true g)
       = OK price).
Proof.
  split; [|split].
  - unfold black_scholes_price. rewrite decide_True by lra. reflexivity.
  - apply binomial_tree_price_returns; [lia | lra | lra].
  - intros g. apply monte_carlo_european_returns; [lia | lra].
Qed.

(** ** The Monte Carlo pricer and the global generator *)





(** ** The volatility surface: the store *)

Lemma fresh_lookup (h : heap) : h !! fresh (dom h) = None.
Proof. apply not_elem_of_dom. apply is_fresh. Qed.

(** Writing at an address that is not in use leaves the other objects. *)
Lemma insert_fresh_lookup (h : heap) (x l : loc) (o o' : object) :
  h !! l = Some o -> h !! x = None -> <[x := o']> h !! l = Some o.
Proof.
  intros Hl Hx. rewrite lookup_insert_ne; [exact Hl|]. intros ->. congruence.
Qed.

Lemma VolSurface_init_run (h : heap) (d : loc) (rows : list row) :
  h !! d = Some (DataFrame rows) ->
  let self_df := fresh (dom h) in
  let h1 := <[self_df := DataFrame rows]> h in
  let self := fresh (dom h1) in
  VolSurface_init d h = OK (self, <[self := Surface (surface_of self_df rows)]> h1).
Proof.
  intros Hd. unfold VolSurface_init, bindM at 1, get_frame at 1.
  rewrite Hd. unfold DataFrame_copy, bindM, get_frame, new.
  rewrite Hd. reflexivity.
Qed.

Lemma VolSurface_iv_run (h : heap) (self : loc) (s : VolSurface) (K T : R) :
  h !! self = Some (Surface s) ->
  VolSurface_iv self K T h =
    OK (interpolate (maturities s) (strikes s) (iv_grid s) T K, h).
Proof.
  intros Hs. unfold VolSurface_iv, bindM, get_surface, ret. rewrite Hs. reflexivity.
Qed.

Lemma VolSurface_shock_parallel_run (h : heap) (self : loc) (s : VolSurface)
    (rows : list row) (bump : R) :
  h !! self = Some (Surface s) ->
  h !! df s = Some (DataFrame rows) ->
  let bumped_df := fresh (dom h) in
  let h1 := <[bumped_df := DataFrame rows]> h in
  let h2 := <[bumped_df := DataFrame (bump_row bump <$> rows)]> h1 in
  VolSurface_shock_parallel self bump h = VolSurface_init bumped_df h2.
Proof.
  intros Hs Hd. unfold VolSurface_shock_parallel, bindM at 1, get_surface.
  rewrite Hs. unfold DataFrame_copy, bindM at 1, bindM at 1, get_frame, new.
  rewrite Hd. cbn zeta. unfold DataFrame_iadd_iv, bindM at 1, bindM at 1, get_frame.
  rewrite lookup_insert_eq. reflexivity.
Qed.

(** C9.  [shock_parallel] returns a new surface and leaves every object of
    the store as it was: the receiver, with its axes and its grid, and the
    frame of its rows.  Every later query on the receiver returns what it
    returned before the call. *)
Theorem shock_parallel_preserves_receiver (h : heap) (self : loc)
    (s : VolSurface) (rows : list row) (bump : R) :
  h !! self = Some (Surface s) ->
  h !! df s = Some (DataFrame rows) ->
  exists (shocked shocked_df : loc) (h' : heap),
    VolSurface_shock_parallel self bump h = OK (shocked, h') /\
    h !! shocked = None /\ h !! shocked_df = None /\
    h' !! shocked = Some (Surface (surface_of shocked_df (bump_row bump <$> rows))) /\
    h' !! shocked_df = Some (DataFrame (bump_row bump <$> rows)) /\
    (forall (l : loc) (o : object), h !! l = Some o -> h' !! l = Some o) /\
    (forall K T : R,
       returns (VolSurface_iv self K T) h' = returns (VolSurface_iv self K T) h).
Proof.
  intros Hs Hd.
  rewrite (VolSurface_shock_parallel_run h self s rows bump Hs Hd). cbn zeta.
  rewrite insert_insert_eq.
  set (b := fresh (dom h)).
  set (h2 := <[b := DataFrame (bump_row bump <$> rows)]> h).
  assert (Hb : h !! b = None) by apply fresh_lookup.
  rewrite (VolSurface_init_run h2 b (bump_row bump <$> rows))
    by (unfold h2; apply lookup_insert_eq).
  cbn zeta.
  set (c := fresh (dom h2)).
  set (h3 := <[c := DataFrame (bump_row bump <$> rows)]> h2).
  set (sh := fresh (dom h3)).
  set (h4 := <[sh := Surface (surface_of c (bump_row bump <$> rows))]> h3).
  assert (Hc : h2 !! c = None) by apply fresh_lookup.
  assert (Hsh : h3 !! sh = None) by apply fresh_lookup.
  assert (H3 : forall (l : loc) (o : object), h !! l = Some o -> h3 !! l = Some o).
  { intros l o Hl. unfold h3, h2.
    apply insert_fresh_lookup; [apply insert_fresh_lookup; assumption | exact Hc]. }
  assert (H4 : forall (l : loc) (o : object), h3 !! l = Some o -> h4 !! l = Some o).
  { intros l o Hl. apply insert_fresh_lookup; [exact Hl | exact Hsh]. }
  exists sh, c, h4.
  split; [reflexivity|].
  split; [destruct (h !! sh) as [o|] eqn:Ho; [apply H3 in Ho; congruence | reflexivity]|].
  split.
  { destruct (h !! c) as [o|] eqn:Ho; [|reflexivity].
    assert (h2 !! c = Some o)
      by (unfold h2; apply insert_fresh_lookup; assumption).
    congruence. }
  split; [apply lookup_insert_eq|].
  split; [apply H4; apply lookup_insert_eq|].
  split; [intros l o Hl; apply H4, H3; exact Hl|].
  intros K T. unfold returns.
  rewrite (VolSurface_iv_run h4 self s K T (H4 _ _ (H3 _ _ Hs))).
  rewrite (VolSurface_iv_run h self s K T Hs). reflexivity.
Qed.

Lemma shock_parallel_preserves_receiver_witness :
  exists (shocked shocked_df : loc) (h' : heap),
    VolSurface_shock_parallel 2%positive 0.02 example_heap = OK (shocked, h') /\
    example_heap !! shocked = None /\ example_heap !! shocked_df = None /\
    h' !! shocked =
      Some (Surface (surface_of shocked_df (bump_row 0.02 <$> example_rows))) /\
    h' !! shocked_df = Some (DataFrame (bump_row 0.02 <$> example_rows)) /\
    (forall (l : loc) (o : object),
       example_heap !! l = Some o -> h' !! l = Some o) /\
    (forall K T : R,
       returns (VolSurface_iv 2%positive K T) h' =
       returns (VolSurface_iv 2%positive K T) example_heap).
Proof.
  apply (shock_parallel_preserves_receiver example_heap 2%positive
           (surface_of 1%positive example_rows) example_rows 0.02).
  - reflexivity.
  - reflexivity.
Defined.

(** ** The volatility surface: axes and grid *)

#[global] Instance Rle_total : Total Rle.
Proof. intros x y. destruct (Rle_lt_dec x y); [left | right]; lra. Qed.

#[global] Instance Rle_transitive : Transitive Rle.
Proof. intros x y z. apply Rle_trans. Qed.

#[global] Instance Rle_antisymm : AntiSymm (=) Rle.
Proof. intros x y. apply Rle_antisym. Qed.

Lemma ascending_of_sorted_nodup (l : list R) :
  StronglySorted Rle l -> NoDup l -> ascending l.
Proof.
  induction 1 as [|x l Hl IH Hx]; intros Hnd; [constructor|].
  apply NoDup_cons in Hnd as [Hnotin Hnd].
  constructor; [apply IH; exact Hnd|].
  apply Forall_forall. intros y Hy.
  pose proof (proj1 (Forall_forall _ _) Hx y Hy) as Hle.
  destruct Hle as [Hlt|Heq]; [exact Hlt|]. subst y. contradiction.
Qed.

Lemma ascending_sorted (l : list R) : ascending l -> StronglySorted Rle l.
Proof.
  induction 1 as [|x l Hl IH Hx]; constructor; [exact IH|].
  eapply Forall_impl; [exact Hx|]. intros y Hy. lra.
Qed.

Lemma ascending_nodup (l : list R) : ascending l -> NoDup l.
Proof.
  induction 1 as [|x l Hl IH Hx]; constructor; [|exact IH].
  intros Hin. pose proof (proj1 (Forall_forall _ _) Hx x Hin). lra.
Qed.

Lemma sorted_unique_elem (xs : list R) (x : R) : x ∈ sorted_unique xs <-> x ∈ xs.
Proof.
  unfold sorted_unique. rewrite merge_sort_Permutation. apply elem_of_remove_dups.
Qed.

Lemma sorted_unique_ascending (xs : list R) : ascending (sorted_unique xs).
Proof.
  apply ascending_of_sorted_nodup.
  - apply StronglySorted_merge_sort; apply _.
  - unfold sorted_unique. rewrite merge_sort_Permutation. apply NoDup_remove_dups.
Qed.

(** The axis of a column is the ascending list of its values. *)
Lemma sorted_unique_eq (xs l : list R) :
  ascending l -> (forall x : R, x ∈ l <-> x ∈ xs) -> sorted_unique xs = l.
Proof.
  intros Hl Hel.
  apply (StronglySorted_unique Rle).
  - apply ascending_sorted, sorted_unique_ascending.
  - apply ascending_sorted, Hl.
  - apply NoDup_Permutation.
    + apply ascending_nodup, sorted_unique_ascending.
    + apply ascending_nodup, Hl.
    + intros x. rewrite sorted_unique_elem. symmetry. apply Hel.
Qed.

Lemma ascending_lookup_lt (l : list R) (i j : nat) (x y : R) :
  ascending l -> l !! i = Some x -> l !! j = Some y -> (i < j)%nat -> x < y.
Proof.
  intros Hl. revert i j. induction Hl as [|z l Hl IH Hz]; intros i j Hi Hj Hij.
  - rewrite lookup_nil in Hi. discriminate.
  - destruct j as [|j]; [lia|]. simpl in Hj. destruct i as [|i].
    + simpl in Hi. injection Hi as ->.
      apply (proj1 (Forall_forall _ _) Hz). eapply list_elem_of_lookup_2. exact Hj.
    + simpl in Hi. apply (IH i j); [assumption | assumption | lia].
Qed.

Lemma filter_le_nil (x : R) (l : list R) :
  Forall (Rlt x) l -> filter (fun g : R => g <= x) l = [].
Proof.
  induction 1 as [|y l Hy _ IH]; [reflexivity|].
  rewrite filter_cons_False by lra. exact IH.
Qed.

(** On an ascending axis, [i + 1] points are at or below its point [i]. *)
Lemma count_le_node (l : list R) (i : nat) (x : R) :
  ascending l -> l !! i = Some x ->
  length (filter (fun g : R => g <= x) l) = S i.
Proof.
  intros Hl. revert i. induction Hl as [|z l Hl IH Hz]; intros i Hi.
  - rewrite lookup_nil in Hi. discriminate.
  - destruct i as [|i]; simpl in Hi.
    + injection Hi as ->. rewrite filter_cons_True by lra.
      rewrite filter_le_nil by exact Hz. reflexivity.
    + assert (Hzx : z < x).
      { apply (proj1 (Forall_forall _ _) Hz). eapply list_elem_of_lookup_2. exact Hi. }
      rewrite filter_cons_True by lra. simpl. rewrite (IH i Hi). reflexivity.
Qed.

Lemma axis_ends (l : list R) (a b : R) :
  l !! 0%nat = Some a -> l !! pred (length l) = Some b ->
  default 0 (head l) = a /\ default 0 (last l) = b.
Proof.
  intros Ha Hb. rewrite head_lookup, Ha. rewrite last_lookup, Hb. split; reflexivity.
Qed.

Lemma axis_first_le (l : list R) (i : nat) (a x : R) :
  ascending l -> l !! 0%nat = Some a -> l !! i = Some x -> a <= x.
Proof.
  intros Hl Ha Hx. destruct i as [|i].
  - rewrite Ha in Hx. injection Hx as ->. lra.
  - left. apply (ascending_lookup_lt l 0 (S i)); [assumption..|lia].
Qed.

Lemma axis_le_last (l : list R) (i : nat) (b x : R) :
  ascending l -> l !! pred (length l) = Some b -> l !! i = Some x -> x <= b.
Proof.
  intros Hl Hb Hx. pose proof (lookup_lt_Some _ _ _ Hx) as Hi.
  destruct (decide (i = pred (length l))) as [->|Hne].
  - rewrite Hb in Hx. injection Hx as ->. lra.
  - left. apply (ascending_lookup_lt l i (pred (length l))); [assumption..|lia].
Qed.

(** The cell of a point of the axis: its own, and the last cell at the last
    point. *)
Lemma find_interval_node (l : list R) (i : nat) (x : R) :
  ascending l -> (2 <= length l)%nat -> l !! i = Some x ->
  find_interval l x =
    if decide (S i = length l) then (Z.of_nat i - 1)%Z else Z.of_nat i.
Proof.
  intros Hl Hn Hx. pose proof (lookup_lt_Some _ _ _ Hx) as Hi.
  destruct (lookup_lt_is_Some_2 l 0) as [a Ha]; [lia|].
  destruct (lookup_lt_is_Some_2 l (pred (length l))) as [b Hb]; [lia|].
  destruct (axis_ends l a b Ha Hb) as [Hha Hlb].
  pose proof (axis_first_le l i a x Hl Ha Hx) as Hax.
  pose proof (axis_le_last l i b x Hl Hb Hx) as Hxb.
  unfold find_interval. rewrite Hha, Hlb.
  rewrite (decide_True (P := a <= x /\ x <= b)) by (split; assumption).
  destruct (decide (S i = length l)) as [Hlast|Hlast].
  - assert (i = pred (length l)) by lia. subst i.
    rewrite Hb in Hx. injection Hx as ->.
    rewrite (decide_True (P := x = x)) by reflexivity. lia.
  - assert (Hlt : x < b).
    { apply (ascending_lookup_lt l i (pred (length l))); [assumption..|lia]. }
    rewrite (decide_False (P := x = b)) by lra.
    rewrite (count_le_node l i x Hl Hx). lia.
Qed.


Lemma find_interval_below (l : list R) (a x : R) :
  ascending l -> (2 <= length l)%nat -> l !! 0%nat = Some a -> x < a ->
  find_interval l x = 0%Z.
Proof.
  intros Hl Hn Ha Hx.
  destruct (lookup_lt_is_Some_2 l (pred (length l))) as [b Hb]; [lia|].
  destruct (axis_ends l a b Ha Hb) as [Hha Hlb].
  unfold find_interval. rewrite Hha, Hlb.
  rewrite (decide_False (P := a <= x /\ x <= b)) by lra.
  rewrite (decide_True (P := x < a)) by lra. reflexivity.
Qed.

Lemma np_index_nat {A : Type} (l : list A) (i : nat) :
  np_index l (Z.of_nat i) = l !! i.
Proof.
  unfold np_index. rewrite decide_False by lia. rewrite Nat2Z.id. reflexivity.
Qed.

(** [find_indices] in the cell [i], between the points [lo] and [hi]. *)
Lemma find_indices_cell (l : list R) (i : nat) (lo hi x : R) :
  (2 <= length l)%nat -> l !! i = Some lo -> l !! S i = Some hi ->
  find_interval l x = Z.of_nat i ->
  find_indices l x = (Z.of_nat i, (x - lo) / (hi - lo)).
Proof.
  intros Hn Hlo Hhi Hcell. unfold find_indices.
  rewrite decide_False by lia. rewrite Hcell.
  replace (Z.of_nat i + 1)%Z with (Z.of_nat (S i)) by lia.
  rewrite !np_index_nat, Hlo, Hhi. reflexivity.
Qed.

Lemma find_indices_node (l : list R) (i : nat) (x hi : R) :
  ascending l -> l !! i = Some x -> l !! S i = Some hi ->
  find_indices l x = (Z.of_nat i, (x - x) / (hi - x)).
Proof.
  intros Hl Hx Hhi. pose proof (lookup_lt_Some _ _ _ Hhi) as Hi.
  apply find_indices_cell; [lia | assumption | assumption |].
  rewrite (find_interval_node l i x) by (assumption || lia).
  rewrite decide_False by lia. reflexivity.
Qed.

Lemma find_indices_last (l : list R) (i : nat) (lo x : R) :
  ascending l -> l !! i = Some lo -> l !! S i = Some x -> S (S i) = length l ->
  find_indices l x = (Z.of_nat i, (x - lo) / (x - lo)).
Proof.
  intros Hl Hlo Hx Hn.
  apply find_indices_cell; [lia | assumption | assumption |].
  rewrite (find_interval_node l (S i) x) by (assumption || lia).
  rewrite decide_True by lia. lia.
Qed.


Lemma find_indices_below (l : list R) (lo hi x : R) :
  ascending l -> l !! 0%nat = Some lo -> l !! 1%nat = Some hi -> x < lo ->
  find_indices l x = (0%Z, (x - lo) / (hi - lo)).
Proof.
  intros Hl Hlo Hhi Hx. pose proof (lookup_lt_Some _ _ _ Hhi) as Hn.
  apply (find_indices_cell l 0 lo hi x); [lia | assumption | assumption |].
  apply (find_interval_below l lo x); assumption || lia.
Qed.

(** [evaluate_linear] is a number exactly when the four corners are, and NaN
    as soon as one of them is a gap, whatever its weight. *)
Lemma evaluate_linear_spec (values : list (list float)) (i0 i1 : Z)
    (y0 y1 x : R) :
  evaluate_linear values i0 i1 y0 y1 = Some x <->
  exists v00 v01 v10 v11 : R,
    value_at values i0 i1 = Some v00 /\
    value_at values i0 (i1 + 1) = Some v01 /\
    value_at values (i0 + 1) i1 = Some v10 /\
    value_at values (i0 + 1) (i1 + 1) = Some v11 /\
    x = bilinear v00 v01 v10 v11 y0 y1.
Proof.
  unfold evaluate_linear, bilinear, nan_add, nan_mul.
  destruct (value_at values i0 i1) as [v00|],
           (value_at values i0 (i1 + 1)) as [v01|],
           (value_at values (i0 + 1) i1) as [v10|],
           (value_at values (i0 + 1) (i1 + 1)) as [v11|]; simpl;
    try (split; [discriminate | intros (? & ? & ? & ? & ? & ? & ? & ? & ?); discriminate]).
  split.
  - intros [= <-]. exists v00, v01, v10, v11. repeat (split; [reflexivity|]). reflexivity.
  - intros (? & ? & ? & ? & [= <-] & [= <-] & [= <-] & [= <-] & ->). reflexivity.
Qed.

(** *** Linear extrapolation *)


(** Before the first strike: the line through the values at the first two
    strikes. *)
Lemma interpolate_strike_below (ms ks : list R) (values : list (list float))
    (k0 k1 T K a b : R) :
  ascending ks -> ks !! 0%nat = Some k0 -> ks !! 1%nat = Some k1 -> K <= k0 ->
  interpolate ms ks values T k0 = Some a ->
  interpolate ms ks values T k1 = Some b ->
  interpolate ms ks values T K = Some (a + (K - k0) * ((b - a) / (k1 - k0))).
Proof.
  intros Hks Hk0 Hk1 HK. unfold interpolate.
  destruct (find_indices ms T) as [i0 y0].
  rewrite (find_indices_node ks 0 k0 k1 Hks Hk0 Hk1).
  assert (Hlt : k0 < k1) by (apply (ascending_lookup_lt ks 0 1); auto; lia).
  intros Ha Hb.
  apply evaluate_linear_spec in Ha as (v00 & v01 & v10 & v11 & H00 & H01 & H10 & H11 & ->).
  assert (Hb' : b = v01 * (1 - y0) + v11 * y0).
  { destruct (ks !! 2%nat) as [k2|] eqn:Hk2.
    - assert (k1 < k2) by (apply (ascending_lookup_lt ks 1 2); auto; lia).
      rewrite (find_indices_node ks 1 k1 k2 Hks Hk1 Hk2) in Hb.
      apply evaluate_linear_spec in Hb as (w00 & w01 & w10 & w11 & G00 & G01 & G10 & G11 & ->).
      change (Z.of_nat 1) with (0 + 1)%Z in G00, G10.
      change (Z.of_nat 0) with 0%Z in H01, H11.
      rewrite H01 in G00. rewrite H11 in G10.
      injection G00 as <-. injection G10 as <-. unfold bilinear. field. lra.
    - apply lookup_ge_None in Hk2. pose proof (lookup_lt_Some _ _ _ Hk1).
      rewrite (find_indices_last ks 0 k0 k1 Hks Hk0 Hk1) in Hb by lia.
      apply evaluate_linear_spec in Hb as (w00 & w01 & w10 & w11 & G00 & G01 & G10 & G11 & ->).
      rewrite H00 in G00. rewrite H01 in G01. rewrite H10 in G10. rewrite H11 in G11.
      injection G00 as <-. injection G01 as <-. injection G10 as <-. injection G11 as <-.
      unfold bilinear. field. lra. }
  subst b.
  destruct HK as [HK| ->].
  - rewrite (find_indices_below ks k0 k1 K Hks Hk0 Hk1 HK).
    apply evaluate_linear_spec. exists v00, v01, v10, v11.
    repeat (split; [assumption|]). unfold bilinear. field. lra.
  - rewrite (find_indices_node ks 0 k0 k1 Hks Hk0 Hk1).
    apply evaluate_linear_spec. exists v00, v01, v10, v11.
    repeat (split; [assumption|]). unfold bilinear. field. lra.
Qed.



(** *** Values at the nodes of the grid *)

(** The cell and the weight [find_indices] gives at the point [i] of an
    axis: weight [0] in its own cell, weight [1] in the last cell at the
    last point. *)
Lemma find_indices_at_node (l : list R) (i : nat) (x : R) :
  ascending l -> (2 <= length l)%nat -> l !! i = Some x ->
  exists (c : nat) (y : R),
    find_indices l x = (Z.of_nat c, y) /\ (S c < length l)%nat /\
    ((c = i /\ y = 0) \/ (S c = i /\ y = 1)).
Proof.
  intros Hl Hn Hx. pose proof (lookup_lt_Some _ _ _ Hx) as Hi.
  destruct (decide (S i = length l)) as [Hlast|Hlast].
  - destruct i as [|i]; [lia|].
    destruct (lookup_lt_is_Some_2 l i) as [lo Hlo]; [lia|].
    assert (lo < x) by (apply (ascending_lookup_lt l i (S i)); auto; lia).
    exists i, ((x - lo) / (x - lo)).
    split; [apply find_indices_last; auto|]. split; [lia|].
    right. split; [reflexivity|]. field. lra.
  - destruct (lookup_lt_is_Some_2 l (S i)) as [hi Hhi]; [lia|].
    assert (x < hi) by (apply (ascending_lookup_lt l i (S i)); auto; lia).
    exists i, ((x - x) / (hi - x)).
    split; [apply find_indices_node; auto|]. split; [lia|].
    left. split; [reflexivity|]. field. lra.
Qed.

(** On a grid without gaps the surface returns at a node the value of the
    grid there. *)
Lemma interpolate_node (ms ks : list R) (values : list (list float))
    (i j : nat) (t k : R) :
  ascending ms -> ascending ks ->
  (2 <= length ms)%nat -> (2 <= length ks)%nat ->
  gapless ms ks values ->
  ms !! i = Some t -> ks !! j = Some k ->
  interpolate ms ks values t k = cell values i j.
Proof.
  intros Hms Hks Hnm Hnk Hfull Ht Hk.
  destruct (find_indices_at_node ms i t Hms Hnm Ht) as (c0 & y0 & Hf0 & Hc0 & Hy0).
  destruct (find_indices_at_node ks j k Hks Hnk Hk) as (c1 & y1 & Hf1 & Hc1 & Hy1).
  unfold interpolate. rewrite Hf0, Hf1.
  destruct (Hfull c0 c1) as [v00 H00]; [lia | lia |].
  destruct (Hfull c0 (S c1)) as [v01 H01]; [lia | lia |].
  destruct (Hfull (S c0) c1) as [v10 H10]; [lia | lia |].
  destruct (Hfull (S c0) (S c1)) as [v11 H11]; [lia | lia |].
  assert (Heval : evaluate_linear values (Z.of_nat c0) (Z.of_nat c1) y0 y1 =
                  Some (bilinear v00 v01 v10 v11 y0 y1)).
  { apply evaluate_linear_spec. exists v00, v01, v10, v11.
    unfold cell in H00, H01, H10, H11.
    replace (Z.of_nat c0 + 1)%Z with (Z.of_nat (S c0)) by lia.
    replace (Z.of_nat c1 + 1)%Z with (Z.of_nat (S c1)) by lia.
    repeat (split; [assumption|]). reflexivity. }
  rewrite Heval. unfold bilinear.
  destruct Hy0 as [[-> ->]|[<- ->]], Hy1 as [[-> ->]|[<- ->]].
  - rewrite H00. f_equal. ring.
  - rewrite H01. f_equal. ring.
  - rewrite H10. f_equal. ring.
  - rewrite H11. f_equal. ring.
Qed.

(** The grid of [pivot_table]: the cell of a maturity and a strike is the
    mean of the rows that have them. *)
Lemma pivot_table_cell (rows : list row) (i j : nat) (m k : R) :
  sorted_unique (maturity <$> rows) !! i = Some m ->
  sorted_unique (strike <$> rows) !! j = Some k ->
  cell (pivot_table rows) i j =
    np_mean (iv <$> filter (fun rw => maturity rw = m /\ strike rw = k) rows).
Proof.
  intros Hm Hk. unfold cell, value_at, pivot_table.
  rewrite !np_index_nat. rewrite list_lookup_fmap, Hm. simpl.
  rewrite np_index_nat. rewrite list_lookup_fmap, Hk. reflexivity.
Qed.

Lemma np_mean_singleton (x : R) : np_mean [x] = Some x.
Proof. unfold np_mean, Rsum. simpl. f_equal. field. Qed.

Lemma np_mean_cons (x : R) (xs : list R) :
  np_mean (x :: xs) = Some (Rsum (x :: xs) / INR (length (x :: xs))).
Proof. reflexivity. Qed.



(** *** The surface of a table *)

Lemma two_values_length (xs : list R) :
  two_values xs -> (2 <= length (sorted_unique xs))%nat.
Proof.
  intros (x & y & Hx & Hy & Hxy).
  apply (proj2 (sorted_unique_elem xs x)) in Hx.
  apply (proj2 (sorted_unique_elem xs y)) in Hy.
  destruct (sorted_unique xs) as [|a [|b l]]; simpl; [|
    apply list_elem_of_singleton in Hx, Hy; congruence | lia].
  apply elem_of_nil in Hx. contradiction.
Qed.

Lemma filter_none {A : Type} (P : A -> Prop) `{!forall x, Decision (P x)}
    (l : list A) :
  (forall x : A, x ∈ l -> ~ P x) -> filter P l = [].
Proof.
  induction l as [|x l IH]; intros Hl; [reflexivity|].
  rewrite filter_cons_False by (apply Hl; left).
  apply IH. intros y Hy. apply Hl. right. exact Hy.
Qed.

(** With unique pairs, the rows of the cell of a row are that row alone. *)
Lemma filter_unique_pair (rows : list row) (rw : row) :
  unique_pairs rows -> rw ∈ rows ->
  filter (fun r => maturity r = maturity rw /\ strike r = strike rw) rows = [rw].
Proof.
  unfold unique_pairs. induction rows as [|r rows IH]; intros Hnd Hin.
  - apply elem_of_nil in Hin. contradiction.
  - rewrite fmap_cons in Hnd. apply NoDup_cons in Hnd as [Hnotin Hnd].
    assert (Hother : forall r' : row, r' ∈ rows ->
              ~ (maturity r' = maturity r /\ strike r' = strike r)).
    { intros r' Hr' [Hm Hk]. apply Hnotin.
      apply list_elem_of_fmap. exists r'. split; [|exact Hr'].
      rewrite Hm, Hk. reflexivity. }
    apply elem_of_cons in Hin as [->|Hin].
    + rewrite filter_cons_True by (split; reflexivity).
      rewrite (filter_none _ rows Hother). reflexivity.
    + rewrite filter_cons_False.
      * apply IH; assumption.
      * intros [Hm Hk]. apply (Hother rw Hin). split; congruence.
Qed.

Lemma axis_lookup_row (rows : list row) (f : row -> R) (i : nat) (x : R) :
  sorted_unique (f <$> rows) !! i = Some x ->
  exists rw : row, rw ∈ rows /\ f rw = x.
Proof.
  intros Hx. apply list_elem_of_lookup_2 in Hx.
  apply (proj1 (sorted_unique_elem _ _)) in Hx.
  apply list_elem_of_fmap in Hx as (rw & -> & Hrw). exists rw. split; [exact Hrw | reflexivity].
Qed.

Lemma row_axis_lookup (rows : list row) (f : row -> R) (rw : row) :
  rw ∈ rows -> exists i : nat, sorted_unique (f <$> rows) !! i = Some (f rw).
Proof.
  intros Hrw. apply list_elem_of_lookup_1, sorted_unique_elem.
  apply list_elem_of_fmap. exists rw. split; [reflexivity | exact Hrw].
Qed.

Lemma full_grid_gapless (rows : list row) :
  full_grid rows ->
  gapless (sorted_unique (maturity <$> rows)) (sorted_unique (strike <$> rows))
    (pivot_table rows).
Proof.
  intros Hfull i j Hi Hj.
  destruct (lookup_lt_is_Some_2 _ _ Hi) as [m Hm].
  destruct (lookup_lt_is_Some_2 _ _ Hj) as [k Hk].
  rewrite (pivot_table_cell rows i j m k Hm Hk).
  destruct (axis_lookup_row rows maturity i m Hm) as (r1 & Hr1 & <-).
  destruct (axis_lookup_row rows strike j k Hk) as (r2 & Hr2 & <-).
  destruct (Hfull r1 r2 Hr1 Hr2) as (rw & Hrw & Hmat & Hstr).
  assert (Hin : rw ∈ filter (fun r => maturity r = maturity r1 /\ strike r = strike r2) rows).
  { apply list_elem_of_filter. split; [split; assumption | exact Hrw]. }
  destruct (filter _ rows) as [|r l]; [apply elem_of_nil in Hin; contradiction|].
  rewrite fmap_cons, np_mean_cons. eexists. reflexivity.
Qed.

(** Node exactness, on a table with unique pairs and a full grid of at
    least two maturities and two strikes. *)
Lemma surface_iv_node (rows : list row) (rw : row) :
  unique_pairs rows -> full_grid rows ->
  two_values (maturity <$> rows) -> two_values (strike <$> rows) ->
  rw ∈ rows ->
  surface_iv rows (strike rw) (maturity rw) = Some (iv rw).
Proof.
  intros Huniq Hfull Hm2 Hk2 Hrw.
  destruct (row_axis_lookup rows maturity rw Hrw) as [i Hi].
  destruct (row_axis_lookup rows strike rw Hrw) as [j Hj].
  unfold surface_iv.
  rewrite (interpolate_node _ _ _ i j);
    try apply sorted_unique_ascending; try apply two_values_length;
    try assumption; [|apply full_grid_gapless; exact Hfull].
  rewrite (pivot_table_cell rows i j _ _ Hi Hj).
  rewrite (filter_unique_pair rows rw Huniq Hrw). apply np_mean_singleton.
Qed.

(** *** A parallel shift of the table *)








(** *** Queries on the objects of the store *)

Lemma VolSurface_iv_value (h : heap) (self self_df : loc) (rows : list row)
    (K T : R) :
  h !! self = Some (Surface (surface_of self_df rows)) ->
  returns (VolSurface_iv self K T) h = OK (surface_iv rows K T).
Proof.
  intros Hs. unfold returns. rewrite (VolSurface_iv_run h self _ K T Hs). reflexivity.
Qed.

Lemma VolSurface_init_result (h : heap) (d : loc) (rows : list row) :
  h !! d = Some (DataFrame rows) ->
  exists (self self_df : loc) (h1 : heap),
    VolSurface_init d h = OK (self, h1) /\
    h1 !! self = Some (Surface (surface_of self_df rows)) /\
    h1 !! self_df = Some (DataFrame rows).
Proof.
  intros Hd. rewrite (VolSurface_init_run h d rows Hd). cbn zeta.
  do 3 eexists. split; [reflexivity|]. split; [apply lookup_insert_eq|].
  apply insert_fresh_lookup; [apply lookup_insert_eq | apply fresh_lookup].
Qed.



(** *** Two concrete tables *)


(** Membership in a concrete list. *)
Ltac in_list := apply list_elem_of_In; simpl; tauto.

Ltac split_in H :=
  repeat (apply elem_of_cons in H as [->|H]); [..|apply elem_of_nil in H; contradiction].

Lemma ascending_pair (x y : R) : x < y -> ascending [x; y].
Proof.
  intros Hxy. repeat constructor. exact Hxy.
Qed.

Lemma example_maturities : sorted_unique (maturity <$> example_rows) = [1; 2].
Proof.
  apply sorted_unique_eq; [apply ascending_pair; lra|].
  intros x. simpl. rewrite !elem_of_cons, !elem_of_nil. tauto.
Qed.

Lemma example_strikes : sorted_unique (strike <$> example_rows) = [100; 110].
Proof.
  apply sorted_unique_eq; [apply ascending_pair; lra|].
  intros x. simpl. rewrite !elem_of_cons, !elem_of_nil. tauto.
Qed.

Lemma example_full_grid : full_grid example_rows.
Proof.
  intros r1 r2 H1 H2. unfold example_rows in H1, H2.
  split_in H1; split_in H2; simpl;
    first [ exists (Row 1 100 0.2); split; [in_list | split; reflexivity]
          | exists (Row 1 110 0.3); split; [in_list | split; reflexivity]
          | exists (Row 2 100 0.25); split; [in_list | split; reflexivity]
          | exists (Row 2 110 0.35); split; [in_list | split; reflexivity] ].
Qed.

Lemma example_unique_pairs : unique_pairs example_rows.
Proof.
  unfold unique_pairs, example_rows. simpl.
  repeat (apply NoDup_cons; split;
          [rewrite ?elem_of_cons, elem_of_nil; intros H;
           repeat (destruct H as [H|H]; [injection H; lra|]); exact H|]).
  apply NoDup_nil. exact I.
Qed.

Lemma example_two_maturities : two_values (maturity <$> example_rows).
Proof. exists 1, 2. split; [in_list|]. split; [in_list | lra]. Qed.

Lemma example_two_strikes : two_values (strike <$> example_rows).
Proof. exists 100, 110. split; [in_list|]. split; [in_list | lra]. Qed.





(** The table of two maturities and two strikes has unique pairs and a full
    grid: at its node [(110, 1)] the surface is worth [0.3]. *)
Lemma example_node : surface_iv example_rows 110 1 = Some 0.3.
Proof.
  apply (surface_iv_node example_rows (Row 1 110 0.3));
    [apply example_unique_pairs | apply example_full_grid
    | apply example_two_maturities | apply example_two_strikes | in_list].
Qed.






(** * Further properties of the code *)

(** ** The Greeks *)

Lemma py_pow_half (T : R) : 0 < T -> py_pow T 0.5 = sqrt T.
Proof.
  intros HT. unfold py_pow. replace 0.5 with (/ 2) by lra.
  apply Rpower_sqrt. exact HT.
Qed.

Lemma black_scholes_greeks_valid (S K T r sigma : R) (option_type : string) :
  0 < S -> 0 < K -> 0 < T -> 0 < sigma ->
  black_scholes_greeks S K T r sigma option_type =
    let d_1 := d1_value S K T r sigma in
    let d_2 := d_1 - sigma * sqrt T in
    let gamma := normal_pdf d_1 / (S * sigma * sqrt T) in
    let vega := S * normal_pdf d_1 * sqrt T in
    let decay := - (S * normal_pdf d_1 * sigma) / (2 * sqrt T) in
    let discount := exp (- r * T) in
    if decide (str_lower option_type = "call") then
      OK (greeks_dict (normal_cdf d_1) gamma vega
            (decay - r * K * discount * normal_cdf d_2)
            (K * T * discount * normal_cdf d_2))
    else if decide (str_lower option_type = "put") then
      OK (greeks_dict (normal_cdf d_1 - 1) gamma vega
            (decay + r * K * discount * normal_cdf (- d_2))
            (- K * T * discount * normal_cdf (- d_2)))
    else Raise InvalidOptionType.
Proof.
  intros HS HK HT Hsig. unfold black_scholes_greeks.
  rewrite (decide_False (P := S <= 0 \/ K <= 0)) by lra.
  rewrite (decide_False (P := T <= 0)) by lra.
  rewrite (decide_False (P := sigma <= 0)) by lra.
  rewrite d1_valid, d2_valid by assumption. cbn [bind].
  rewrite py_pow_half by exact HT.
  assert (Hq : 0 < sqrt T) by (apply sqrt_lt_R0; exact HT).
  assert (H1 : 0 < S * sigma * sqrt T)
    by (apply Rmult_lt_0_compat; [apply Rmult_lt_0_compat|]; assumption).
  rewrite (py_div_nonzero _ (S * sigma * sqrt T)) by lra. cbn [bind].
  rewrite (py_div_nonzero _ (2 * sqrt T)) by lra. cbn [bind].
  reflexivity.
Qed.



(** X2.  The Greeks of the call and of the put on the same valid inputs:
    the deltas differ by one, gamma and vega are the same,
    [theta_call - theta_put = - r K exp(-r T)] and
    [rho_call - rho_put = K T exp(-r T)], in exact arithmetic. *)
Theorem greeks_put_call_parity (S K T r sigma : R) :
  0 < S -> 0 < K -> 0 < T -> 0 < sigma ->
  exists dc gc vc tc rc dp gp vp tp rp : R,
    black_scholes_greeks S K T r sigma "call" = OK (greeks_dict dc gc vc tc rc) /\
    black_scholes_greeks S K T r sigma "put" = OK (greeks_dict dp gp vp tp rp) /\
    dc - dp = 1 /\ gc = gp /\ vc = vp /\
    tc - tp = - r * K * exp (- r * T) /\
    rc - rp = K * T * exp (- r * T).
Proof.
  intros HS HK HT Hsig.
  rewrite !black_scholes_greeks_valid by assumption. cbn zeta.
  change (str_lower "call") with "call"%string.
  change (str_lower "put") with "put"%string.
  rewrite (decide_True (P := "call"%string = "call"%string)) by reflexivity.
  rewrite (decide_False (P := "put"%string = "call"%string)) by discriminate.
  rewrite (decide_True (P := "put"%string = "put"%string)) by reflexivity.
  do 10 eexists.
  split; [reflexivity|]. split; [reflexivity|].
  pose proof (normal_cdf_reflect (d1_value S K T r sigma - sigma * sqrt T)) as H2.
  set (c := normal_cdf (d1_value S K T r sigma - sigma * sqrt T)) in *.
  set (d := normal_cdf (- (d1_value S K T r sigma - sigma * sqrt T))) in *.
  set (E := exp (- r * T)).
  split; [lra|]. split; [reflexivity|]. split; [reflexivity|].
  replace d with (1 - c) by lra. split; ring.
Qed.

Lemma greeks_put_call_parity_witness :
  exists dc gc vc tc rc dp gp vp tp rp : R,
    black_scholes_greeks 100 100 1 0.05 0.2 "call" = OK (greeks_dict dc gc vc tc rc) /\
    black_scholes_greeks 100 100 1 0.05 0.2 "put" = OK (greeks_dict dp gp vp tp rp) /\
    dc - dp = 1 /\ gc = gp /\ vc = vp /\
    tc - tp = - (0.05) * 100 * exp (- (0.05) * 1) /\
    rc - rp = 100 * 1 * exp (- (0.05) * 1).
Proof. apply (greeks_put_call_parity 100 100 1 0.05 0.2); lra. Defined.

Lemma greeks_dict_lookup (delta gamma vega theta rho : R) :
  dom (greeks_dict delta gamma vega theta rho) =
    ({["delta"; "gamma"; "vega"; "theta"; "rho"]} : gset string) /\
  greeks_dict delta gamma vega theta rho !! "delta" = Some delta /\
  greeks_dict delta gamma vega theta rho !! "gamma" = Some gamma /\
  greeks_dict delta gamma vega theta rho !! "vega" = Some vega /\
  greeks_dict delta gamma vega theta rho !! "theta" = Some theta /\
  greeks_dict delta gamma vega theta rho !! "rho" = Some rho.
Proof.
  unfold greeks_dict. split; [rewrite !dom_insert_L, dom_empty_L; set_solver|].
  repeat split; rewrite ?lookup_insert_ne by discriminate; apply lookup_insert_eq.
Qed.



(** X4.  The price and the Greeks agree: for either option type, on
    valid inputs, [price = S * delta - rho / T], in exact arithmetic. *)
Theorem price_from_delta_rho (S K T r sigma : R) (option_type : string) :
  0 < S -> 0 < K -> 0 < T -> 0 < sigma -> recognised option_type ->
  exists (price : R) (g : gmap string R) (delta rho : R),
    black_scholes_price S K T r sigma option_type = OK price /\
    black_scholes_greeks S K T r sigma option_type = OK g /\
    g !! "delta" = Some delta /\ g !! "rho" = Some rho /\
    price = S * delta - rho / T.
Proof.
  intros HS HK HT Hsig Hty.
  rewrite black_scholes_price_valid, black_scholes_greeks_valid by assumption.
  cbn zeta.
  pose proof (normal_cdf_reflect (d1_value S K T r sigma)) as H1.
  destruct (decide (str_lower option_type = "call")) as [Hc|Hc].
  - eexists _, _, _, _. split; [reflexivity|]. split; [reflexivity|].
    match goal with |- greeks_dict ?a ?b ?c ?d ?e !! _ = _ /\ _ =>
      destruct (greeks_dict_lookup a b c d e) as (_ & Hde & _ & _ & _ & Hrh) end.
    split; [exact Hde|]. split; [exact Hrh|]. field. lra.
  - destruct Hty as [Hty|Hty]; [contradiction|].
    rewrite !(decide_True (P := str_lower option_type = "put")) by exact Hty.
    eexists _, _, _, _. split; [reflexivity|]. split; [reflexivity|].
    match goal with |- greeks_dict ?a ?b ?c ?d ?e !! _ = _ /\ _ =>
      destruct (greeks_dict_lookup a b c d e) as (_ & Hde & _ & _ & _ & Hrh) end.
    split; [exact Hde|]. split; [exact Hrh|].
    replace (normal_cdf (- d1_value S K T r sigma))
      with (1 - normal_cdf (d1_value S K T r sigma)) by lra.
    field. lra.
Qed.

Lemma price_from_delta_rho_witness :
  exists (price : R) (g : gmap string R) (delta rho : R),
    black_scholes_price 100 110 1 0.05 0.25 "put" = OK price /\
    black_scholes_greeks 100 110 1 0.05 0.25 "put" = OK g /\
    g !! "delta" = Some delta /\ g !! "rho" = Some rho /\
    price = 100 * delta - rho / 1.
Proof.
  apply (price_from_delta_rho 100 110 1 0.05 0.25 "put"); try lra.
  right. reflexivity.
Defined.

Lemma d1_value_scale (c S K T r sigma : R) :
  0 < c -> 0 < K -> d1_value (c * S) (c * K) T r sigma = d1_value S K T r sigma.
Proof.
  intros Hc HK. unfold d1_value.
  replace (c * S / (c * K)) with (S / K) by (field; lra). reflexivity.
Qed.

(** X5.  The analytic price is homogeneous of degree one in the spot and
    the strike: multiplying both by [c > 0] multiplies the price by [c] (in
    exact arithmetic), and leaves every validation error as it is. *)
Theorem black_scholes_price_homogeneous (c S K T r sigma : R) (option_type : string) :
  0 < c ->
  black_scholes_price (c * S) (c * K) T r sigma option_type =
    let! price := black_scholes_price S K T r sigma option_type in OK (c * price).
Proof.
  intros Hc.
  destruct (decide (S <= 0 \/ K <= 0)) as [H1|H1].
  { unfold black_scholes_price.
    rewrite (decide_True (P := S <= 0 \/ K <= 0)) by exact H1.
    rewrite (decide_True (P := c * S <= 0 \/ c * K <= 0)) by (destruct H1; [left|right]; nra).
    reflexivity. }
  destruct (decide (T <= 0)) as [H2|H2].
  { unfold black_scholes_price.
    rewrite (decide_False (P := S <= 0 \/ K <= 0)) by exact H1.
    rewrite (decide_False (P := c * S <= 0 \/ c * K <= 0)) by nra.
    rewrite !(decide_True (P := T <= 0)) by exact H2. reflexivity. }
  destruct (decide (sigma <= 0)) as [H3|H3].
  { unfold black_scholes_price.
    rewrite (decide_False (P := S <= 0 \/ K <= 0)) by exact H1.
    rewrite (decide_False (P := c * S <= 0 \/ c * K <= 0)) by nra.
    rewrite !(decide_False (P := T <= 0)) by exact H2.
    rewrite !(decide_True (P := sigma <= 0)) by exact H3. reflexivity. }
  assert (HS : 0 < S) by lra. assert (HK : 0 < K) by lra.
  rewrite !black_scholes_price_valid by nra. cbn zeta.
  rewrite d1_value_scale by assumption.
  destruct (decide (str_lower option_type = "call")); [cbn [bind]; f_equal; ring|].
  destruct (decide (str_lower option_type = "put")); [cbn [bind]; f_equal; ring|].
  reflexivity.
Qed.

Lemma black_scholes_price_homogeneous_witness :
  black_scholes_price (2 * 100) (2 * 110) 1 0.05 0.25 "put" =
    let! price := black_scholes_price 100 110 1 0.05 0.25 "put" in OK (2 * price).
Proof. apply (black_scholes_price_homogeneous 2 100 110 1 0.05 0.25 "put"). lra. Defined.

(** ** The solver: validation, and what the bracket keeps *)

Lemma iv_objective_raises (target S K T r : R) (option_type : string)
    (sigma : R) (e : exn) :
  black_scholes_price S K T r sigma option_type = Raise e ->
  iv_objective target S K T r option_type sigma = Raise e.
Proof. intros H. unfold iv_objective. rewrite H. reflexivity. Qed.

(** X6.  The order in which [implied_volatility] rejects its inputs: a
    target price that is not positive comes first; then, through the
    evaluation of the objective at [lower], the spot and the strike, the
    maturity, [lower] itself as a volatility and the option type; [upper] as
    a volatility comes last. *)
Theorem implied_volatility_validation (target S K T r : R) (option_type : string)
    (tol : R) (max_iter : Z) (lower upper : R) :
  let call := implied_volatility target S K T r option_type tol max_iter lower upper in
  (target <= 0 -> call = Raise InvalidTargetPrice) /\
  (0 < target -> S <= 0 \/ K <= 0 -> call = Raise InvalidSpotStrike) /\
  (0 < target -> 0 < S -> 0 < K -> T <= 0 -> call = Raise InvalidMaturity) /\
  (0 < target -> 0 < S -> 0 < K -> 0 < T -> lower <= 0 ->
   call = Raise InvalidVolatility) /\
  (0 < target -> 0 < S -> 0 < K -> 0 < T -> 0 < lower ->
   ~ recognised option_type -> call = Raise InvalidOptionType) /\
  (0 < target -> 0 < S -> 0 < K -> 0 < T -> 0 < lower ->
   recognised option_type -> upper <= 0 -> call = Raise InvalidVolatility).
Proof.
  cbn zeta. unfold implied_volatility.
  split; [intros H; rewrite decide_True by exact H; reflexivity|].
  split; [|split; [|split; [|split]]].
  - intros Ht H. rewrite (decide_False (P := target <= 0)) by lra.
    rewrite (iv_objective_raises _ _ _ _ _ _ lower InvalidSpotStrike); [reflexivity|].
    unfold black_scholes_price. rewrite decide_True by exact H. reflexivity.
  - intros Ht HS HK HT. rewrite (decide_False (P := target <= 0)) by lra.
    rewrite (iv_objective_raises _ _ _ _ _ _ lower InvalidMaturity); [reflexivity|].
    unfold black_scholes_price. rewrite (decide_False (P := S <= 0 \/ K <= 0)) by lra.
    rewrite decide_True by exact HT. reflexivity.
  - intros Ht HS HK HT Hlo. rewrite (decide_False (P := target <= 0)) by lra.
    rewrite (iv_objective_raises _ _ _ _ _ _ lower InvalidVolatility); [reflexivity|].
    unfold black_scholes_price. rewrite (decide_False (P := S <= 0 \/ K <= 0)) by lra.
    rewrite (decide_False (P := T <= 0)) by lra.
    rewrite decide_True by exact Hlo. reflexivity.
  - intros Ht HS HK HT Hlo Hty. rewrite (decide_False (P := target <= 0)) by lra.
    rewrite (iv_objective_raises _ _ _ _ _ _ lower InvalidOptionType); [reflexivity|].
    rewrite black_scholes_price_valid by assumption. cbn zeta.
    rewrite str_lower_idemp. unfold recognised in Hty.
    rewrite (decide_False (P := str_lower option_type = "call")) by tauto.
    rewrite (decide_False (P := str_lower option_type = "put")) by tauto.
    reflexivity.
  - intros Ht HS HK HT Hlo Hty Hup. rewrite (decide_False (P := target <= 0)) by lra.
    rewrite iv_objective_value by assumption. cbn [bind].
    rewrite (iv_objective_raises _ _ _ _ _ _ upper InvalidVolatility); [reflexivity|].
    unfold black_scholes_price. rewrite (decide_False (P := S <= 0 \/ K <= 0)) by lra.
    rewrite (decide_False (P := T <= 0)) by lra.
    rewrite decide_True by exact Hup. reflexivity.
Qed.

Lemma bisection_needs_tolerance (f : R -> result R) (tol : R) (n : nat) :
  tol <= 0 ->
  forall a b f_lower f_upper : R,
    exists e : exn, bisection f tol n a b f_lower f_upper = Raise e.
Proof.
  intros Htol. induction n as [|n IH]; intros a b fl fu.
  - eexists. reflexivity.
  - simpl. destruct (f (0.5 * (a + b))) as [fm|e]; [|eexists; reflexivity].
    cbn [bind]. pose proof (Rabs_pos fm).
    rewrite (decide_False (P := Rabs fm < tol)) by lra.
    destruct (decide (fl * fm < 0)); apply IH.
Qed.

(** X7.  With a tolerance that is not positive, or a number of
    iterations that is not positive, the solver cannot return: every call
    raises, whatever the other arguments. *)
Theorem implied_volatility_needs_budget (target S K T r : R)
    (option_type : string) (tol : R) (max_iter : Z) (lower upper : R) :
  tol <= 0 \/ (max_iter <= 0)%Z ->
  exists e : exn,
    implied_volatility target S K T r option_type tol max_iter lower upper = Raise e.
Proof.
  intros H. unfold implied_volatility.
  destruct (decide (target <= 0)); [eexists; reflexivity|].
  destruct (iv_objective target S K T r (str_lower option_type) lower) as [fl|e];
    [|eexists; reflexivity].
  cbn [bind].
  destruct (iv_objective target S K T r (str_lower option_type) upper) as [fu|e];
    [|eexists; reflexivity].
  cbn [bind].
  destruct (decide (fl * fu > 0)); [eexists; reflexivity|].
  destruct H as [H|H].
  - apply bisection_needs_tolerance. exact H.
  - replace (Z.to_nat max_iter) with 0%nat by lia. eexists. reflexivity.
Qed.

Lemma implied_volatility_needs_budget_witness :
  exists e : exn,
    implied_volatility 10 100 100 1 0.05 "call" default_tol 0 default_lower default_upper
      = Raise e.
Proof.
  apply (implied_volatility_needs_budget 10 100 100 1 0.05 "call" default_tol 0
           default_lower default_upper).
  right. lia.
Defined.






Lemma tiny_spot_target_pos : 0 < bs_value 1e-6 1e-6 0.01 0 "call" 5.
Proof.
  rewrite bs_value_atm_short by lra.
  assert (0 < erf (0.05 * 5 / sqrt 2)) by (apply erf_over_sqrt2_pos; lra).
  nra.
Qed.


(** ** The lattice: every outcome *)

Lemma exp_neq_1 (x : R) : x <> 0 -> exp x <> 1.
Proof.
  intros Hx He. destruct (Rtotal_order x 0) as [H|[H|H]]; [|contradiction|].
  - pose proof (exp_increasing x 0 H) as Hi. rewrite exp_0 in Hi. lra.
  - pose proof (exp_increasing 0 x H) as Hi. rewrite exp_0 in Hi. lra.
Qed.

Lemma lattice_u_neq_d (T r sigma : R) (steps : Z) :
  (1 <= steps)%Z -> 0 < T -> sigma <> 0 ->
  let u := lat_u (lattice_of T r sigma steps) in
  0 < u /\ u <> 1 /\ u - 1 / u <> 0.
Proof.
  intros Hs HT Hsig. simpl.
  pose proof (lattice_dt_pos T steps Hs HT) as Hdt.
  assert (Hq : 0 < sqrt (T / IZR steps)) by (apply sqrt_lt_R0; exact Hdt).
  assert (Hx : sigma * sqrt (T / IZR steps) <> 0) by nra.
  pose proof (exp_pos (sigma * sqrt (T / IZR steps))) as Hu.
  pose proof (exp_neq_1 _ Hx) as Hu1.
  set (u := exp (sigma * sqrt (T / IZR steps))) in *.
  split; [exact Hu|]. split; [exact Hu1|].
  intros H. apply Hu1.
  assert (Huu : u * u = 1).
  { assert (u * (u - 1 / u) = 0) by (rewrite H; ring).
    assert (u * (1 / u) = 1) by (field; lra). lra. }
  nra.
Qed.

Lemma binomial_tree_price_unfold_any (S K T r sigma : R) (option_type : string)
    (steps : Z) (exercise : string) :
  (1 <= steps)%Z -> 0 < T -> sigma <> 0 ->
  binomial_tree_price S K T r sigma option_type steps exercise =
    let lat := lattice_of T r sigma steps in
    let prices := terminal_prices S (lat_u lat) (lat_d lat) steps in
    let! st := for_each (rev (seq 0 (Z.to_nat steps)))
                 (induction_level K (lat_u lat) (lat_p lat) (lat_disc lat)
                    (str_lower option_type) exercise)
                 (prices, terminal_values K (str_lower option_type) prices) in
    py_get (snd st) 0.
Proof.
  intros Hs HT Hsig. unfold binomial_tree_price.
  pose proof (lattice_dt_pos T steps Hs HT) as Hdt.
  pose proof (lattice_u_neq_d T r sigma steps Hs HT Hsig) as (Hu & Hu1 & Hud).
  simpl in Hu, Hu1, Hud.
  assert (Hz : IZR steps <> 0) by (apply not_0_IZR; lia).
  rewrite (py_div_nonzero T) by exact Hz. simpl bind.
  unfold math_sqrt. rewrite (decide_False (P := T / IZR steps < 0)) by lra.
  simpl bind. rewrite (py_div_nonzero 1) by lra. simpl bind.
  rewrite py_div_nonzero by exact Hud. reflexivity.
Qed.

(** The lattice pricer returns for every volatility that is not zero. *)
Lemma binomial_tree_price_returns_any (S K T r sigma : R) (option_type : string)
    (steps : Z) (exercise : string) :
  (1 <= steps)%Z -> 0 < T -> sigma <> 0 ->
  exists price : R,
    binomial_tree_price S K T r sigma option_type steps exercise = OK price.
Proof.
  intros Hs HT Hsig.
  rewrite binomial_tree_price_unfold_any by assumption. cbn zeta.
  pose proof (lattice_u_neq_d T r sigma steps Hs HT Hsig) as (Hu & _ & _).
  set (lat := lattice_of T r sigma steps) in *. cbn zeta in Hu.
  set (prices := terminal_prices S (lat_u lat) (lat_d lat) steps).
  destruct (backward_induction_ok K (lat_u lat) (lat_p lat) (lat_disc lat)
              (str_lower option_type) exercise (Z.to_nat steps)
              (prices, terminal_values K (str_lower option_type) prices))
    as (st & Hrun & Hok).
  - lra.
  - split; simpl; [|rewrite length_terminal_values];
      apply length_terminal_prices; lia.
  - rewrite Hrun. simpl bind. destruct Hok as [_ Hlv].
    destruct (py_get_lt (snd st) 0) as (v & _ & Hv); [lia|].
    exists v. exact Hv.
Qed.


(** ** Put-call parity on the lattice *)

(** A descending loop over the levels. *)
Lemma for_each_down_rel {St : Type} (Rel : nat -> St -> St -> Prop)
    (body1 body2 : nat -> St -> result St) (n : nat) :
  (forall i s1 s2, (i < n)%nat -> Rel (S i) s1 s2 ->
     exists s1' s2', body1 i s1 = OK s1' /\ body2 i s2 = OK s2' /\ Rel i s1' s2') ->
  forall s1 s2, Rel n s1 s2 ->
    exists s1' s2',
      for_each (rev (seq 0 n)) body1 s1 = OK s1' /\
      for_each (rev (seq 0 n)) body2 s2 = OK s2' /\ Rel 0%nat s1' s2'.
Proof.
  induction n as [|n IH]; intros Hbody s1 s2 Hrel.
  - exists s1, s2. simpl. tauto.
  - rewrite seq_S, rev_unit. simpl.
    destruct (Hbody n s1 s2 ltac:(lia) Hrel) as (t1 & t2 & H1 & H2 & Hrel').
    rewrite H1, H2. cbn [bind]. apply IH; [|exact Hrel'].
    intros i u1 u2 Hi. apply Hbody. lia.
Qed.

(** An ascending loop over the nodes. *)
Lemma for_each_up_rel {St : Type} (Rel : nat -> St -> St -> Prop)
    (body1 body2 : nat -> St -> result St) (m : nat) :
  (forall j s1 s2, (j < m)%nat -> Rel j s1 s2 ->
     exists s1' s2', body1 j s1 = OK s1' /\ body2 j s2 = OK s2' /\ Rel (S j) s1' s2') ->
  forall s1 s2, Rel 0%nat s1 s2 ->
    exists s1' s2',
      for_each (seq 0 m) body1 s1 = OK s1' /\
      for_each (seq 0 m) body2 s2 = OK s2' /\ Rel m s1' s2'.
Proof.
  intros Hbody.
  assert (H : forall len start s1 s2, (start + len = m)%nat -> Rel start s1 s2 ->
            exists s1' s2',
              for_each (seq start len) body1 s1 = OK s1' /\
              for_each (seq start len) body2 s2 = OK s2' /\ Rel m s1' s2').
  { induction len as [|len IH]; intros start s1 s2 Hm Hrel.
    - exists s1, s2. simpl. replace m with start by lia. tauto.
    - simpl.
      destruct (Hbody start s1 s2 ltac:(lia) Hrel) as (t1 & t2 & H1 & H2 & Hrel').
      rewrite H1, H2. cbn [bind]. apply IH; [lia | exact Hrel']. }
  intros s1 s2 Hrel. apply (H m 0%nat); [lia | exact Hrel].
Qed.

Lemma node_value_european (K u p disc : R) (option_type exercise : string)
    (price_j v_up v_down : R) :
  str_lower exercise <> "american" ->
  node_value K u p disc option_type exercise price_j v_up v_down =
    disc * (p * v_up + (1 - p) * v_down).
Proof.
  intros He. unfold node_value. rewrite decide_False by exact He. reflexivity.
Qed.

Lemma parity_step (S K u d p disc : R) (exercise : string) (n i j : nat)
    (c q : list R * list R) :
  u <> 0 -> disc * (p * u + (1 - p) * d) = 1 ->
  str_lower exercise <> "american" ->
  (i < n)%nat -> (j <= i)%nat ->
  parity_node S K u d disc n i j c q ->
  exists c' q',
    induction_step K u p disc "call" exercise j c = OK c' /\
    induction_step K u p disc "put" exercise j q = OK q' /\
    parity_node S K u d disc n i (Datatypes.S j) c' q'.
Proof.
  intros Hu HE Hex Hi Hj ([Hcp Hcv] & [Hqp Hqv] & Hdone & Htodo).
  destruct c as [pc vc], q as [pq vq]. cbn [fst snd] in *.
  destruct (py_get_lt pc j) as (pcj & Hpcj & _); [lia|].
  destruct (py_get_lt pq j) as (pqj & Hpqj & _); [lia|].
  destruct (py_get_lt vc (j + 1)) as (cu & Hcu & _); [lia|].
  destruct (py_get_lt vc j) as (cd & Hcd & _); [lia|].
  destruct (py_get_lt vq (j + 1)) as (qu & Hqu & _); [lia|].
  destruct (py_get_lt vq j) as (qd & Hqd & _); [lia|].
  do 2 eexists.
  split; [apply induction_step_value; eassumption|].
  split; [apply induction_step_value; eassumption|].
  rewrite !node_value_european by exact Hex.
  split; [split; simpl; rewrite length_insert; assumption|].
  split; [split; simpl; rewrite length_insert; assumption|].
  simpl. split.
  - intros t x y Ht Hx Hy.
    destruct (decide (t = j)) as [->|Hne].
    + rewrite list_lookup_insert_eq in Hx by lia.
      rewrite list_lookup_insert_eq in Hy by lia.
      injection Hx as <-. injection Hy as <-.
      pose proof (Htodo (j + 1)%nat cu qu ltac:(lia) Hcu Hqu) as Hup.
      pose proof (Htodo j cd qd ltac:(lia) Hcd Hqd) as Hdown.
      unfold forward_value in *.
      replace (Datatypes.S i - (j + 1))%nat with (i - j)%nat in Hup by lia.
      replace (Datatypes.S i - j)%nat with (Datatypes.S (i - j)) in Hdown by lia.
      replace (n - i)%nat with (Datatypes.S (n - Datatypes.S i)) by lia.
      replace (j + 1)%nat with (Datatypes.S j) in Hup by lia.
      simpl pow in *.
      set (a := u ^ j) in *. set (b := d ^ (i - j)) in *.
      set (e := disc ^ (n - Datatypes.S i)) in *.
      replace (disc * (p * cu + (1 - p) * cd) - disc * (p * qu + (1 - p) * qd))
        with (disc * (p * (cu - qu) + (1 - p) * (cd - qd))) by ring.
      rewrite Hup, Hdown.
      replace (disc * (p * (S * (u * a) * b - K * e) + (1 - p) * (S * a * (d * b) - K * e)))
        with (S * a * b * (disc * (p * u + (1 - p) * d)) - K * (disc * e)) by ring.
      rewrite HE. ring.
    + rewrite list_lookup_insert_ne in Hx by congruence.
      rewrite list_lookup_insert_ne in Hy by congruence.
      apply (Hdone t x y); [lia | assumption | assumption].
  - intros t x y Ht Hx Hy.
    rewrite list_lookup_insert_ne in Hx by lia.
    rewrite list_lookup_insert_ne in Hy by lia.
    apply (Htodo t x y); [lia | assumption | assumption].
Qed.

Lemma parity_backward (S K u d p disc : R) (exercise : string) (n : nat)
    (c q : list R * list R) :
  u <> 0 -> disc * (p * u + (1 - p) * d) = 1 ->
  str_lower exercise <> "american" ->
  parity_level S K u d disc n n c q ->
  exists c' q',
    for_each (rev (seq 0 n)) (induction_level K u p disc "call" exercise) c = OK c' /\
    for_each (rev (seq 0 n)) (induction_level K u p disc "put" exercise) q = OK q' /\
    parity_level S K u d disc n 0 c' q'.
Proof.
  intros Hu HE Hex Hst.
  apply (for_each_down_rel (parity_level S K u d disc n)); [|exact Hst].
  intros i s1 s2 Hi (Hok1 & Hok2 & Hlev). unfold induction_level.
  replace (i + 1)%nat with (Datatypes.S i) by lia.
  destruct (for_each_up_rel (parity_node S K u d disc n i)
              (induction_step K u p disc "call" exercise)
              (induction_step K u p disc "put" exercise) (Datatypes.S i))
    with (s1 := s1) (s2 := s2) as (t1 & t2 & H1 & H2 & Ht).
  - intros j u1 u2 Hj Hnode. apply (parity_step S K u d p disc exercise n i j);
      try assumption. lia.
  - split; [exact Hok1|]. split; [exact Hok2|]. split.
    + intros t x y Ht. lia.
    + intros t x y Ht. apply Hlev. lia.
  - exists t1, t2. split; [exact H1|]. split; [exact H2|].
    destruct Ht as (Ha & Hb & Hdone & _).
    split; [exact Ha|]. split; [exact Hb|].
    intros t x y Ht. apply Hdone. lia.
Qed.

Lemma exp_pow_nat (x : R) (n : nat) : exp x ^ n = exp (INR n * x).
Proof.
  induction n as [|n IH].
  - simpl. rewrite Rmult_0_l, exp_0. reflexivity.
  - rewrite S_INR. simpl pow. rewrite IH, <- exp_plus. f_equal. ring.
Qed.

Lemma lattice_martingale (T r sigma : R) (steps : Z) :
  (1 <= steps)%Z -> 0 < T -> sigma <> 0 ->
  let lat := lattice_of T r sigma steps in
  lat_disc lat * (lat_p lat * lat_u lat + (1 - lat_p lat) * lat_d lat) = 1.
Proof.
  intros Hs HT Hsig.
  pose proof (lattice_u_neq_d T r sigma steps Hs HT Hsig) as (Hu & Hu1 & Hud).
  simpl in *.
  set (dt := T / IZR steps) in *. set (u := exp (sigma * sqrt dt)) in *.
  replace (exp (- r * dt)) with (/ exp (r * dt))
    by (rewrite <- exp_Ropp; f_equal; ring).
  pose proof (exp_pos (r * dt)) as He. set (e := exp (r * dt)) in *.
  field. split; [lra|]. split; [|lra].
  intros H. apply Hud. field_simplify; [|lra]. 
  replace (u ^ 2 - 1) with 0 by (simpl; lra). unfold Rdiv. ring.
Qed.

Lemma terminal_prices_lookup (S u d : R) (steps : Z) (t : nat) (x : R) :
  (0 <= steps)%Z ->
  terminal_prices S u d steps !! t = Some x ->
  x = S * u ^ t * d ^ (Z.to_nat steps - t).
Proof.
  intros Hs Hx. unfold terminal_prices in Hx.
  rewrite list_lookup_fmap in Hx.
  destruct (seq 0 (Z.to_nat (steps + 1)) !! t) as [j|] eqn:Hj; [|discriminate].
  apply lookup_seq in Hj as [-> Hlt]. simpl in Hx. injection Hx as <-.
  replace (Z.to_nat (steps - Z.of_nat t)) with (Z.to_nat steps - t)%nat by lia.
  reflexivity.
Qed.

(** X10.  Put-call parity on the lattice: under European exercise (every
    style that is not American), for every spot, strike and rate, and every
    volatility that is not zero, [call - put = S - K exp(-r T)]. *)
Theorem binomial_put_call_parity (S K T r sigma : R) (steps : Z)
    (exercise : string) :
  (1 <= steps)%Z -> 0 < T -> sigma <> 0 -> str_lower exercise <> "american" ->
  exists call put : R,
    binomial_tree_price S K T r sigma "call" steps exercise = OK call /\
    binomial_tree_price S K T r sigma "put" steps exercise = OK put /\
    call - put = S - K * exp (- r * T).
Proof.
  intros Hs HT Hsig Hex.
  rewrite !binomial_tree_price_unfold_any by assumption. cbn zeta.
  change (str_lower "call") with "call"%string.
  change (str_lower "put") with "put"%string.
  pose proof (lattice_u_neq_d T r sigma steps Hs HT Hsig) as (Hu & _ & _).
  pose proof (lattice_martingale T r sigma steps Hs HT Hsig) as HE.
  cbn zeta in Hu, HE.
  assert (Hdisc : lat_disc (lattice_of T r sigma steps) ^ Z.to_nat steps
                  = exp (- r * T)).
  { simpl. rewrite exp_pow_nat. f_equal.
    rewrite INR_IZR_INZ, Z2Nat.id by lia.
    field. apply not_0_IZR. lia. }
  set (lat := lattice_of T r sigma steps) in *.
  set (n := Z.to_nat steps) in *.
  set (prices := terminal_prices S (lat_u lat) (lat_d lat) steps).
  destruct (parity_backward S K (lat_u lat) (lat_d lat) (lat_p lat) (lat_disc lat)
              exercise n
              (prices, terminal_values K "call" prices)
              (prices, terminal_values K "put" prices))
    as (c' & q' & Hc & Hq & [_ Hcv] & [_ Hqv] & Hroot);
    [lra | exact HE | exact Hex | |].
  - assert (Hlen : length prices = Datatypes.S n)
      by (apply length_terminal_prices; lia).
    split; [split; simpl; [|rewrite length_terminal_values]; exact Hlen|].
    split; [split; simpl; [|rewrite length_terminal_values]; exact Hlen|].
    cbn [fst snd]. intros t x y Ht Hx Hy. unfold terminal_values in Hx, Hy.
    rewrite decide_True in Hx by reflexivity.
    rewrite decide_False in Hy by discriminate.
    rewrite list_lookup_fmap in Hx, Hy.
    destruct (prices !! t) as [a|] eqn:Ha; [|discriminate].
    simpl in Hx, Hy. injection Hx as <-. injection Hy as <-.
    apply terminal_prices_lookup in Ha; [|lia]. fold n in Ha.
    unfold forward_value. rewrite Nat.sub_diag, pow_O, <- Ha.
    unfold Rmax. destruct (Rle_dec (a - K) 0), (Rle_dec (K - a) 0); lra.
  - rewrite Hc, Hq. cbn [bind].
    destruct (py_get_lt (snd c') 0) as (x & Hx & Hgx); [lia|].
    destruct (py_get_lt (snd q') 0) as (y & Hy & Hgy); [lia|].
    exists x, y. split; [exact Hgx|]. split; [exact Hgy|].
    rewrite (Hroot 0%nat x y ltac:(lia) Hx Hy).
    unfold forward_value. rewrite !Nat.sub_0_r, !pow_O.
    rewrite Hdisc. ring.
Qed.

Lemma binomial_put_call_parity_witness :
  exists call put : R,
    binomial_tree_price 100 100 1 0.05 0.2 "call" 200 "european" = OK call /\
    binomial_tree_price 100 100 1 0.05 0.2 "put" 200 "european" = OK put /\
    call - put = 100 - 100 * exp (- (0.05) * 1).
Proof.
  apply (binomial_put_call_parity 100 100 1 0.05 0.2 200 "european");
    [lia | lra | lra | discriminate].
Defined.

(** ** Option types and exercise styles that are not recognised *)

Lemma for_each_ext {A St : Type} (body1 body2 : A -> St -> result St) (xs : list A) :
  (forall x st, body1 x st = body2 x st) ->
  forall st, for_each xs body1 st = for_each xs body2 st.
Proof.
  intros Hext. induction xs as [|x xs IH]; intros st; [reflexivity|].
  simpl. rewrite Hext. destruct (body2 x st); [apply IH | reflexivity].
Qed.

Lemma induction_step_not_call (K u p disc : R) (option_type exercise : string)
    (j : nat) (st : list R * list R) :
  option_type <> "call" ->
  induction_step K u p disc option_type exercise j st =
    induction_step K u p disc "put" exercise j st.
Proof.
  intros Hty. unfold induction_step.
  destruct (decide (option_type = "call")); [contradiction|].
  destruct (decide ("put"%string = "call"%string)); [discriminate|].
  reflexivity.
Qed.

Lemma induction_step_not_american (K u p disc : R) (option_type exercise : string)
    (j : nat) (st : list R * list R) :
  str_lower exercise <> "american" ->
  induction_step K u p disc option_type exercise j st =
    induction_step K u p disc option_type "european" j st.
Proof.
  intros Hex. unfold induction_step.
  destruct (decide (str_lower exercise = "american")); [contradiction|].
  destruct (decide (str_lower "european" = "american")); [discriminate|].
  reflexivity.
Qed.

Lemma backward_induction_ext (K u p disc : R) (ot1 ex1 ot2 ex2 : string) (n : nat)
    (st : list R * list R) :
  (forall j s, induction_step K u p disc ot1 ex1 j s =
               induction_step K u p disc ot2 ex2 j s) ->
  for_each (rev (seq 0 n)) (induction_level K u p disc ot1 ex1) st =
  for_each (rev (seq 0 n)) (induction_level K u p disc ot2 ex2) st.
Proof.
  intros Hext. apply for_each_ext. intros i s. unfold induction_level.
  apply for_each_ext. exact Hext.
Qed.

(** X11.  The lattice and the Monte Carlo pricers reject no option type
    and no style: an option type that is not "call" (in any case) is priced
    as a put, and a style that is not "american" as European; the analytic
    pricer raises on the same option type. *)
Theorem unrecognised_type_and_style (option_type exercise : string) :
  str_lower option_type <> "call" -> str_lower exercise <> "american" ->
  (forall (S K T r sigma : R) (steps : Z) (style : string),
     binomial_tree_price S K T r sigma option_type steps style =
     binomial_tree_price S K T r sigma "put" steps style) /\
  (forall (S K T r sigma : R) (steps : Z) (type : string),
     binomial_tree_price S K T r sigma type steps exercise =
     binomial_tree_price S K T r sigma type steps "european") /\
  (forall (S0 K T r sigma : R) (n_paths : Z) (antithetic : bool) (g : rng_state),
     monte_carlo_european S0 K T r sigma option_type n_paths antithetic g =
     monte_carlo_european S0 K T r sigma "put" n_paths antithetic g) /\
  (str_lower option_type <> "put" ->
   forall S K T r sigma : R, 0 < S -> 0 < K -> 0 < T -> 0 < sigma ->
     black_scholes_price S K T r sigma option_type = Raise InvalidOptionType).
Proof.
  intros Hty Hex. split; [|split; [|split]].
  - intros. unfold binomial_tree_price.
    destruct (py_div T (IZR steps)) as [dt|]; [cbn [bind]|reflexivity].
    destruct (math_sqrt dt) as [sq|]; [cbn [bind]|reflexivity].
    destruct (py_div 1 (exp (sigma * sq))) as [d|]; [cbn [bind]|reflexivity].
    destruct (py_div (exp (r * dt) - d) (exp (sigma * sq) - d)) as [p|];
      [cbn [bind]|reflexivity].
    change (str_lower "put") with "put"%string.
    unfold terminal_values.
    rewrite (decide_False (P := str_lower option_type = "call")) by exact Hty.
    rewrite (decide_False (P := "put"%string = "call"%string)) by discriminate.
    rewrite (backward_induction_ext _ _ _ _ (str_lower option_type) style "put" style);
      [reflexivity|].
    intros j s. apply induction_step_not_call. exact Hty.
  - intros. unfold binomial_tree_price.
    destruct (py_div T (IZR steps)) as [dt|]; [cbn [bind]|reflexivity].
    destruct (math_sqrt dt) as [sq|]; [cbn [bind]|reflexivity].
    destruct (py_div 1 (exp (sigma * sq))) as [d|]; [cbn [bind]|reflexivity].
    destruct (py_div (exp (r * dt) - d) (exp (sigma * sq) - d)) as [p|];
      [cbn [bind]|reflexivity].
    rewrite (backward_induction_ext _ _ _ _ (str_lower type) exercise
               (str_lower type) "european"); [reflexivity|].
    intros j s. apply induction_step_not_american. exact Hex.
  - intros. unfold monte_carlo_european.
    destruct (decide (str_lower option_type = "call")); [contradiction|].
    destruct (decide (str_lower "put" = "call")); [discriminate|].
    reflexivity.
  - intros Hput S K T r sigma HS HK HT Hsig.
    rewrite black_scholes_price_valid by assumption. cbn zeta.
    rewrite (decide_False (P := str_lower option_type = "call")) by exact Hty.
    rewrite (decide_False (P := str_lower option_type = "put")) by exact Hput.
    reflexivity.
Qed.

Lemma unrecognised_type_and_style_witness :
  (forall (S K T r sigma : R) (steps : Z) (style : string),
     binomial_tree_price S K T r sigma "Straddle" steps style =
     binomial_tree_price S K T r sigma "put" steps style) /\
  (forall (S K T r sigma : R) (steps : Z) (type : string),
     binomial_tree_price S K T r sigma type steps "bermudan" =
     binomial_tree_price S K T r sigma type steps "european") /\
  (forall (S0 K T r sigma : R) (n_paths : Z) (antithetic : bool) (g : rng_state),
     monte_carlo_european S0 K T r sigma "Straddle" n_paths antithetic g =
     monte_carlo_european S0 K T r sigma "put" n_paths antithetic g) /\
  (str_lower "Straddle" <> "put" ->
   forall S K T r sigma : R, 0 < S -> 0 < K -> 0 < T -> 0 < sigma ->
     black_scholes_price S K T r sigma "Straddle" = Raise InvalidOptionType).
Proof.
  apply (unrecognised_type_and_style "Straddle" "bermudan"); discriminate.
Defined.

(** ** The lattice price is not negative *)

Lemma node_value_nonneg (K u p disc : R) (option_type exercise : string)
    (price_j v_up v_down : R) :
  str_lower exercise = "american" \/ (0 <= p <= 1 /\ 0 <= disc) ->
  0 <= v_up -> 0 <= v_down ->
  0 <= node_value K u p disc option_type exercise price_j v_up v_down.
Proof.
  intros H Hup Hdown. unfold node_value.
  destruct (decide (str_lower exercise = "american")) as [Ha|Ha].
  - eapply Rle_trans; [|apply Rmax_r].
    destruct (decide (option_type = "call")); apply Rmax_r.
  - destruct H as [H|[Hp Hd]]; [contradiction|].
    apply Rmult_le_pos; [exact Hd|].
    apply Rplus_le_le_0_compat; apply Rmult_le_pos; lra.
Qed.

Lemma backward_induction_nonneg (K u p disc : R) (option_type exercise : string)
    (n : nat) (st : list R * list R) :
  u <> 0 ->
  str_lower exercise = "american" \/ (0 <= p <= 1 /\ 0 <= disc) ->
  arrays_ok n st -> Forall (Rle 0) (snd st) ->
  exists st',
    for_each (rev (seq 0 n)) (induction_level K u p disc option_type exercise) st
      = OK st' /\ arrays_ok n st' /\ Forall (Rle 0) (snd st').
Proof.
  intros Hu Hp Hok Hpos.
  set (Inv := fun s : list R * list R => arrays_ok n s /\ Forall (Rle 0) (snd s)).
  destruct (for_each_inv Inv (fun i : nat => (i < n)%nat)
              (induction_level K u p disc option_type exercise) (rev (seq 0 n)))
    with (st := st) as (st' & Hrun & Hinv);
    [|apply rev_seq_below|split; assumption|exists st'; split; [exact Hrun|exact Hinv]].
  intros i s1 Hi Hs1. unfold induction_level.
  apply (for_each_inv Inv (fun j : nat => (j < n)%nat));
    [|apply seq_below; exact Hi|exact Hs1].
  intros j [prices values] Hj [[Hlp Hlv] Hnn]. cbn [fst snd] in *.
  destruct (py_get_lt prices j) as (pj & Hpj & _); [lia|].
  destruct (py_get_lt values (j + 1)) as (vu & Hvu & _); [lia|].
  destruct (py_get_lt values j) as (vd & Hvd & _); [lia|].
  eexists. split; [apply induction_step_value; eassumption|].
  split; [split; cbn [fst snd]; rewrite length_insert; assumption|].
  cbn [snd]. apply Forall_insert; [exact Hnn|].
  apply node_value_nonneg; [exact Hp| |].
  - exact (proj1 (Forall_lookup _ _) Hnn _ _ Hvu).
  - exact (proj1 (Forall_lookup _ _) Hnn _ _ Hvd).
Qed.

(** X12.  The lattice price is not negative: under American exercise
    always, and under European exercise when the risk-neutral weight is a
    probability, [|r| sqrt(T / steps) <= sigma]. *)
Theorem binomial_tree_price_nonneg (S K T r sigma : R) (option_type : string)
    (steps : Z) (exercise : string) :
  (1 <= steps)%Z -> 0 < T -> 0 < sigma ->
  str_lower exercise = "american" \/ Rabs r * sqrt (T / IZR steps) <= sigma ->
  exists price : R,
    binomial_tree_price S K T r sigma option_type steps exercise = OK price /\
    0 <= price.
Proof.
  intros Hs HT Hsig Hcase.
  rewrite binomial_tree_price_unfold by assumption. cbn zeta.
  pose proof (lattice_u_gt_1 T r sigma steps Hs HT Hsig) as Hu.
  assert (Hp : str_lower exercise = "american" \/
               (0 <= lat_p (lattice_of T r sigma steps) <= 1 /\
                0 <= lat_disc (lattice_of T r sigma steps))).
  { destruct Hcase as [Ha|Hr]; [left; exact Ha|right].
    split; [apply lattice_p_bounds; assumption | apply Rlt_le, exp_pos]. }
  set (lat := lattice_of T r sigma steps) in *.
  set (prices := terminal_prices S (lat_u lat) (lat_d lat) steps).
  destruct (backward_induction_nonneg K (lat_u lat) (lat_p lat) (lat_disc lat)
              (str_lower option_type) exercise (Z.to_nat steps)
              (prices, terminal_values K (str_lower option_type) prices))
    as (st & Hrun & [_ Hlv] & Hnn); [lra | exact Hp | |  |].
  - split; cbn [fst snd]; [|rewrite length_terminal_values];
      apply length_terminal_prices; lia.
  - cbn [snd]. unfold terminal_values.
    destruct (decide (str_lower option_type = "call"));
      apply Forall_fmap, Forall_forall; intros x _; apply Rmax_r.
  - rewrite Hrun. cbn [bind].
    destruct (py_get_lt (snd st) 0) as (v & Hv & Hgv); [lia|].
    exists v. split; [exact Hgv|].
    exact (proj1 (Forall_lookup _ _) Hnn _ _ Hv).
Qed.

Lemma binomial_tree_price_nonneg_witness :
  exists price : R,
    binomial_tree_price 100 100 2 (- 0.02) 0.01 "call" 2 "american" = OK price /\
    0 <= price.
Proof.
  apply (binomial_tree_price_nonneg 100 100 2 (- 0.02) 0.01 "call" 2 "american");
    [lia | lra | lra | left; reflexivity].
Defined.

(** ** The American put and its exercise value *)

Lemma for_each_down_inv {St : Type} (Inv : nat -> St -> Prop)
    (body : nat -> St -> result St) (n : nat) :
  (forall i s, (i < n)%nat -> Inv (S i) s ->
     exists s', body i s = OK s' /\ Inv i s') ->
  forall s, Inv n s ->
    exists s', for_each (rev (seq 0 n)) body s = OK s' /\ Inv 0%nat s'.
Proof.
  induction n as [|n IH]; intros Hbody s Hs.
  - exists s. simpl. tauto.
  - rewrite seq_S, rev_unit. simpl.
    destruct (Hbody n s ltac:(lia) Hs) as (t & Ht & Hinv).
    rewrite Ht. cbn [bind]. apply IH; [|exact Hinv].
    intros i u1 Hi. apply Hbody. lia.
Qed.

Lemma for_each_up_inv {St : Type} (Inv : nat -> St -> Prop)
    (body : nat -> St -> result St) (m : nat) :
  (forall j s, (j < m)%nat -> Inv j s ->
     exists s', body j s = OK s' /\ Inv (S j) s') ->
  forall s, Inv 0%nat s ->
    exists s', for_each (seq 0 m) body s = OK s' /\ Inv m s'.
Proof.
  intros Hbody.
  assert (H : forall len start s, (start + len = m)%nat -> Inv start s ->
            exists s', for_each (seq start len) body s = OK s' /\ Inv m s').
  { induction len as [|len IH]; intros start s Hm Hs.
    - exists s. simpl. replace m with start by lia. tauto.
    - simpl. destruct (Hbody start s ltac:(lia) Hs) as (t & Ht & Hinv).
      rewrite Ht. cbn [bind]. apply IH; [lia | exact Hinv]. }
  intros s Hs. apply (H m 0%nat); [lia | exact Hs].
Qed.

Lemma put_floor_step (K u p disc spot0 : R) (option_type exercise : string)
    (n i j : nat) (st : list R * list R) :
  u <> 0 -> option_type <> "call" -> str_lower exercise = "american" ->
  (i < n)%nat -> (j <= i)%nat ->
  put_floor_node K u spot0 n i j st ->
  exists st',
    induction_step K u p disc option_type exercise j st = OK st' /\
    put_floor_node K u spot0 n i (Datatypes.S j) st'.
Proof.
  intros Hu Hty Hex Hi Hj ([Hlp Hlv] & x & y & Hx & Hy & H0 & H1).
  destruct st as [prices values]. cbn [fst snd] in *.
  destruct (py_get_lt prices j) as (pj & Hpj & _); [lia|].
  destruct (py_get_lt values (j + 1)) as (vu & Hvu & _); [lia|].
  destruct (py_get_lt values j) as (vd & Hvd & _); [lia|].
  eexists. split; [apply induction_step_value; eassumption|].
  split; [split; cbn [fst snd]; rewrite length_insert; assumption|].
  cbn [fst snd]. destruct j as [|j].
  - rewrite Hx in Hpj. injection Hpj as <-.
    exists (x / u), (node_value K u p disc option_type exercise x vu vd).
    split; [apply list_lookup_insert_eq; lia|].
    split; [apply list_lookup_insert_eq; lia|].
    split; [intros H; discriminate H|]. intros _. split.
    + rewrite (H0 eq_refl).
      replace (n - i)%nat with (Datatypes.S (n - Datatypes.S i)) by lia.
      simpl pow. field. split; [apply pow_nonzero|]; exact Hu.
    + unfold node_value. rewrite decide_True by exact Hex.
      rewrite decide_False by exact Hty.
      eapply Rle_trans; [|apply Rmax_r]. apply Rmax_l.
  - exists x, y.
    split; [rewrite list_lookup_insert_ne by lia; exact Hx|].
    split; [rewrite list_lookup_insert_ne by lia; exact Hy|].
    split; [intros H; discriminate H|]. intros _. apply H1. discriminate.
Qed.

Lemma put_floor_backward (K u p disc spot0 : R) (option_type exercise : string)
    (n : nat) (st : list R * list R) :
  u <> 0 -> option_type <> "call" -> str_lower exercise = "american" ->
  put_floor K u spot0 n n st ->
  exists st',
    for_each (rev (seq 0 n)) (induction_level K u p disc option_type exercise) st
      = OK st' /\ put_floor K u spot0 n 0 st'.
Proof.
  intros Hu Hty Hex Hst.
  apply (for_each_down_inv (put_floor K u spot0 n)); [|exact Hst].
  intros i s Hi (Hok & x & y & Hx & Hy & Hxe & _). unfold induction_level.
  replace (i + 1)%nat with (Datatypes.S i) by lia.
  destruct (for_each_up_inv (put_floor_node K u spot0 n i)
              (induction_step K u p disc option_type exercise) (Datatypes.S i))
    with (s := s) as (t & Hrun & Ht).
  - intros j s1 Hj Hnode.
    apply (put_floor_step K u p disc spot0 option_type exercise n i j);
      try assumption. lia.
  - split; [exact Hok|]. exists x, y.
    split; [exact Hx|]. split; [exact Hy|].
    split; [intros _; exact Hxe | intros H; contradiction].
  - exists t. split; [exact Hrun|].
    destruct Ht as (Hok' & x' & y' & Hx' & Hy' & _ & H1).
    split; [exact Hok'|]. exists x', y'.
    split; [exact Hx'|]. split; [exact Hy'|]. apply H1. discriminate.
Qed.

(** X13.  The American put is worth at least its exercise value
    [K - S].  The floor the code applies at the root is [K - S / u^(2 steps)]:
    the spot it keeps for a node is divided by [u] at every level. *)
Theorem american_put_floor (S K T r sigma : R) (option_type : string)
    (steps : Z) (exercise : string) :
  (1 <= steps)%Z -> 0 < T -> 0 < sigma -> 0 <= S ->
  str_lower option_type <> "call" -> str_lower exercise = "american" ->
  exists price : R,
    binomial_tree_price S K T r sigma option_type steps exercise = OK price /\
    K - S / lat_u (lattice_of T r sigma steps) ^ (2 * Z.to_nat steps) <= price /\
    K - S <= price.
Proof.
  intros Hs HT Hsig HS Hty Hex.
  rewrite binomial_tree_price_unfold by assumption. cbn zeta.
  pose proof (lattice_u_gt_1 T r sigma steps Hs HT Hsig) as Hu.
  set (lat := lattice_of T r sigma steps) in *.
  set (n := Z.to_nat steps).
  set (prices := terminal_prices S (lat_u lat) (lat_d lat) steps).
  assert (Hlen : length prices = Datatypes.S n)
    by (apply length_terminal_prices; lia).
  destruct (lookup_lt_is_Some_2 prices 0) as [x0 Hx0]; [lia|].
  pose proof (terminal_prices_lookup S (lat_u lat) (lat_d lat) steps 0 x0
                ltac:(lia) Hx0) as Hx0v.
  fold n in Hx0v. rewrite Nat.sub_0_r, pow_O, Rmult_1_r in Hx0v.
  destruct (put_floor_backward K (lat_u lat) (lat_p lat) (lat_disc lat) x0
              (str_lower option_type) exercise n
              (prices, terminal_values K (str_lower option_type) prices))
    as (st & Hrun & _ & x & y & _ & Hy & Hx & Hxy); [lra | exact Hty | exact Hex | |].
  - split; [split; cbn [fst snd]; [|rewrite length_terminal_values]; exact Hlen|].
    exists x0, (Rmax (K - x0) 0). cbn [fst snd].
    split; [exact Hx0|]. split.
    + unfold terminal_values. rewrite decide_False by exact Hty.
      rewrite list_lookup_fmap, Hx0. reflexivity.
    + rewrite Nat.sub_diag, pow_O. split; [field | apply Rmax_l].
  - rewrite Hrun. cbn [bind]. unfold py_get. rewrite Hy.
    exists y. split; [reflexivity|].
    rewrite Nat.sub_0_r in Hx.
    assert (Hun : 1 <= lat_u lat ^ n) by (apply pow_R1_Rle; lra).
    assert (Hxv : x = S / lat_u lat ^ (2 * n)).
    { rewrite Hx, Hx0v. change (lat_d lat) with (1 / lat_u lat).
      unfold Rdiv at 2. rewrite Rmult_1_l, pow_inv.
      replace (2 * n)%nat with (n + n)%nat by lia. rewrite pow_add.
      field. lra. }
    split; [rewrite <- Hxv; exact Hxy|].
    assert (Hle : x <= S).
    { rewrite Hxv. replace (2 * n)%nat with (n + n)%nat by lia. rewrite pow_add.
      set (w := lat_u lat ^ n) in *.
      assert (Hww : 1 <= w * w) by nra.
      apply Rmult_le_reg_r with (w * w); [lra|].
      unfold Rdiv. rewrite Rmult_assoc, Rinv_l by lra. nra. }
    lra.
Qed.

Lemma american_put_floor_witness :
  exists price : R,
    binomial_tree_price 100 120 1 0.05 0.2 "put" 200 "American" = OK price /\
    120 - 100 / lat_u (lattice_of 1 0.05 0.2 200) ^ (2 * Z.to_nat 200) <= price /\
    120 - 100 <= price.
Proof.
  apply (american_put_floor 100 120 1 0.05 0.2 "put" 200 "American");
    [lia | lra | lra | lra | discriminate | reflexivity].
Defined.

(** ** The Monte Carlo pricer: outcomes and estimates *)

Lemma monte_carlo_european_unfold (S0 K T r sigma : R) (option_type : string)
    (n_paths : Z) (antithetic : bool) (g : rng_state) :
  (0 <= n_paths)%Z -> 0 <= T ->
  mc_price S0 K T r sigma option_type n_paths antithetic g =
    let Z := g <$> seq 0 (Z.to_nat n_paths) in
    let Z := if antithetic then Z ++ (Ropp <$> Z) else Z in
    OK (Rmult (exp (- r * T)) <$>
          np_mean (path_payoff S0 K T r sigma option_type <$> Z)).
Proof.
  intros Hn HT. unfold mc_price, monte_carlo_european, np_random_randn.
  rewrite (decide_False (P := (n_paths < 0)%Z)) by lia. cbn [fst bind].
  unfold math_sqrt. rewrite (decide_False (P := T < 0)) by lra. cbn [bind].
  cbn zeta. f_equal. f_equal. f_equal. unfold path_payoff.
  destruct (decide (str_lower option_type = "call"));
    rewrite <- list_fmap_compose; reflexivity.
Qed.

Lemma Rsum_nonneg (xs : list R) : Forall (Rle 0) xs -> 0 <= Rsum xs.
Proof.
  induction 1 as [|x xs Hx _ IH]; simpl; [apply Rle_refl|].
  unfold Rsum in *. simpl. lra.
Qed.

Lemma Rsum_app (xs ys : list R) : Rsum (xs ++ ys) = Rsum xs + Rsum ys.
Proof.
  unfold Rsum. induction xs as [|x xs IH]; simpl; [lra|]. rewrite IH. lra.
Qed.

Lemma Rsum_const (A : Type) (c : R) (l : list A) :
  Rsum ((fun _ => c) <$> l) = INR (length l) * c.
Proof.
  unfold Rsum. induction l as [|a l IH]; [simpl; lra|].
  cbn [fmap list_fmap foldr length]. change (list_fmap A R (fun _ => c) l)
    with ((fun _ : A => c) <$> l). rewrite IH, S_INR. ring.
Qed.

Lemma np_mean_nonempty (xs : list R) :
  (0 < length xs)%nat -> np_mean xs = Some (Rsum xs / INR (length xs)).
Proof. destruct xs; [simpl; lia | reflexivity]. Qed.

Lemma path_payoff_nonneg (S0 K T r sigma : R) (option_type : string) (z : R) :
  0 <= path_payoff S0 K T r sigma option_type z.
Proof.
  unfold path_payoff. cbn zeta.
  destruct (decide (str_lower option_type = "call")); apply Rmax_r.
Qed.

(** X14.  Every outcome of the Monte Carlo pricer.  A negative number
    of paths raises the [ValueError] of [randn] and leaves the generator
    as it was; a negative maturity raises the domain error of [math.sqrt];
    no path at all returns NaN, the mean of an empty array; one path or more
    returns a number, which is not negative. *)
Theorem monte_carlo_european_outcome (S0 K T r sigma : R) (option_type : string)
    (n_paths : Z) (antithetic : bool) (g : rng_state) :
  let price := mc_price S0 K T r sigma option_type n_paths antithetic g in
  ((n_paths < 0)%Z ->
   price = Raise (ValueError "negative dimensions are not allowed") /\
   mc_generator S0 K T r sigma option_type n_paths antithetic g = g) /\
  ((0 <= n_paths)%Z -> T < 0 -> price = Raise MathDomainError) /\
  (n_paths = 0%Z -> 0 <= T -> price = OK NaN) /\
  ((1 <= n_paths)%Z -> 0 <= T -> exists v : R, price = OK (Some v) /\ 0 <= v).
Proof.
  cbn zeta. split; [|split; [|split]].
  - intros Hn. unfold mc_price, mc_generator, monte_carlo_european, np_random_randn.
    rewrite !(decide_True (P := (n_paths < 0)%Z)) by exact Hn. split; reflexivity.
  - intros Hn HT. unfold mc_price, monte_carlo_european, np_random_randn.
    rewrite (decide_False (P := (n_paths < 0)%Z)) by lia. cbn [fst bind].
    unfold math_sqrt. rewrite (decide_True (P := T < 0)) by exact HT. reflexivity.
  - intros -> HT. rewrite monte_carlo_european_unfold by (lia || assumption).
    cbn zeta. change (Z.to_nat 0) with 0%nat. cbn [seq fmap list_fmap].
    destruct antithetic; reflexivity.
  - intros Hn HT. rewrite monte_carlo_european_unfold by (lia || assumption).
    cbn zeta.
    set (Zs := if antithetic then _ else _).
    assert (Hlen : (0 < length Zs)%nat).
    { unfold Zs. destruct antithetic;
        rewrite ?length_app, !length_fmap, length_seq; lia. }
    rewrite np_mean_nonempty by (rewrite length_fmap; exact Hlen).
    eexists. split; [reflexivity|].
    apply Rmult_le_pos; [apply Rlt_le, exp_pos|].
    apply Rmult_le_pos.
    + apply Rsum_nonneg, Forall_fmap, Forall_forall. intros z _.
      apply path_payoff_nonneg.
    + apply Rlt_le, Rinv_0_lt_compat, lt_0_INR. rewrite length_fmap. exact Hlen.
Qed.

(** X15.  The antithetic estimate on the draws [Z] is the mean of the
    plain estimate on [Z] and of the plain estimate on [-Z]. *)
Theorem antithetic_is_average (S0 K T r sigma : R) (option_type : string)
    (n_paths : Z) (g : rng_state) :
  (1 <= n_paths)%Z -> 0 <= T ->
  exists a b : R,
    mc_price S0 K T r sigma option_type n_paths false g = OK (Some a) /\
    mc_price S0 K T r sigma option_type n_paths false (mirrored g) = OK (Some b) /\
    mc_price S0 K T r sigma option_type n_paths true g = OK (Some ((a + b) / 2)).
Proof.
  intros Hn HT. rewrite !monte_carlo_european_unfold by (lia || assumption).
  cbn zeta.
  set (n := Z.to_nat n_paths). assert (Hnpos : (0 < n)%nat) by (unfold n; lia).
  set (phi := path_payoff S0 K T r sigma option_type).
  assert (Hm : mirrored g <$> seq 0 n = Ropp <$> (g <$> seq 0 n)).
  { rewrite <- list_fmap_compose. reflexivity. }
  rewrite Hm. set (Zs := g <$> seq 0 n).
  assert (HlZ : length Zs = n) by (unfold Zs; rewrite length_fmap, length_seq; reflexivity).
  rewrite fmap_app.
  rewrite !np_mean_nonempty
    by (rewrite ?length_app, !length_fmap; lia).
  rewrite Rsum_app, length_app, !length_fmap, HlZ.
  do 2 eexists. split; [reflexivity|]. split; [reflexivity|].
  cbn [fmap option_fmap option_map]. f_equal. f_equal.
  rewrite plus_INR.
  assert (0 < INR n) by (apply lt_0_INR; exact Hnpos).
  field. lra.
Qed.

Lemma antithetic_is_average_witness :
  exists a b : R,
    mc_price 100 100 1 0.05 0.2 "call" 10000 false counting_generator = OK (Some a) /\
    mc_price 100 100 1 0.05 0.2 "call" 10000 false (mirrored counting_generator)
      = OK (Some b) /\
    mc_price 100 100 1 0.05 0.2 "call" 10000 true counting_generator
      = OK (Some ((a + b) / 2)).
Proof.
  apply (antithetic_is_average 100 100 1 0.05 0.2 "call" 10000 counting_generator);
    [lia | lra].
Defined.

(** X16.  Without volatility the estimate does not depend on the
    draws: it is the discounted payoff at the forward,
    [exp(-r T) max(S0 exp(r T) - K, 0)] for a call. *)
Theorem monte_carlo_zero_volatility (S0 K T r : R) (option_type : string)
    (n_paths : Z) (antithetic : bool) (g : rng_state) :
  (1 <= n_paths)%Z -> 0 <= T ->
  mc_price S0 K T r 0 option_type n_paths antithetic g =
    OK (Some (exp (- r * T) *
              (if decide (str_lower option_type = "call")
               then Rmax (S0 * exp (r * T) - K) 0
               else Rmax (K - S0 * exp (r * T)) 0))).
Proof.
  intros Hn HT. rewrite monte_carlo_european_unfold by (lia || assumption).
  cbn zeta.
  set (Zs := if antithetic then _ else _).
  assert (Hlen : (0 < length Zs)%nat).
  { unfold Zs. destruct antithetic;
      rewrite ?length_app, !length_fmap, length_seq; lia. }
  set (c := if decide (str_lower option_type = "call")
            then Rmax (S0 * exp (r * T) - K) 0
            else Rmax (K - S0 * exp (r * T)) 0).
  assert (Hconst : path_payoff S0 K T r 0 option_type <$> Zs = (fun _ => c) <$> Zs).
  { apply list_fmap_ext. intros i z _. unfold path_payoff, c. cbn zeta.
    replace ((r - 0.5 * 0 ^ 2) * T + 0 * sqrt T * z) with (r * T) by (simpl; ring).
    reflexivity. }
  rewrite Hconst, np_mean_nonempty by (rewrite length_fmap; exact Hlen).
  rewrite Rsum_const, length_fmap. cbn [fmap option_fmap option_map].
  f_equal. f_equal. f_equal.
  assert (0 < INR (length Zs)) by (apply lt_0_INR; exact Hlen).
  field. lra.
Qed.

Lemma monte_carlo_zero_volatility_witness :
  mc_price 100 100 1 0.05 0 "call" 50000 true counting_generator =
    OK (Some (exp (- (0.05) * 1) *
              (if decide (str_lower "call" = "call")
               then Rmax (100 * exp (0.05 * 1) - 100) 0
               else Rmax (100 - 100 * exp (0.05 * 1)) 0))).
Proof.
  apply (monte_carlo_zero_volatility 100 100 1 0.05 "call" 50000 true
           counting_generator); [lia | lra].
Defined.

(** ** The surface does not depend on the order of the rows *)

Lemma sorted_unique_perm (xs ys : list R) :
  xs ≡ₚ ys -> sorted_unique xs = sorted_unique ys.
Proof.
  intros Hp. apply sorted_unique_eq; [apply sorted_unique_ascending|].
  intros x. rewrite sorted_unique_elem. rewrite Hp. reflexivity.
Qed.

Lemma Rsum_perm (xs ys : list R) : xs ≡ₚ ys -> Rsum xs = Rsum ys.
Proof.
  unfold Rsum. induction 1 as [|x xs ys _ IH|x y xs|xs ys zs _ IH1 _ IH2];
    simpl; [reflexivity | rewrite IH; reflexivity | lra | congruence].
Qed.

Lemma np_mean_perm (xs ys : list R) : xs ≡ₚ ys -> np_mean xs = np_mean ys.
Proof.
  intros Hp. pose proof (Permutation_length Hp) as Hl.
  pose proof (Rsum_perm xs ys Hp) as Hs.
  destruct xs as [|x xs], ys as [|y ys]; try discriminate Hl; [reflexivity|].
  rewrite !np_mean_cons, Hs, Hl. reflexivity.
Qed.

Lemma pivot_table_perm (rows rows' : list row) :
  rows ≡ₚ rows' -> pivot_table rows = pivot_table rows'.
Proof.
  intros Hp. unfold pivot_table.
  rewrite (sorted_unique_perm (maturity <$> rows) (maturity <$> rows'))
    by (rewrite Hp; reflexivity).
  rewrite (sorted_unique_perm (strike <$> rows) (strike <$> rows'))
    by (rewrite Hp; reflexivity).
  apply list_fmap_ext. intros _ m _. apply list_fmap_ext. intros _ k _.
  apply np_mean_perm. rewrite Hp. reflexivity.
Qed.

Lemma surface_iv_perm (rows rows' : list row) (K T : R) :
  rows ≡ₚ rows' -> surface_iv rows K T = surface_iv rows' K T.
Proof.
  intros Hp. unfold surface_iv.
  rewrite (sorted_unique_perm (maturity <$> rows) (maturity <$> rows'))
    by (rewrite Hp; reflexivity).
  rewrite (sorted_unique_perm (strike <$> rows) (strike <$> rows'))
    by (rewrite Hp; reflexivity).
  rewrite (pivot_table_perm rows rows' Hp). reflexivity.
Qed.

(** X17.  Two tables with the same rows in another order give surfaces
    that return the same volatility everywhere (the means of the cells
    being exact). *)
Theorem surface_ignores_row_order (h h' : heap) (d d' : loc)
    (rows rows' : list row) :
  h !! d = Some (DataFrame rows) -> h' !! d' = Some (DataFrame rows') ->
  rows ≡ₚ rows' ->
  exists (self : loc) (h1 : heap) (self' : loc) (h1' : heap),
    VolSurface_init d h = OK (self, h1) /\
    VolSurface_init d' h' = OK (self', h1') /\
    forall K T : R,
      returns (VolSurface_iv self K T) h1 = returns (VolSurface_iv self' K T) h1'.
Proof.
  intros Hd Hd' Hp.
  destruct (VolSurface_init_result h d rows Hd)
    as (self & self_df & h1 & Hinit & Hself & _).
  destruct (VolSurface_init_result h' d' rows' Hd')
    as (self' & self_df' & h1' & Hinit' & Hself' & _).
  exists self, h1, self', h1'.
  split; [exact Hinit|]. split; [exact Hinit'|]. intros K T.
  rewrite (VolSurface_iv_value h1 self self_df rows _ _ Hself).
  rewrite (VolSurface_iv_value h1' self' self_df' rows' _ _ Hself').
  rewrite (surface_iv_perm rows rows' K T Hp). reflexivity.
Qed.

Lemma surface_ignores_row_order_witness :
  exists (self : loc) (h1 : heap) (self' : loc) (h1' : heap),
    VolSurface_init 1%positive {[1%positive := DataFrame example_rows]}
      = OK (self, h1) /\
    VolSurface_init 1%positive {[1%positive := DataFrame (rev example_rows)]}
      = OK (self', h1') /\
    forall K T : R,
      returns (VolSurface_iv self K T) h1 = returns (VolSurface_iv self' K T) h1'.
Proof.
  apply (surface_ignores_row_order _ _ 1%positive 1%positive
           example_rows (rev example_rows)).
  - reflexivity.
  - reflexivity.
  - apply Permutation_rev.
Defined.

(** ** Shocks compose, and the surface owns its rows *)

Lemma VolSurface_init_frame (h : heap) (d : loc) (rows : list row) :
  h !! d = Some (DataFrame rows) ->
  exists (self self_df : loc) (h1 : heap),
    VolSurface_init d h = OK (self, h1) /\
    h1 !! self = Some (Surface (surface_of self_df rows)) /\
    h1 !! self_df = Some (DataFrame rows) /\
    h !! self = None /\ h !! self_df = None /\
    (forall (l : loc) (o : object), h !! l = Some o -> h1 !! l = Some o).
Proof.
  intros Hd. rewrite (VolSurface_init_run h d rows Hd). cbn zeta.
  set (c := fresh (dom h)).
  set (h0 := <[c := DataFrame rows]> h).
  set (s := fresh (dom h0)).
  assert (Hc : h !! c = None) by apply fresh_lookup.
  assert (Hs : h0 !! s = None) by apply fresh_lookup.
  assert (H0 : forall (l : loc) (o : object), h !! l = Some o -> h0 !! l = Some o).
  { intros l o Hl. apply insert_fresh_lookup; assumption. }
  exists s, c, (<[s := Surface (surface_of c rows)]> h0).
  split; [reflexivity|]. split; [apply lookup_insert_eq|].
  split; [apply insert_fresh_lookup; [apply lookup_insert_eq | exact Hs]|].
  split; [destruct (h !! s) as [o|] eqn:Ho; [apply H0 in Ho; congruence | reflexivity]|].
  split; [exact Hc|].
  intros l o Hl. apply insert_fresh_lookup; [apply H0; exact Hl | exact Hs].
Qed.

Lemma VolSurface_shock_parallel_frame (h : heap) (self : loc) (s : VolSurface)
    (rows : list row) (bump : R) :
  h !! self = Some (Surface s) ->
  h !! df s = Some (DataFrame rows) ->
  exists (shocked shocked_df : loc) (h' : heap),
    VolSurface_shock_parallel self bump h = OK (shocked, h') /\
    h' !! shocked = Some (Surface (surface_of shocked_df (bump_row bump <$> rows))) /\
    h' !! shocked_df = Some (DataFrame (bump_row bump <$> rows)) /\
    (forall (l : loc) (o : object), h !! l = Some o -> h' !! l = Some o).
Proof.
  intros Hs Hd.
  rewrite (VolSurface_shock_parallel_run h self s rows bump Hs Hd). cbn zeta.
  rewrite insert_insert_eq.
  set (b := fresh (dom h)).
  assert (Hb : h !! b = None) by apply fresh_lookup.
  destruct (VolSurface_init_frame
              (<[b := DataFrame (bump_row bump <$> rows)]> h) b
              (bump_row bump <$> rows))
    as (shocked & shocked_df & h' & Hrun & Hshocked & Hdf & _ & _ & Hkeep);
    [apply lookup_insert_eq|].
  exists shocked, shocked_df, h'.
  split; [exact Hrun|]. split; [exact Hshocked|]. split; [exact Hdf|].
  intros l o Hl. apply Hkeep. apply insert_fresh_lookup; assumption.
Qed.

Lemma bump_row_twice (b1 b2 : R) (rows : list row) :
  bump_row b2 <$> (bump_row b1 <$> rows) = bump_row (b1 + b2) <$> rows.
Proof.
  rewrite <- list_fmap_compose. apply list_fmap_ext. intros _ [m k v] _.
  unfold bump_row. simpl. f_equal. ring.
Qed.

Lemma bump_row_zero (rows : list row) : bump_row 0 <$> rows = rows.
Proof.
  rewrite <- (list_fmap_id rows) at 2. apply list_fmap_ext. intros _ [m k v] _.
  unfold bump_row. simpl. f_equal. ring.
Qed.

(** X18.  Shocks add up: the surface shocked by [b1] and then by [b2]
    returns everywhere what the surface shocked by [b1 + b2] returns, and
    the surface shocked by zero what the surface itself returns (in exact
    arithmetic). *)
Theorem shock_parallel_composes (h : heap) (d : loc) (rows : list row)
    (b1 b2 : R) :
  h !! d = Some (DataFrame rows) ->
  exists (self s1 s2 s12 s0 : loc) (h1 h2 h3 h4 h5 : heap),
    VolSurface_init d h = OK (self, h1) /\
    VolSurface_shock_parallel self b1 h1 = OK (s1, h2) /\
    VolSurface_shock_parallel s1 b2 h2 = OK (s2, h3) /\
    VolSurface_shock_parallel self (b1 + b2) h3 = OK (s12, h4) /\
    VolSurface_shock_parallel self 0 h4 = OK (s0, h5) /\
    forall K T : R,
      returns (VolSurface_iv s2 K T) h5 = returns (VolSurface_iv s12 K T) h5 /\
      returns (VolSurface_iv s0 K T) h5 = returns (VolSurface_iv self K T) h5.
Proof.
  intros Hd.
  destruct (VolSurface_init_frame h d rows Hd)
    as (self & self_df & h1 & Hinit & Hself & Hdf & _ & _ & _).
  destruct (VolSurface_shock_parallel_frame h1 self _ rows b1 Hself Hdf)
    as (s1 & d1 & h2 & Hrun1 & Hs1 & Hd1 & Hk1).
  destruct (VolSurface_shock_parallel_frame h2 s1 _ _ b2 Hs1 Hd1)
    as (s2 & d2 & h3 & Hrun2 & Hs2 & Hd2 & Hk2).
  destruct (VolSurface_shock_parallel_frame h3 self _ rows (b1 + b2)
              (Hk2 _ _ (Hk1 _ _ Hself)) (Hk2 _ _ (Hk1 _ _ Hdf)))
    as (s12 & d12 & h4 & Hrun12 & Hs12 & Hd12 & Hk3).
  destruct (VolSurface_shock_parallel_frame h4 self _ rows 0
              (Hk3 _ _ (Hk2 _ _ (Hk1 _ _ Hself))) (Hk3 _ _ (Hk2 _ _ (Hk1 _ _ Hdf))))
    as (s0 & d0 & h5 & Hrun0 & Hs0 & Hd0 & Hk4).
  exists self, s1, s2, s12, s0, h1, h2, h3, h4, h5.
  split; [exact Hinit|]. split; [exact Hrun1|]. split; [exact Hrun2|].
  split; [exact Hrun12|]. split; [exact Hrun0|]. intros K T.
  rewrite (VolSurface_iv_value h5 s2 d2 _ K T (Hk4 _ _ (Hk3 _ _ Hs2))).
  rewrite (VolSurface_iv_value h5 s12 d12 _ K T (Hk4 _ _ Hs12)).
  rewrite (VolSurface_iv_value h5 s0 d0 _ K T Hs0).
  rewrite (VolSurface_iv_value h5 self self_df rows K T
             (Hk4 _ _ (Hk3 _ _ (Hk2 _ _ (Hk1 _ _ Hself))))).
  rewrite bump_row_twice, bump_row_zero. split; reflexivity.
Qed.

Lemma shock_parallel_composes_witness :
  exists (self s1 s2 s12 s0 : loc) (h1 h2 h3 h4 h5 : heap),
    VolSurface_init 1%positive {[1%positive := DataFrame example_rows]}
      = OK (self, h1) /\
    VolSurface_shock_parallel self 0.02 h1 = OK (s1, h2) /\
    VolSurface_shock_parallel s1 (- 0.01) h2 = OK (s2, h3) /\
    VolSurface_shock_parallel self (0.02 + - 0.01) h3 = OK (s12, h4) /\
    VolSurface_shock_parallel self 0 h4 = OK (s0, h5) /\
    forall K T : R,
      returns (VolSurface_iv s2 K T) h5 = returns (VolSurface_iv s12 K T) h5 /\
      returns (VolSurface_iv s0 K T) h5 = returns (VolSurface_iv self K T) h5.
Proof.
  apply (shock_parallel_composes {[1%positive := DataFrame example_rows]}
           1%positive example_rows 0.02 (- 0.01)).
  reflexivity.
Defined.

(** X19.  The surface owns a copy of its rows: after the caller changes
    its frame in place, the surface still returns the volatilities of the
    rows it was built from, and so does, up to the shift, the surface that
    [shock_parallel] derives from it. *)
Theorem surface_owns_its_rows (h : heap) (d : loc) (rows : list row)
    (edit bump : R) :
  h !! d = Some (DataFrame rows) ->
  exists (self shocked : loc) (h1 h2 h3 : heap),
    VolSurface_init d h = OK (self, h1) /\
    DataFrame_iadd_iv d edit h1 = OK (tt, h2) /\
    h2 !! d = Some (DataFrame (bump_row edit <$> rows)) /\
    VolSurface_shock_parallel self bump h2 = OK (shocked, h3) /\
    forall K T : R,
      returns (VolSurface_iv self K T) h2 = OK (surface_iv rows K T) /\
      returns (VolSurface_iv self K T) h3 = OK (surface_iv rows K T) /\
      returns (VolSurface_iv shocked K T) h3
        = OK (surface_iv (bump_row bump <$> rows) K T).
Proof.
  intros Hd.
  destruct (VolSurface_init_frame h d rows Hd)
    as (self & self_df & h1 & Hinit & Hself & Hdf & Hfs & Hfd & Hk1).
  pose proof (Hk1 _ _ Hd) as Hd1.
  assert (Hne1 : d <> self) by (intros ->; congruence).
  assert (Hne2 : d <> self_df) by (intros ->; congruence).
  set (h2 := <[d := DataFrame (bump_row edit <$> rows)]> h1).
  assert (Hedit : DataFrame_iadd_iv d edit h1 = OK (tt, h2)).
  { unfold DataFrame_iadd_iv, bindM, get_frame. rewrite Hd1. reflexivity. }
  assert (Hself2 : h2 !! self = Some (Surface (surface_of self_df rows)))
    by (unfold h2; rewrite lookup_insert_ne by exact Hne1; exact Hself).
  assert (Hdf2 : h2 !! self_df = Some (DataFrame rows))
    by (unfold h2; rewrite lookup_insert_ne by exact Hne2; exact Hdf).
  destruct (VolSurface_shock_parallel_frame h2 self _ rows bump Hself2 Hdf2)
    as (shocked & shocked_df & h3 & Hrun & Hshocked & _ & Hk3).
  exists self, shocked, h1, h2, h3.
  split; [exact Hinit|]. split; [exact Hedit|].
  split; [unfold h2; apply lookup_insert_eq|]. split; [exact Hrun|].
  intros K T.
  rewrite (VolSurface_iv_value h2 self self_df rows K T Hself2).
  rewrite (VolSurface_iv_value h3 self self_df rows K T (Hk3 _ _ Hself2)).
  rewrite (VolSurface_iv_value h3 shocked shocked_df _ K T Hshocked).
  repeat split; reflexivity.
Qed.

Lemma surface_owns_its_rows_witness :
  exists (self shocked : loc) (h1 h2 h3 : heap),
    VolSurface_init 1%positive {[1%positive := DataFrame example_rows]}
      = OK (self, h1) /\
    DataFrame_iadd_iv 1%positive 0.5 h1 = OK (tt, h2) /\
    h2 !! 1%positive = Some (DataFrame (bump_row 0.5 <$> example_rows)) /\
    VolSurface_shock_parallel self 0.02 h2 = OK (shocked, h3) /\
    forall K T : R,
      returns (VolSurface_iv self K T) h2 = OK (surface_iv example_rows K T) /\
      returns (VolSurface_iv self K T) h3 = OK (surface_iv example_rows K T) /\
      returns (VolSurface_iv shocked K T) h3
        = OK (surface_iv (bump_row 0.02 <$> example_rows) K T).
Proof.
  apply (surface_owns_its_rows {[1%positive := DataFrame example_rows]}
           1%positive example_rows 0.5 0.02).
  reflexivity.
Defined.

(** ** Inside the grid the surface stays within the quotes *)

(** On an ascending axis the points at or below [x] are the first ones. *)
Lemma count_le_prefix (l : list R) (x : R) :
  ascending l ->
  forall (i : nat) (y : R), l !! i = Some y ->
    ((i < length (filter (fun g : R => (g <= x)%R) l))%nat <-> y <= x).
Proof.
  intros Hl. induction Hl as [|z l Hl IH Hz]; intros i y Hi.
  - rewrite lookup_nil in Hi. discriminate.
  - destruct (decide (z <= x)) as [Hzx|Hzx].
    + rewrite filter_cons_True by exact Hzx. simpl length.
      destruct i as [|i]; simpl in Hi.
      * injection Hi as <-. split; [intros _; exact Hzx | lia].
      * rewrite <- (IH i y Hi). lia.
    + rewrite filter_cons_False by exact Hzx.
      assert (Hall : Forall (Rlt x) l).
      { eapply Forall_impl; [exact Hz|]. intros w Hw. simpl in Hw. lra. }
      rewrite filter_le_nil by exact Hall. simpl length.
      split; [lia|]. intros Hy. exfalso.
      destruct i as [|i]; simpl in Hi.
      * injection Hi as <-. contradiction.
      * assert (x < y)
          by (apply (proj1 (Forall_forall _ _) Hall);
              eapply list_elem_of_lookup_2; exact Hi).
        lra.
Qed.

(** The cell of a point inside the axis, and its weight. *)
Lemma find_indices_inside (l : list R) (a b x : R) :
  ascending l -> (2 <= length l)%nat ->
  l !! 0%nat = Some a -> l !! pred (length l) = Some b -> a <= x <= b ->
  exists (i : nat) (lo hi : R),
    find_indices l x = (Z.of_nat i, (x - lo) / (hi - lo)) /\
    l !! i = Some lo /\ l !! S i = Some hi /\ lo <= x <= hi /\ lo < hi.
Proof.
  intros Hl Hn Ha Hb Hx.
  destruct (axis_ends l a b Ha Hb) as [Hha Hlb].
  destruct (decide (x = b)) as [->|Hne].
  - destruct (lookup_lt_is_Some_2 l (length l - 2)) as [lo Hlo]; [lia|].
    assert (Hhi : l !! S (length l - 2) = Some b).
    { replace (S (length l - 2)) with (pred (length l)) by lia. exact Hb. }
    assert (Hlt : lo < b).
    { apply (ascending_lookup_lt l (length l - 2) (S (length l - 2)));
        [assumption..|lia]. }
    exists (length l - 2)%nat, lo, b.
    split; [|split; [exact Hlo|split; [exact Hhi|split; lra]]].
    apply find_indices_cell; [assumption..|].
    unfold find_interval. rewrite Hha, Hlb.
    rewrite (decide_True (P := a <= b /\ b <= b)) by lra.
    rewrite (decide_True (P := b = b)) by reflexivity. lia.
  - set (c := length (filter (fun g : R => g <= x) l)).
    pose proof (count_le_prefix l x Hl) as Hc. fold c in Hc.
    assert (Hc0 : (0 < c)%nat) by (apply (Hc 0%nat a Ha); lra).
    assert (Hcn : (c < length l)%nat).
    { destruct (decide (c < length l)%nat) as [H|H]; [exact H|]. exfalso.
      assert (b <= x) by (apply (Hc (pred (length l)) b Hb); lia). lra. }
    destruct (lookup_lt_is_Some_2 l (c - 1)) as [lo Hlo]; [lia|].
    destruct (lookup_lt_is_Some_2 l c) as [hi Hhi]; [lia|].
    assert (Hlox : lo <= x) by (apply (Hc (c - 1)%nat lo Hlo); lia).
    assert (Hxhi : x < hi).
    { destruct (Rlt_le_dec x hi) as [H|H]; [exact H|]. exfalso.
      apply (Hc c hi Hhi) in H. lia. }
    exists (c - 1)%nat, lo, hi.
    replace (S (c - 1)) with c by lia.
    split; [|split; [exact Hlo|split; [exact Hhi|split; lra]]].
    apply find_indices_cell; [assumption| exact Hlo |
      replace (S (c - 1)) with c by lia; exact Hhi |].
    unfold find_interval. rewrite Hha, Hlb.
    rewrite (decide_True (P := a <= x /\ x <= b)) by lra.
    rewrite (decide_False (P := x = b)) by exact Hne. fold c. lia.
Qed.

Lemma bilinear_bounds (v00 v01 v10 v11 y0 y1 lo hi : R) :
  0 <= y0 <= 1 -> 0 <= y1 <= 1 ->
  lo <= v00 <= hi -> lo <= v01 <= hi -> lo <= v10 <= hi -> lo <= v11 <= hi ->
  lo <= bilinear v00 v01 v10 v11 y0 y1 <= hi.
Proof.
  intros H0 H1 Ha Hb Hc Hd. unfold bilinear.
  assert (W00 : 0 <= (1 - y0) * (1 - y1)) by (apply Rmult_le_pos; lra).
  assert (W01 : 0 <= (1 - y0) * y1) by (apply Rmult_le_pos; lra).
  assert (W10 : 0 <= y0 * (1 - y1)) by (apply Rmult_le_pos; lra).
  assert (W11 : 0 <= y0 * y1) by (apply Rmult_le_pos; lra).
  assert (Wsum : (1 - y0) * (1 - y1) + (1 - y0) * y1 + y0 * (1 - y1) + y0 * y1 = 1)
    by ring.
  set (w00 := (1 - y0) * (1 - y1)) in *. set (w01 := (1 - y0) * y1) in *.
  set (w10 := y0 * (1 - y1)) in *. set (w11 := y0 * y1) in *.
  split; nra.
Qed.

Lemma cell_succ (values : list (list float)) (i j : nat) :
  value_at values (Z.of_nat i) (Z.of_nat j + 1) = cell values i (S j) /\
  value_at values (Z.of_nat i + 1) (Z.of_nat j) = cell values (S i) j /\
  value_at values (Z.of_nat i + 1) (Z.of_nat j + 1) = cell values (S i) (S j).
Proof.
  unfold cell. rewrite !Nat2Z.inj_succ, <- !Z.add_1_r. repeat split.
Qed.

Lemma interpolate_inside (ms ks : list R) (values : list (list float))
    (t0 t1 k0 k1 T K lo hi : R) :
  ascending ms -> ascending ks ->
  (2 <= length ms)%nat -> (2 <= length ks)%nat ->
  ms !! 0%nat = Some t0 -> ms !! pred (length ms) = Some t1 -> t0 <= T <= t1 ->
  ks !! 0%nat = Some k0 -> ks !! pred (length ks) = Some k1 -> k0 <= K <= k1 ->
  (forall i j : nat, (i < length ms)%nat -> (j < length ks)%nat ->
     exists v : R, cell values i j = Some v /\ lo <= v <= hi) ->
  exists v : R, interpolate ms ks values T K = Some v /\ lo <= v <= hi.
Proof.
  intros Hms Hks Hnm Hnk Ht0 Ht1 HT Hk0 Hk1 HK Hcells.
  destruct (find_indices_inside ms t0 t1 T Hms Hnm Ht0 Ht1 HT)
    as (i & tl & th & Hfi & Htl & Hth & HTin & Htlt).
  destruct (find_indices_inside ks k0 k1 K Hks Hnk Hk0 Hk1 HK)
    as (j & kl & kh & Hfj & Hkl & Hkh & HKin & Hklt).
  pose proof (lookup_lt_Some _ _ _ Hth) as Hi.
  pose proof (lookup_lt_Some _ _ _ Hkh) as Hj.
  destruct (Hcells i j ltac:(lia) ltac:(lia)) as (v00 & H00 & B00).
  destruct (Hcells i (S j) ltac:(lia) ltac:(lia)) as (v01 & H01 & B01).
  destruct (Hcells (S i) j ltac:(lia) ltac:(lia)) as (v10 & H10 & B10).
  destruct (Hcells (S i) (S j) ltac:(lia) ltac:(lia)) as (v11 & H11 & B11).
  destruct (cell_succ values i j) as (E01 & E10 & E11).
  exists (bilinear v00 v01 v10 v11 ((T - tl) / (th - tl)) ((K - kl) / (kh - kl))).
  split.
  - unfold interpolate. rewrite Hfi, Hfj. apply evaluate_linear_spec.
    exists v00, v01, v10, v11.
    rewrite E01, E10, E11. unfold cell in H00. tauto.
  - assert (Hy : forall x a b : R, a <= x <= b -> a < b -> 0 <= (x - a) / (b - a) <= 1).
    { intros x a b Hx Hab. split.
      - apply Rmult_le_pos; [lra|]. apply Rlt_le, Rinv_0_lt_compat. lra.
      - apply Rmult_le_reg_r with (b - a); [lra|].
        unfold Rdiv. rewrite Rmult_assoc, Rinv_l by lra. lra. }
    apply bilinear_bounds; try assumption; apply Hy; assumption.
Qed.

Lemma Rsum_bounds (xs : list R) (lo hi : R) :
  Forall (fun x => lo <= x <= hi) xs ->
  INR (length xs) * lo <= Rsum xs <= INR (length xs) * hi.
Proof.
  unfold Rsum. induction 1 as [|x xs Hx _ IH]; [simpl; lra|].
  cbn [foldr length]. cbn beta in Hx. rewrite S_INR.
  set (n := INR (length xs)) in *. set (s := foldr Rplus 0 xs) in *.
  destruct IH, Hx. split; nra.
Qed.

Lemma np_mean_bounds (xs : list R) (lo hi v : R) :
  Forall (fun x => lo <= x <= hi) xs -> np_mean xs = Some v -> lo <= v <= hi.
Proof.
  intros Hall Hv. destruct xs as [|x xs]; [discriminate|].
  rewrite np_mean_cons in Hv.
  assert (Hv' : v = Rsum (x :: xs) / INR (length (x :: xs))) by congruence.
  clear Hv. rewrite Hv'. clear Hv' v.
  pose proof (Rsum_bounds _ lo hi Hall) as Hs.
  assert (Hn : 0 < INR (length (x :: xs))) by (apply lt_0_INR; simpl; lia).
  set (n := INR (length (x :: xs))) in *. set (s := Rsum (x :: xs)) in *.
  split.
  - apply Rmult_le_reg_r with n; [exact Hn|].
    unfold Rdiv. rewrite Rmult_assoc, Rinv_l by lra. nra.
  - apply Rmult_le_reg_r with n; [exact Hn|].
    unfold Rdiv. rewrite Rmult_assoc, Rinv_l by lra. nra.
Qed.

Lemma within_axis (xs : list R) (x : R) :
  within xs x ->
  exists a b : R,
    sorted_unique xs !! 0%nat = Some a /\
    sorted_unique xs !! pred (length (sorted_unique xs)) = Some b /\ a <= x <= b.
Proof.
  intros (p & q & Hp & Hq & Hx).
  pose proof (sorted_unique_ascending xs) as Hasc.
  apply (proj2 (sorted_unique_elem xs p)) in Hp.
  apply (proj2 (sorted_unique_elem xs q)) in Hq.
  apply list_elem_of_lookup in Hp as [ip Hip]. apply list_elem_of_lookup in Hq as [iq Hiq].
  pose proof (lookup_lt_Some _ _ _ Hip) as Hlen.
  destruct (lookup_lt_is_Some_2 (sorted_unique xs) 0) as [a Ha]; [lia|].
  destruct (lookup_lt_is_Some_2 (sorted_unique xs) (pred (length (sorted_unique xs))))
    as [b Hb]; [lia|].
  exists a, b. split; [exact Ha|]. split; [exact Hb|].
  pose proof (axis_first_le _ _ a p Hasc Ha Hip).
  pose proof (axis_le_last _ _ b q Hasc Hb Hiq). lra.
Qed.

Lemma surface_iv_inside (rows : list row) (lo hi K T : R) :
  full_grid rows ->
  two_values (maturity <$> rows) -> two_values (strike <$> rows) ->
  (forall rw : row, rw ∈ rows -> lo <= iv rw <= hi) ->
  within (strike <$> rows) K -> within (maturity <$> rows) T ->
  exists v : R, surface_iv rows K T = Some v /\ lo <= v <= hi.
Proof.
  intros Hfull Hm2 Hk2 Hq HK HT.
  destruct (within_axis _ K HK) as (k0 & k1 & Hk0 & Hk1 & HKin).
  destruct (within_axis _ T HT) as (t0 & t1 & Ht0 & Ht1 & HTin).
  unfold surface_iv.
  apply (interpolate_inside _ _ _ t0 t1 k0 k1);
    try assumption; try apply sorted_unique_ascending;
    try (apply two_values_length; assumption).
  intros i j Hi Hj.
  destruct (full_grid_gapless rows Hfull i j Hi Hj) as [v Hv].
  exists v. split; [exact Hv|].
  destruct (lookup_lt_is_Some_2 _ i Hi) as [m Hm].
  destruct (lookup_lt_is_Some_2 _ j Hj) as [k Hk].
  rewrite (pivot_table_cell rows i j m k Hm Hk) in Hv.
  eapply (np_mean_bounds _ lo hi v); [|exact Hv].
  apply Forall_fmap, Forall_forall. intros rw Hrw.
  apply list_elem_of_filter in Hrw as [_ Hrw]. simpl. apply Hq. exact Hrw.
Qed.

(** X20.  Inside the grid the surface stays within the quotes: on a table
    with a row for every pair of its maturities and strikes, at a point
    between two of its strikes and two of its maturities, [iv] returns a
    number between the smallest and the largest quoted volatility. *)
Theorem iv_within_quotes (h : heap) (d : loc) (rows : list row)
    (lo hi K T : R) :
  h !! d = Some (DataFrame rows) ->
  full_grid rows ->
  two_values (maturity <$> rows) -> two_values (strike <$> rows) ->
  (forall rw : row, rw ∈ rows -> lo <= iv rw <= hi) ->
  within (strike <$> rows) K -> within (maturity <$> rows) T ->
  exists (self : loc) (h1 : heap) (v : R),
    VolSurface_init d h = OK (self, h1) /\
    returns (VolSurface_iv self K T) h1 = OK (Some v) /\ lo <= v <= hi.
Proof.
  intros Hd Hfull Hm2 Hk2 Hq HK HT.
  destruct (VolSurface_init_result h d rows Hd)
    as (self & self_df & h1 & Hinit & Hself & _).
  destruct (surface_iv_inside rows lo hi K T Hfull Hm2 Hk2 Hq HK HT)
    as (v & Hv & Hb).
  exists self, h1, v. split; [exact Hinit|].
  rewrite (VolSurface_iv_value h1 self self_df rows _ _ Hself), Hv.
  split; [reflexivity | exact Hb].
Qed.

Lemma example_quotes (rw : row) : rw ∈ example_rows -> 0.2 <= iv rw <= 0.35.
Proof.
  intros H. unfold example_rows in H. split_in H; simpl; lra.
Qed.

Lemma iv_within_quotes_witness :
  exists (self : loc) (h1 : heap) (v : R),
    VolSurface_init 1%positive {[1%positive := DataFrame example_rows]}
      = OK (self, h1) /\
    returns (VolSurface_iv self 105 1.5) h1 = OK (Some v) /\ 0.2 <= v <= 0.35.
Proof.
  apply (iv_within_quotes {[1%positive := DataFrame example_rows]} 1%positive
           example_rows 0.2 0.35 105 1.5).
  - reflexivity.
  - exact example_full_grid.
  - exact example_two_maturities.
  - exact example_two_strikes.
  - exact example_quotes.
  - exists 100, 110. split; [in_list|]. split; [in_list | lra].
  - exists 1, 2. split; [in_list|]. split; [in_list | lra].
Defined.

(** ** Pricing off the surface *)

(** Unfolds [price_from_surface] where the surface returns what [Hiv] says. *)
Ltac run_iv Hiv :=
  let H := fresh "H" in
  pose proof Hiv as H; unfold price_from_surface; unfold returns in H;
  match type of H with
  | context [VolSurface_iv ?s ?K ?T ?h] =>
      destruct (VolSurface_iv s K T h) as [[? ?]|?]; [|discriminate H]
  end;
  injection H as ->.

Lemma price_from_surface_bsm (S K T r sigma : R) (vol_surface : loc)
    (method : string) (option_type : option string) (h : heap) (g : rng_state) :
  returns (VolSurface_iv vol_surface K T) h = OK (Some sigma) ->
  str_lower method = "bsm" ->
  price_from_surface S K T r vol_surface method (only_option_type option_type) h g =
    (priced_of (black_scholes_price S K T r sigma
                  (default "call"%string option_type)), g).
Proof.
  intros Hiv Hm. run_iv Hiv. cbn zeta.
  rewrite decide_True by exact Hm. reflexivity.
Qed.





(** X23.  Below the first strike the surface extrapolates, and the
    volatility it hands over can be negative: the analytic method then
    raises "sigma must be positive.", while the lattice method prices with
    the negative volatility. *)
Theorem price_below_strikes (h : heap) (self self_df : loc) (rows : list row)
    (k0 k1 a b S K T r : R) (steps : Z) (g : rng_state) :
  h !! self = Some (Surface (surface_of self_df rows)) ->
  sorted_unique (strike <$> rows) !! 0%nat = Some k0 ->
  sorted_unique (strike <$> rows) !! 1%nat = Some k1 ->
  returns (VolSurface_iv self k0 T) h = OK (Some a) ->
  returns (VolSurface_iv self k1 T) h = OK (Some b) ->
  K <= k0 -> a + (K - k0) * ((b - a) / (k1 - k0)) < 0 ->
  0 < S -> 0 < K -> 0 < T -> (1 <= steps)%Z ->
  price_from_surface S K T r self "bsm" (only_option_type None) h g =
    (Failed InvalidVolatility, g) /\
  exists price : R,
    price_from_surface S K T r self "binomial"
      (Kwargs None (Some steps) None None None) h g = (Price (Some price), g).
Proof.
  intros Hself Hk0 Hk1 Ha Hb HK Hneg HS HKp HT Hsteps.
  rewrite (VolSurface_iv_value h self self_df rows _ _ Hself) in Ha.
  rewrite (VolSurface_iv_value h self self_df rows _ _ Hself) in Hb.
  injection Ha as Ha. injection Hb as Hb.
  assert (Hiv : returns (VolSurface_iv self K T) h
                = OK (Some (a + (K - k0) * ((b - a) / (k1 - k0))))).
  { rewrite (VolSurface_iv_value h self self_df rows _ _ Hself). f_equal.
    unfold surface_iv in *.
    apply (interpolate_strike_below _ _ _ k0 k1);
      [apply sorted_unique_ascending | assumption..]. }
  set (sigma := a + (K - k0) * ((b - a) / (k1 - k0))) in *.
  split.
  - rewrite (price_from_surface_bsm S K T r sigma); [|exact Hiv|reflexivity].
    unfold black_scholes_price.
    rewrite (decide_False (P := S <= 0 \/ K <= 0)) by lra.
    rewrite (decide_False (P := T <= 0)) by lra.
    rewrite (decide_True (P := sigma <= 0)) by lra. reflexivity.
  - destruct (binomial_tree_price_returns_any S K T r sigma "call" steps "european")
      as [price Hp]; [assumption | assumption | lra |].
    exists price. run_iv Hiv. cbn zeta.
    change (str_lower "binomial") with "binomial"%string.
    rewrite (decide_False (P := "binomial"%string = "bsm"%string)) by discriminate.
    rewrite (decide_True (P := "binomial"%string = "binomial"%string)) by reflexivity.
    cbn [from_option]. unfold Datatypes.id. rewrite Hp. reflexivity.
Qed.

Lemma price_below_strikes_witness :
  price_from_surface 100 50 1 0.05 2%positive "bsm" (only_option_type None)
    example_heap counting_generator = (Failed InvalidVolatility, counting_generator) /\
  exists price : R,
    price_from_surface 100 50 1 0.05 2%positive "binomial"
      (Kwargs None (Some 200%Z) None None None) example_heap counting_generator
      = (Price (Some price), counting_generator).
Proof.
  apply (price_below_strikes example_heap 2%positive 1%positive example_rows
           100 110 0.2 0.3 100 50 1 0.05 200 counting_generator); try lra; try lia.
  - reflexivity.
  - rewrite example_strikes. reflexivity.
  - rewrite example_strikes. reflexivity.
  - rewrite (VolSurface_iv_value example_heap 2 1 example_rows _ _ eq_refl).
    f_equal. apply (surface_iv_node example_rows (Row 1 100 0.2));
      [apply example_unique_pairs | apply example_full_grid
      | apply example_two_maturities | apply example_two_strikes | in_list].
  - rewrite (VolSurface_iv_value example_heap 2 1 example_rows _ _ eq_refl).
    f_equal. apply (surface_iv_node example_rows (Row 1 110 0.3));
      [apply example_unique_pairs | apply example_full_grid
      | apply example_two_maturities | apply example_two_strikes | in_list].
Defined.

(** X24.  The dispatch of [price_from_surface], once the surface has
    returned a number.  The analytic and the lattice methods leave the
    generator as it was; the Monte Carlo method advances it by [n_paths],
    50000 by default.  A keyword argument of another pricer is a
    [TypeError], raised before any pricer runs; a method that is none of
    "bsm", "binomial" and "mc" (in any case) raises its [ValueError],
    whatever the keyword arguments. *)
Theorem price_from_surface_dispatch (S K T r sigma : R) (vol_surface : loc)
    (method : string) (kw : kwargs) (h : heap) (g : rng_state) :
  returns (VolSurface_iv vol_surface K T) h = OK (Some sigma) ->
  let out := price_from_surface S K T r vol_surface method kw h g in
  (str_lower method = "bsm" ->
   snd out = g /\
   (kw_steps kw <> None \/ kw_exercise kw <> None \/
    kw_n_paths kw <> None \/ kw_antithetic kw <> None -> fst out = TypeError)) /\
  (str_lower method = "binomial" ->
   snd out = g /\
   (kw_n_paths kw <> None \/ kw_antithetic kw <> None -> fst out = TypeError)) /\
  (str_lower method = "mc" ->
   (kw_steps kw <> None \/ kw_exercise kw <> None -> out = (TypeError, g)) /\
   (kw_steps kw = None -> kw_exercise kw = None ->
    (0 <= default 50000%Z (kw_n_paths kw))%Z ->
    forall i : nat,
      snd out i = g (i + Z.to_nat (default 50000%Z (kw_n_paths kw)))%nat)) /\
  (str_lower method <> "bsm" -> str_lower method <> "binomial" ->
   str_lower method <> "mc" -> out = (Failed InvalidMethod, g)).
Proof.
  intros Hiv. cbn zeta. run_iv Hiv. cbn zeta.
  destruct kw as [ot st ex np an]. cbn [kw_steps kw_exercise kw_n_paths kw_antithetic].
  split; [|split; [|split]].
  - intros Hm. rewrite decide_True by exact Hm.
    destruct st, ex, np, an; cbn [fst snd]; (split; [reflexivity|]);
      try (intros _; reflexivity); intros [H|[H|[H|H]]]; contradiction.
  - intros Hm.
    rewrite (decide_False (P := str_lower method = "bsm")) by (rewrite Hm; discriminate).
    rewrite decide_True by exact Hm.
    destruct np, an; cbn [fst snd]; (split; [reflexivity|]);
      try (intros _; reflexivity); intros [H|H]; contradiction.
  - intros Hm.
    rewrite (decide_False (P := str_lower method = "bsm")) by (rewrite Hm; discriminate).
    rewrite (decide_False (P := str_lower method = "binomial"))
      by (rewrite Hm; discriminate).
    rewrite decide_True by exact Hm. split.
    + destruct st, ex; try (intros _; reflexivity). intros [H|H]; contradiction.
    + intros -> -> Hn i. unfold monte_carlo_european, np_random_randn.
      rewrite (decide_False (P := (default 50000 np < 0)%Z)) by lia.
      reflexivity.
  - intros H1 H2 H3. rewrite !decide_False by assumption. reflexivity.
Qed.

Lemma price_from_surface_dispatch_witness :
  let out := price_from_surface 100 110 1 0.05 2%positive "MC"
               (Kwargs None None None (Some 1000%Z) None) example_heap
               counting_generator in
  (str_lower "MC" = "bsm" ->
   snd out = counting_generator /\
   (kw_steps (Kwargs None None None (Some 1000%Z) None) <> None \/
    kw_exercise (Kwargs None None None (Some 1000%Z) None) <> None \/
    kw_n_paths (Kwargs None None None (Some 1000%Z) None) <> None \/
    kw_antithetic (Kwargs None None None (Some 1000%Z) None) <> None ->
    fst out = TypeError)) /\
  (str_lower "MC" = "binomial" ->
   snd out = counting_generator /\
   (kw_n_paths (Kwargs None None None (Some 1000%Z) None) <> None \/
    kw_antithetic (Kwargs None None None (Some 1000%Z) None) <> None ->
    fst out = TypeError)) /\
  (str_lower "MC" = "mc" ->
   (kw_steps (Kwargs None None None (Some 1000%Z) None) <> None \/
    kw_exercise (Kwargs None None None (Some 1000%Z) None) <> None ->
    out = (TypeError, counting_generator)) /\
   (kw_steps (Kwargs None None None (Some 1000%Z) None) = None ->
    kw_exercise (Kwargs None None None (Some 1000%Z) None) = None ->
    (0 <= default 50000%Z (kw_n_paths (Kwargs None None None (Some 1000%Z) None)))%Z ->
    forall i : nat,
      snd out i =
      counting_generator
        (i + Z.to_nat (default 50000%Z
                         (kw_n_paths (Kwargs None None None (Some 1000%Z) None))))%nat)) /\
  (str_lower "MC" <> "bsm" -> str_lower "MC" <> "binomial" ->
   str_lower "MC" <> "mc" -> out = (Failed InvalidMethod, counting_generator)).
Proof.
  apply (price_from_surface_dispatch 100 110 1 0.05 0.3 2%positive "MC"
           (Kwargs None None None (Some 1000%Z) None) example_heap counting_generator).
  rewrite (VolSurface_iv_value example_heap 2 1 example_rows _ _ eq_refl).
  f_equal. apply (surface_iv_node example_rows (Row 1 110 0.3));
    [apply example_unique_pairs | apply example_full_grid
    | apply example_two_maturities | apply example_two_strikes | in_list].
Defined.

(** ** The normal density and distribution function *)

Lemma sqrt_2PI : sqrt (2 * PI) = sqrt 2 * sqrt PI.
Proof. apply sqrt_mult; [lra | left; exact PI_RGT_0]. Qed.

Lemma normal_pdf_0 : normal_pdf 0 = 1 / sqrt (2 * PI).
Proof.
  unfold normal_pdf. replace (- 0.5 * 0 * 0) with 0 by ring.
  rewrite exp_0. ring.
Qed.



(** X26.  The distribution function around zero: [normal_cdf 0 = 0.5],
    [normal_cdf (-a) = 1 - normal_cdf a], and for [0 <= a <= 1] the value at
    [a] lies between [0.5 + a pdf(0) (1 - a^2/6)] and [0.5 + a pdf(0)]. *)
Theorem normal_cdf_enclosure (a : R) :
  0 <= a <= 1 ->
  normal_cdf 0 = 0.5 /\
  0.5 + a * normal_pdf 0 * (1 - a * a / 6) <= normal_cdf a <= 0.5 + a * normal_pdf 0 /\
  normal_cdf (- a) = 1 - normal_cdf a.
Proof.
  intros Ha. split; [|split].
  - unfold normal_cdf, erf. unfold Rdiv at 2. rewrite Rmult_0_l.
    rewrite !Rmult_0_l, Rmult_0_r. lra.
  - pose proof (erf_over_sqrt2_bounds a Ha) as [Hlo Hhi].
    rewrite normal_pdf_0, sqrt_2PI. unfold normal_cdf.
    pose proof sqrt_2_pos as H2.
    assert (Hp : 0 < sqrt PI) by (apply sqrt_lt_R0; exact PI_RGT_0).
    replace (a * (1 / (sqrt 2 * sqrt PI)) * (1 - a * a / 6))
      with (/ 2 * (2 / sqrt PI * (a / sqrt 2 * (1 - a * a / 6)))) by (field; lra).
    replace (a * (1 / (sqrt 2 * sqrt PI)))
      with (/ 2 * (2 / sqrt PI * (a / sqrt 2))) by (field; lra).
    lra.
  - pose proof (normal_cdf_reflect a). lra.
Qed.

Lemma normal_cdf_enclosure_witness :
  normal_cdf 0 = 0.5 /\
  0.5 + 0.5 * normal_pdf 0 * (1 - 0.5 * 0.5 / 6) <= normal_cdf 0.5
    <= 0.5 + 0.5 * normal_pdf 0 /\
  normal_cdf (- (0.5)) = 1 - normal_cdf 0.5.
Proof. apply (normal_cdf_enclosure 0.5). lra. Defined.

(** ** The terms [d1] and [d2] *)

(** X27.  Every outcome of [d1] and [d2]: the maturity is validated, then
    the volatility; spot and strike are not: a zero strike raises
    [ZeroDivisionError], a ratio [S / K] that is not positive the domain
    error of [math.log], and two negative values are accepted.  [d2] raises
    what [d1] raises, and otherwise [d1 - d2 = sigma sqrt(T) > 0]. *)
Theorem d1_d2_outcome (S K T r sigma : R) :
  (T <= 0 ->
   d1 S K T r sigma = Raise InvalidMaturity /\
   d2 S K T r sigma = Raise InvalidMaturity) /\
  (0 < T -> sigma <= 0 ->
   d1 S K T r sigma = Raise InvalidVolatility /\
   d2 S K T r sigma = Raise InvalidVolatility) /\
  (0 < T -> 0 < sigma -> K = 0 ->
   d1 S K T r sigma = Raise ZeroDivisionError /\
   d2 S K T r sigma = Raise ZeroDivisionError) /\
  (0 < T -> 0 < sigma -> K <> 0 -> S / K <= 0 ->
   d1 S K T r sigma = Raise MathDomainError /\
   d2 S K T r sigma = Raise MathDomainError) /\
  (0 < T -> 0 < sigma -> K <> 0 -> 0 < S / K ->
   exists d_1 d_2 : R,
     d1 S K T r sigma = OK d_1 /\ d2 S K T r sigma = OK d_2 /\
     d_1 = (ln (S / K) + (r + sigma * sigma / 2) * T) / (sigma * sqrt T) /\
     d_1 - d_2 = sigma * sqrt T /\ d_2 < d_1).
Proof.
  split; [|split; [|split; [|split]]].
  - intros HT. unfold d2, d1. rewrite decide_True by exact HT. split; reflexivity.
  - intros HT Hsig. unfold d2, d1. rewrite (decide_False (P := T <= 0)) by lra.
    rewrite decide_True by exact Hsig. split; reflexivity.
  - intros HT Hsig HK. unfold d2, d1, py_div.
    rewrite (decide_False (P := T <= 0)) by lra.
    rewrite (decide_False (P := sigma <= 0)) by lra.
    rewrite (decide_True (P := K = 0)) by exact HK. split; reflexivity.
  - intros HT Hsig HK Hq. unfold d2, d1, py_div, math_log.
    rewrite (decide_False (P := T <= 0)) by lra.
    rewrite (decide_False (P := sigma <= 0)) by lra.
    rewrite (decide_False (P := K = 0)) by exact HK. cbn [bind].
    rewrite (decide_True (P := S / K <= 0)) by exact Hq. split; reflexivity.
  - intros HT Hsig HK Hq.
    assert (Hs : 0 < sqrt T) by (apply sqrt_lt_R0; exact HT).
    assert (Hden : 0 < sigma * sqrt T) by (apply Rmult_lt_0_compat; assumption).
    assert (Hd1 : d1 S K T r sigma =
                  OK ((ln (S / K) + (r + 0.5 * sigma * sigma) * T) / (sigma * sqrt T))).
    { unfold d1, py_div, math_log, math_sqrt.
      rewrite (decide_False (P := T <= 0)) by lra.
      rewrite (decide_False (P := sigma <= 0)) by lra.
      rewrite (decide_False (P := K = 0)) by exact HK. cbn [bind].
      rewrite (decide_False (P := S / K <= 0)) by lra. cbn [bind].
      rewrite (decide_False (P := T < 0)) by lra. cbn [bind].
      rewrite (decide_False (P := sigma * sqrt T = 0)) by lra. reflexivity. }
    do 2 eexists. split; [exact Hd1|]. unfold d2. rewrite Hd1. cbn [bind].
    unfold math_sqrt. rewrite (decide_False (P := T < 0)) by lra. cbn [bind].
    split; [reflexivity|].
    split; [f_equal; f_equal; f_equal; lra|]. split; lra.
Qed.

(** ** A quote that is missing *)

Lemma interpolate_gap_node (ms ks : list R) (values : list (list float))
    (i j : nat) (t k : R) :
  ascending ms -> ascending ks ->
  (2 <= length ms)%nat -> (2 <= length ks)%nat ->
  ms !! i = Some t -> ks !! j = Some k ->
  cell values i j = None ->
  interpolate ms ks values t k = None.
Proof.
  intros Hms Hks Hnm Hnk Ht Hk Hgap.
  destruct (find_indices_at_node ms i t Hms Hnm Ht) as (c0 & y0 & Hf0 & Hc0 & Hy0).
  destruct (find_indices_at_node ks j k Hks Hnk Hk) as (c1 & y1 & Hf1 & Hc1 & Hy1).
  unfold interpolate. rewrite Hf0, Hf1.
  destruct (evaluate_linear values (Z.of_nat c0) (Z.of_nat c1) y0 y1) as [x|] eqn:He;
    [|reflexivity].
  exfalso. apply evaluate_linear_spec in He
    as (v00 & v01 & v10 & v11 & H00 & H01 & H10 & H11 & _).
  destruct (cell_succ values c0 c1) as (E01 & E10 & E11).
  rewrite E01 in H01. rewrite E10 in H10. rewrite E11 in H11.
  change (cell values c0 c1 = Some v00) in H00.
  destruct Hy0 as [[-> _]|[<- _]], Hy1 as [[-> _]|[<- _]]; congruence.
Qed.

(** X28.  A quote that is missing cannot be priced: when the table has
    no row for a maturity and a strike of its axes, the surface returns NaN
    at that point and [price_from_surface] raises its [ValueError], whatever
    the method and the keyword arguments. *)
Theorem missing_quote_is_not_priced (h : heap) (d : loc) (rows : list row)
    (m k S r : R) (method : string) (kw : kwargs) (g : rng_state) :
  h !! d = Some (DataFrame rows) ->
  two_values (maturity <$> rows) -> two_values (strike <$> rows) ->
  m ∈ maturity <$> rows -> k ∈ strike <$> rows ->
  (forall rw : row, rw ∈ rows -> ~ (maturity rw = m /\ strike rw = k)) ->
  exists (self : loc) (h1 : heap),
    VolSurface_init d h = OK (self, h1) /\
    returns (VolSurface_iv self k m) h1 = OK NaN /\
    price_from_surface S k m r self method kw h1 g = (Failed InvalidSurfaceVol, g).
Proof.
  intros Hd Hm2 Hk2 Hm Hk Hnone.
  destruct (VolSurface_init_result h d rows Hd)
    as (self & self_df & h1 & Hinit & Hself & _).
  exists self, h1. split; [exact Hinit|].
  assert (Hiv : returns (VolSurface_iv self k m) h1 = OK NaN).
  { rewrite (VolSurface_iv_value h1 self self_df rows _ _ Hself). f_equal.
    apply (proj2 (sorted_unique_elem _ m)) in Hm.
    apply (proj2 (sorted_unique_elem _ k)) in Hk.
    apply list_elem_of_lookup in Hm as [i Hi]. apply list_elem_of_lookup in Hk as [j Hj].
    unfold surface_iv.
    apply (interpolate_gap_node _ _ _ i j);
      try apply sorted_unique_ascending;
      try (apply two_values_length; assumption); try assumption.
    rewrite (pivot_table_cell rows i j m k Hi Hj).
    rewrite (filter_none _ rows); [reflexivity|]. exact Hnone. }
  split; [exact Hiv|]. run_iv Hiv. reflexivity.
Qed.

Lemma missing_quote_is_not_priced_witness :
  exists (self : loc) (h1 : heap),
    VolSurface_init 1%positive {[1%positive := DataFrame sparse_rows]}
      = OK (self, h1) /\
    returns (VolSurface_iv self 110 2) h1 = OK NaN /\
    price_from_surface 100 110 2 0.05 self "bsm" (only_option_type None) h1
      counting_generator = (Failed InvalidSurfaceVol, counting_generator).
Proof.
  apply (missing_quote_is_not_priced {[1%positive := DataFrame sparse_rows]}
           1%positive sparse_rows 2 110 100 0.05 "bsm" (only_option_type None)
           counting_generator).
  - reflexivity.
  - exists 1, 2. split; [in_list|]. split; [in_list | lra].
  - exists 100, 110. split; [in_list|]. split; [in_list | lra].
  - in_list.
  - in_list.
  - intros rw Hrw. unfold sparse_rows in Hrw. split_in Hrw; simpl; lra.
Defined.

(** ** Call and put on the same paths *)

Lemma Rsum_minus (A : Type) (f1 f2 : A -> R) (l : list A) :
  Rsum (f1 <$> l) - Rsum (f2 <$> l) = Rsum ((fun a => f1 a - f2 a) <$> l).
Proof.
  unfold Rsum. induction l as [|a l IH]; [simpl; lra|].
  cbn [fmap list_fmap foldr] in *. lra.
Qed.

Lemma draws_length (n_paths : Z) (antithetic : bool) (g : rng_state) :
  (1 <= n_paths)%Z -> (0 < length (draws n_paths antithetic g))%nat.
Proof.
  intros Hn. unfold draws. cbn zeta.
  destruct antithetic; rewrite ?length_app, !length_fmap, length_seq; lia.
Qed.

Lemma path_payoff_spot (S0 K T r sigma : R) (option_type : string) (z : R) :
  path_payoff S0 K T r sigma option_type z =
    if decide (str_lower option_type = "call")
    then Rmax (path_spot S0 T r sigma z - K) 0
    else Rmax (K - path_spot S0 T r sigma z) 0.
Proof. reflexivity. Qed.

(** X29.  Put-call parity on the paths of one state of the generator:
    [call - put = exp(-r T) (mean(S_T) - K)], the mean being over the
    terminal spots of the paths. *)
Theorem monte_carlo_put_call_parity (S0 K T r sigma : R) (n_paths : Z)
    (antithetic : bool) (g : rng_state) :
  (1 <= n_paths)%Z -> 0 <= T ->
  exists call put mean_spot : R,
    mc_price S0 K T r sigma "call" n_paths antithetic g = OK (Some call) /\
    mc_price S0 K T r sigma "put" n_paths antithetic g = OK (Some put) /\
    np_mean (path_spot S0 T r sigma <$> draws n_paths antithetic g) = Some mean_spot /\
    call - put = exp (- r * T) * (mean_spot - K).
Proof.
  intros Hn HT. rewrite !monte_carlo_european_unfold by (lia || assumption).
  cbn zeta. fold (draws n_paths antithetic g).
  pose proof (draws_length n_paths antithetic g Hn) as Hlen.
  set (Zs := draws n_paths antithetic g) in *.
  rewrite !np_mean_nonempty by (rewrite length_fmap; exact Hlen).
  do 3 eexists. split; [reflexivity|]. split; [reflexivity|].
  split; [reflexivity|]. rewrite !length_fmap.
  assert (Hni : 0 < INR (length Zs)) by (apply lt_0_INR; exact Hlen).
  assert (Hdiff : Rsum (path_payoff S0 K T r sigma "call" <$> Zs) -
                  Rsum (path_payoff S0 K T r sigma "put" <$> Zs) =
                  Rsum (path_spot S0 T r sigma <$> Zs) - INR (length Zs) * K).
  { rewrite Rsum_minus.
    rewrite <- (Rsum_const R K Zs), Rsum_minus. f_equal.
    apply list_fmap_ext. intros _ z _. rewrite !path_payoff_spot.
    change (str_lower "call") with "call"%string.
    change (str_lower "put") with "put"%string.
    rewrite decide_True by reflexivity. rewrite decide_False by discriminate.
    unfold Rmax.
    destruct (Rle_dec (path_spot S0 T r sigma z - K) 0),
             (Rle_dec (K - path_spot S0 T r sigma z) 0); lra. }
  set (sc := Rsum (path_payoff S0 K T r sigma "call" <$> Zs)) in *.
  set (sp := Rsum (path_payoff S0 K T r sigma "put" <$> Zs)) in *.
  set (ss := Rsum (path_spot S0 T r sigma <$> Zs)) in *.
  replace sc with (sp + (ss - INR (length Zs) * K)) by lra.
  field. lra.
Qed.

Lemma monte_carlo_put_call_parity_witness :
  exists call put mean_spot : R,
    mc_price 100 100 1 0.05 0.2 "call" 20000 true counting_generator = OK (Some call) /\
    mc_price 100 100 1 0.05 0.2 "put" 20000 true counting_generator = OK (Some put) /\
    np_mean (path_spot 100 1 0.05 0.2 <$> draws 20000 true counting_generator)
      = Some mean_spot /\
    call - put = exp (- (0.05) * 1) * (mean_spot - 100).
Proof.
  apply (monte_carlo_put_call_parity 100 100 1 0.05 0.2 20000 true
           counting_generator); [lia | lra].
Defined.

(** ** Spot and strike in another unit *)

Lemma Rmax_scale (c x y : R) : 0 <= c -> Rmax (c * x) (c * y) = c * Rmax x y.
Proof. intros Hc. apply RmaxRmult. exact Hc. Qed.

Lemma Rmax_scale_0 (c x : R) : 0 <= c -> Rmax (c * x) 0 = c * Rmax x 0.
Proof.
  intros Hc. rewrite <- (Rmult_0_r c) at 1. apply Rmax_scale. exact Hc.
Qed.

Lemma node_value_scale (c K u p disc : R) (option_type exercise : string)
    (price_j v_up v_down : R) :
  0 <= c ->
  node_value (c * K) u p disc option_type exercise (c * price_j) (c * v_up) (c * v_down)
    = c * node_value K u p disc option_type exercise price_j v_up v_down.
Proof.
  intros Hc. unfold node_value.
  replace (disc * (p * (c * v_up) + (1 - p) * (c * v_down)))
    with (c * (disc * (p * v_up + (1 - p) * v_down))) by ring.
  destruct (decide (str_lower exercise = "american")); [|reflexivity].
  destruct (decide (option_type = "call")).
  - replace (c * price_j / u - c * K) with (c * (price_j / u - K))
      by (unfold Rdiv; ring).
    rewrite Rmax_scale_0, Rmax_scale by exact Hc. reflexivity.
  - replace (c * K - c * price_j / u) with (c * (K - price_j / u))
      by (unfold Rdiv; ring).
    rewrite Rmax_scale_0, Rmax_scale by exact Hc. reflexivity.
Qed.

Lemma induction_step_scaled (c K u p disc : R) (option_type exercise : string)
    (n j : nat) (s1 s2 : list R * list R) :
  0 <= c -> u <> 0 -> (j < n)%nat -> scaled c n s1 s2 ->
  exists s1' s2',
    induction_step K u p disc option_type exercise j s1 = OK s1' /\
    induction_step (c * K) u p disc option_type exercise j s2 = OK s2' /\
    scaled c n s1' s2'.
Proof.
  intros Hc Hu Hj ([Hlp Hlv] & Hp & Hv).
  destruct s1 as [p1 v1], s2 as [p2 v2]. cbn [fst snd] in *.
  pose proof (Forall2_length _ _ _ Hp) as Hlp2.
  pose proof (Forall2_length _ _ _ Hv) as Hlv2.
  destruct (py_get_lt p1 j) as (pj & Hpj & _); [lia|].
  destruct (py_get_lt v1 (j + 1)) as (vu & Hvu & _); [lia|].
  destruct (py_get_lt v1 j) as (vd & Hvd & _); [lia|].
  destruct (py_get_lt p2 j) as (pj2 & Hpj2 & _); [lia|].
  destruct (py_get_lt v2 (j + 1)) as (vu2 & Hvu2 & _); [lia|].
  destruct (py_get_lt v2 j) as (vd2 & Hvd2 & _); [lia|].
  pose proof (Forall2_lookup_lr _ _ _ _ _ _ Hp Hpj Hpj2) as Ep.
  pose proof (Forall2_lookup_lr _ _ _ _ _ _ Hv Hvu Hvu2) as Eu.
  pose proof (Forall2_lookup_lr _ _ _ _ _ _ Hv Hvd Hvd2) as Ed.
  cbn beta in Ep, Eu, Ed. subst pj2 vu2 vd2.
  do 2 eexists.
  split; [apply induction_step_value; eassumption|].
  split; [apply induction_step_value; eassumption|].
  split; [split; cbn [fst snd]; rewrite length_insert; assumption|].
  cbn [fst snd]. split.
  - apply Forall2_insert; [exact Hp|]. unfold Rdiv. ring.
  - apply Forall2_insert; [exact Hv|]. apply node_value_scale. exact Hc.
Qed.

Lemma backward_induction_scaled (c K u p disc : R) (option_type exercise : string)
    (n : nat) (s1 s2 : list R * list R) :
  0 <= c -> u <> 0 -> scaled c n s1 s2 ->
  exists s1' s2',
    for_each (rev (seq 0 n)) (induction_level K u p disc option_type exercise) s1
      = OK s1' /\
    for_each (rev (seq 0 n)) (induction_level (c * K) u p disc option_type exercise) s2
      = OK s2' /\
    scaled c n s1' s2'.
Proof.
  intros Hc Hu Hst.
  apply (for_each_rel (scaled c n) (fun i : nat => (i < n)%nat));
    [|apply rev_seq_below|exact Hst].
  intros i s1' s2' Hi Hs. unfold induction_level.
  apply (for_each_rel (scaled c n) (fun j : nat => (j < n)%nat));
    [|apply seq_below; exact Hi|exact Hs].
  intros j t1 t2 Hj Ht. apply induction_step_scaled; assumption.
Qed.

Lemma terminal_scaled (c S K u d : R) (option_type : string) (steps : Z) :
  0 <= c ->
  let prices := terminal_prices S u d steps in
  let prices' := terminal_prices (c * S) u d steps in
  Forall2 (fun x y => y = c * x) prices prices' /\
  Forall2 (fun x y => y = c * x) (terminal_values K option_type prices)
    (terminal_values (c * K) option_type prices').
Proof.
  intros Hc. cbn zeta.
  assert (Hp : terminal_prices (c * S) u d steps
               = Rmult c <$> terminal_prices S u d steps).
  { unfold terminal_prices. rewrite <- list_fmap_compose.
    apply list_fmap_ext. intros _ j _. simpl. ring. }
  rewrite Hp. split.
  - apply Forall2_fmap_r, Forall2_same_length_lookup_2; [reflexivity|].
    intros i x y Hx Hy. rewrite Hx in Hy. injection Hy as <-. reflexivity.
  - unfold terminal_values.
    destruct (decide (option_type = "call")); rewrite <- list_fmap_compose;
      apply Forall2_fmap, Forall2_same_length_lookup_2; try reflexivity;
      intros i x y Hx Hy; rewrite Hx in Hy; injection Hy as <-; simpl.
    + rewrite <- Rmax_scale_0 by exact Hc. f_equal. ring.
    + rewrite <- Rmax_scale_0 by exact Hc. f_equal. ring.
Qed.

Lemma py_get_scaled (c : R) (v1 v2 : list R) (j : nat) :
  Forall2 (fun x y => y = c * x) v1 v2 ->
  py_get v2 j = let! x := py_get v1 j in OK (c * x).
Proof.
  intros Hv. unfold py_get.
  destruct (v1 !! j) as [x|] eqn:Hx.
  - destruct (Forall2_lookup_l _ _ _ _ _ Hv Hx) as (y & Hy & ->).
    rewrite Hy. reflexivity.
  - assert (Hy : v2 !! j = None).
    { apply lookup_ge_None. rewrite <- (Forall2_length _ _ _ Hv).
      apply lookup_ge_None. exact Hx. }
    rewrite Hy. reflexivity.
Qed.

Lemma np_mean_scale (c : R) (xs : list R) :
  np_mean (Rmult c <$> xs) = Rmult c <$> np_mean xs.
Proof.
  destruct xs as [|x xs]; [reflexivity|].
  change (Rmult c <$> x :: xs) with (c * x :: (Rmult c <$> xs)).
  rewrite !np_mean_cons. cbn [fmap option_fmap option_map]. f_equal.
  assert (Hs : forall l : list R, Rsum (Rmult c <$> l) = c * Rsum l).
  { unfold Rsum. induction l as [|a l IH]; [simpl; ring|].
    cbn [fmap list_fmap foldr] in *. rewrite IH. ring. }
  change (c * x :: (Rmult c <$> xs)) with (Rmult c <$> x :: xs).
  rewrite Hs, length_fmap.
  assert (0 < INR (length (x :: xs))) by (apply lt_0_INR; simpl; lia).
  field. lra.
Qed.

(** X30.  The lattice price and the Monte Carlo price in another unit:
    multiplying spot and strike by [c >= 0] multiplies the price by [c]
    (in exact arithmetic), and leaves every error as it is. *)
Theorem lattice_and_paths_homogeneous (c S K T r sigma : R) (option_type : string)
    (steps : Z) (exercise : string) (n_paths : Z) (antithetic : bool)
    (g : rng_state) :
  0 <= c ->
  binomial_tree_price (c * S) (c * K) T r sigma option_type steps exercise =
    (let! price := binomial_tree_price S K T r sigma option_type steps exercise in
     OK (c * price)) /\
  mc_price (c * S) (c * K) T r sigma option_type n_paths antithetic g =
    (let! price := mc_price S K T r sigma option_type n_paths antithetic g in
     OK (Rmult c <$> price)).
Proof.
  intros Hc. split.
  - unfold binomial_tree_price.
    destruct (py_div T (IZR steps)) as [dt|]; [cbn [bind]|reflexivity].
    destruct (math_sqrt dt) as [sq|]; [cbn [bind]|reflexivity].
    destruct (py_div 1 (exp (sigma * sq))) as [d|]; [cbn [bind]|reflexivity].
    destruct (py_div (exp (r * dt) - d) (exp (sigma * sq) - d)) as [p|];
      [cbn [bind]|reflexivity].
    pose proof (exp_pos (sigma * sq)) as Hu. set (u := exp (sigma * sq)) in *.
    destruct (terminal_scaled c S K u d (str_lower option_type) steps Hc)
      as [Hp Hv].
    set (prices := terminal_prices S u d steps) in *.
    set (prices' := terminal_prices (c * S) u d steps) in *.
    destruct (Z.to_nat steps) as [|n] eqn:Hn.
    + cbn [seq rev for_each bind snd]. apply py_get_scaled. exact Hv.
    + destruct (backward_induction_scaled c K u p (exp (- r * dt))
                  (str_lower option_type) exercise (Datatypes.S n)
                  (prices, terminal_values K (str_lower option_type) prices)
                  (prices', terminal_values (c * K) (str_lower option_type) prices'))
        as (s1 & s2 & H1 & H2 & _ & _ & Hv'); [exact Hc | lra | |].
      * split; [|split; assumption].
        split; cbn [fst snd]; [|rewrite length_terminal_values];
          unfold prices; rewrite length_terminal_prices by lia; lia.
      * rewrite H1, H2. cbn [bind]. apply py_get_scaled. exact Hv'.
  - unfold mc_price, monte_carlo_european.
    destruct (np_random_randn n_paths g) as [[Z|e] g']; [|reflexivity].
    cbn [fst bind].
    destruct (math_sqrt T) as [sq|]; [cbn [bind]|reflexivity].
    f_equal.
    set (Zs := if antithetic then Z ++ (Ropp <$> Z) else Z).
    assert (Hpay :
      (if decide (str_lower option_type = "call")
       then (fun st : R => Rmax (st - c * K) 0) <$>
              ((fun z : R => c * S * exp ((r - 0.5 * sigma ^ 2) * T + sigma * sq * z)) <$> Zs)
       else (fun st : R => Rmax (c * K - st) 0) <$>
              ((fun z : R => c * S * exp ((r - 0.5 * sigma ^ 2) * T + sigma * sq * z)) <$> Zs))
      = Rmult c <$>
          (if decide (str_lower option_type = "call")
           then (fun st : R => Rmax (st - K) 0) <$>
                  ((fun z : R => S * exp ((r - 0.5 * sigma ^ 2) * T + sigma * sq * z)) <$> Zs)
           else (fun st : R => Rmax (K - st) 0) <$>
                  ((fun z : R => S * exp ((r - 0.5 * sigma ^ 2) * T + sigma * sq * z)) <$> Zs))).
    { destruct (decide (str_lower option_type = "call"));
        rewrite <- !list_fmap_compose; apply list_fmap_ext; intros _ z _; simpl;
        rewrite <- Rmax_scale_0 by exact Hc; f_equal; ring. }
    rewrite Hpay, np_mean_scale.
    destruct (np_mean _) as [m|]; [|reflexivity].
    cbn [fmap option_fmap option_map]. f_equal. ring.
Qed.

Lemma lattice_and_paths_homogeneous_witness :
  binomial_tree_price (100 * 1) (100 * 1.1) 1 0.05 0.2 "put" 200 "american" =
    (let! price := binomial_tree_price 1 1.1 1 0.05 0.2 "put" 200 "american" in
     OK (100 * price)) /\
  mc_price (100 * 1) (100 * 1.1) 1 0.05 0.2 "put" 50000 true counting_generator =
    (let! price := mc_price 1 1.1 1 0.05 0.2 "put" 50000 true counting_generator in
     OK (Rmult 100 <$> price)).
Proof.
  apply (lattice_and_paths_homogeneous 100 1 1.1 1 0.05 0.2 "put" 200 "american"
           50000 true counting_generator).
  lra.
Defined.
